(** * STLUtil: binary STL reader and plane slicer (stlutil.hpp)

    A shallow embedding of [stlutil::STLReader] and of the slicing
    functions [stlutil::slice_polygons_at], [slice_polygons_at_x/y/z],
    together with the properties of the specification that concern them.

    Modelling conventions.
    - A C++ [float] is its 32-bit object representation, an integer in
      [0, 2^32) (IEEE-754 binary32).  Arithmetic on floats is the IEEE
      arithmetic of the Standard Library's [SpecFloat] at precision 24 and
      [emax = 128], rounding to nearest even after every operation (no
      excess precision, no fused multiply-add).  [SpecFloat] has a single
      NaN; an operation that produces a NaN yields the quiet NaN
      [0x7FC00000].
    - The host is little-endian, as [istream::read] into a [uint32_t] or a
      [float] copies the bytes of the file in host order.
    - [polygons_.resize(size)] asks for the storage the file declares and
      may throw ([host] below says what the vector admits and what the
      allocator provides).  The requests of fixed or bounded size (the 80
      characters of [header_], the growth of the result of
      [slice_polygons_at]) are taken to be served. *)

From Stdlib Require Import ZArith List Lia Bool String Ascii.
From Stdlib Require Import SpecFloat.
From Stdlib.Strings Require Byte.
Import ListNotations.

Local Open Scope Z_scope.

(** ** IEEE-754 binary32 *)

Module Binary32.

Definition prec : Z := 24.
Definition emax : Z := 128.

(** The object representation of a [float]: 1 sign bit, 8 exponent bits,
    23 fraction bits. *)
Definition float : Type := Z.

Definition wf (x : float) : Prop := 0 <= x < 2 ^ 32.

Definition sign_bit (x : float) : bool := 2 ^ 31 <=? x mod 2 ^ 32.
Definition biased_exp (x : float) : Z := (x / 2 ^ 23) mod 2 ^ 8.
Definition fraction (x : float) : Z := x mod 2 ^ 23.

Definition sign_word (s : bool) : Z := if s then 2 ^ 31 else 0.

(** The value denoted by a bit pattern. *)
Definition to_spec (x : float) : spec_float :=
  let s := sign_bit x in
  let e := biased_exp x in
  let f := fraction x in
  if e =? 0 then
    match f with
    | Zpos m => S754_finite s m (-149)
    | _ => S754_zero s
    end
  else if e =? 255 then
    if f =? 0 then S754_infinity s else S754_nan
  else
    match f + 2 ^ 23 with
    | Zpos m => S754_finite s m (e - 150)
    | _ => S754_nan
    end.

(** The bit pattern of a value; every NaN is the quiet NaN 0x7FC00000. *)
Definition of_spec (v : spec_float) : float :=
  match v with
  | S754_zero s => sign_word s
  | S754_infinity s => sign_word s + 0x7F800000
  | S754_nan => 0x7FC00000
  | S754_finite s m e =>
      if Zpos m <? 2 ^ 23 then sign_word s + Zpos m
      else sign_word s + (e + 150) * 2 ^ 23 + (Zpos m - 2 ^ 23)
  end.

Definition fadd (x y : float) : float :=
  of_spec (SFadd prec emax (to_spec x) (to_spec y)).
Definition fsub (x y : float) : float :=
  of_spec (SFsub prec emax (to_spec x) (to_spec y)).
Definition fmul (x y : float) : float :=
  of_spec (SFmul prec emax (to_spec x) (to_spec y)).
Definition fdiv (x y : float) : float :=
  of_spec (SFdiv prec emax (to_spec x) (to_spec y)).

(** Unary minus flips the sign bit, of a NaN too. *)
Definition fneg (x : float) : float :=
  if sign_bit x then x mod 2 ^ 32 - 2 ^ 31 else x mod 2 ^ 32 + 2 ^ 31.

Definition fle (x y : float) : bool := SFleb (to_spec x) (to_spec y).
Definition flt (x y : float) : bool := SFltb (to_spec x) (to_spec y).

(** The comparison [x == y]. *)
Definition feq (x y : float) : bool := SFeqb (to_spec x) (to_spec y).

(** Conversion of an [int] literal to [float]. *)
Definition of_int (n : Z) : float :=
  of_spec (binary_normalize prec emax n 0 false).

Definition is_zero (x : float) : bool :=
  match to_spec x with S754_zero _ => true | _ => false end.
Definition is_nan (x : float) : bool :=
  match to_spec x with S754_nan => true | _ => false end.
Definition is_finite (x : float) : bool :=
  match to_spec x with
  | S754_zero _ | S754_finite _ _ _ => true
  | _ => false
  end.

Definition zero_or_nan (x : float) : bool :=
  match to_spec x with S754_zero _ | S754_nan => true | _ => false end.
Definition finite_nonzero (x : float) : bool :=
  match to_spec x with S754_finite _ _ _ => true | _ => false end.

Definition neg_zero : float := 0x80000000.

(** A coordinate whose value ordinary arithmetic preserves: a bit
    pattern of a finite number other than negative zero. *)
Definition plain (x : float) : Prop :=
  wf x /\ is_finite x = true /\ x <> neg_zero.

(** The value 1.0f. *)
Definition SF_one : spec_float := S754_finite false 8388608 (-23).

End Binary32.

Import Binary32.

Declare Scope f32_scope.
Delimit Scope f32_scope with f32.
Infix "+" := fadd : f32_scope.
Infix "-" := fsub : f32_scope.
Infix "*" := fmul : f32_scope.
Infix "/" := fdiv : f32_scope.
Notation "- x" := (fneg x) : f32_scope.
Infix "<=?" := fle : f32_scope.
Infix "<?" := flt : f32_scope.

(** ** The data model and the slicer *)

Module stlutil.

Record STLVector := { x : float; y : float; z : float }.

Record STLSegment := { p : STLVector; q : STLVector }.

Record STLPolygon :=
  { normal : STLVector; a : STLVector; b : STLVector; c : STLVector }.

(** *** The input stream

    [std::ifstream] opened in binary mode: the content of the file, the
    get position, the state flags and the exception mask. *)

Record iostate := { eofbit : bool; failbit : bool; badbit : bool }.

Definition goodbit : iostate :=
  {| eofbit := false; failbit := false; badbit := false |}.

Definition state_or (f g : iostate) : iostate :=
  {| eofbit := eofbit f || eofbit g;
     failbit := failbit f || failbit g;
     badbit := badbit f || badbit g |}.

Definition state_meets (f g : iostate) : bool :=
  eofbit f && eofbit g || failbit f && failbit g || badbit f && badbit g.

Record ifstream :=
  { content : list Byte.byte;
    pos : nat;
    rdstate : iostate;
    exceptions : iostate }.

Definition good (s : ifstream) : bool :=
  negb (state_meets (rdstate s)
          {| eofbit := true; failbit := true; badbit := true |}).

(** The bytes between the get position and the end of the file. *)
Definition available (s : ifstream) : nat :=
  (List.length (content s) - pos s)%nat.

(** The exceptions the constructor can let through: of the stream, and
    of [std::vector::resize]. *)
Inductive exception := ios_failure | length_error | bad_alloc.

Inductive result (A : Type) :=
| Ok (v : A) (s : ifstream)
| Throw (e : exception).
Arguments Ok {A} v s.
Arguments Throw {A} e.

Definition io (A : Type) : Type := ifstream -> result A.

Definition ret {A} (v : A) : io A := fun s => Ok v s.

Definition bind {A B} (m : io A) (k : A -> io B) : io B :=
  fun s => match m s with
           | Ok v s' => k v s'
           | Throw e => Throw e
           end.

Notation "x <- m ;; k" := (bind m (fun x => k))
  (at level 61, m at next level, right associativity).
Notation "m ;; k" := (bind m (fun _ => k))
  (at level 61, right associativity).

(** The stream as the constructor uses it: good, and throwing on
    [failbit] but not on [eofbit]. *)
Definition armed (s : ifstream) : Prop :=
  good s = true /\ failbit (exceptions s) = true
  /\ eofbit (exceptions s) = false.

(** [setstate(f)]: adds the flags and throws [ios_base::failure] when one
    of the flags now set is in the exception mask. *)
Definition setstate (f : iostate) : io unit := fun s =>
  let st := state_or (rdstate s) f in
  if state_meets st (exceptions s) then Throw ios_failure
  else Ok tt {| content := content s; pos := pos s;
                rdstate := st; exceptions := exceptions s |}.

(** [exceptions(mask)]: installs the mask, and throws at once when the
    current state has one of its flags. *)
Definition set_exceptions (mask : iostate) : io unit := fun s =>
  if state_meets (rdstate s) mask then Throw ios_failure
  else Ok tt {| content := content s; pos := pos s;
                rdstate := rdstate s; exceptions := mask |}.

Definition seek (n : nat) (s : ifstream) : ifstream :=
  {| content := content s; pos := n;
     rdstate := rdstate s; exceptions := exceptions s |}.

(** [read(buf, n)]: the sentry sets [failbit] on a stream that is not
    good; otherwise [n] bytes are extracted, and reaching the end of the
    file before that sets [eofbit | failbit].  The result is the bytes
    extracted. *)
Definition read (n : nat) : io (list Byte.byte) := fun s =>
  if good s then
    if (n <=? available s)%nat then
      Ok (firstn n (skipn (pos s) (content s))) (seek (pos s + n) s)
    else
      (setstate {| eofbit := true; failbit := true; badbit := false |} ;;
       ret (skipn (pos s) (content s))) (seek (List.length (content s)) s)
  else
    (setstate {| eofbit := false; failbit := true; badbit := false |} ;;
     ret []) s.

(** [ignore(n)]: as [read], but reaching the end of the file sets
    [eofbit] only. *)
Definition ignore (n : nat) : io unit := fun s =>
  if good s then
    if (n <=? available s)%nat then Ok tt (seek (pos s + n) s)
    else
      setstate {| eofbit := true; failbit := false; badbit := false |}
        (seek (List.length (content s)) s)
  else
    setstate {| eofbit := false; failbit := true; badbit := false |} s.

(** *** Objects in memory (little-endian host) *)

Definition byte_val (b : Byte.byte) : Z := Z.of_N (Byte.to_N b).

Definition byte_of (v : Z) : Byte.byte :=
  match Byte.of_N (Z.to_N (v mod 256)) with
  | Some b => b
  | None => Byte.x00
  end.

Fixpoint le_decode (bs : list Byte.byte) : Z :=
  match bs with
  | [] => 0
  | b :: bs' => byte_val b + 256 * le_decode bs'
  end.

Fixpoint le_encode (n : nat) (v : Z) : list Byte.byte :=
  match n with
  | O => []
  | S n' => byte_of v :: le_encode n' (v / 256)
  end.

(** The bytes extracted by a [read] land at the start of the object; the
    bytes behind them keep what they held. *)
Definition overlay (old got : list Byte.byte) : list Byte.byte :=
  got ++ skipn (List.length got) old.

(** [read(&v, 4)] into a 4-byte scalar [v] ([uint32_t] or [float]) that
    held [old]. *)
Definition read_scalar (old : Z) : io Z :=
  got <- read 4 ;; ret (le_decode (overlay (le_encode 4 old) got)).

(** *** STLReader *)

Record STLReader :=
  { header_ : list Byte.byte;
    polygons_ : list STLPolygon;
    valid : bool }.

Definition read_vector (v : STLVector) : io STLVector :=
  x' <- read_scalar (x v) ;;
  y' <- read_scalar (y v) ;;
  z' <- read_scalar (z v) ;;
  ret {| x := x'; y := y'; z := z' |}.

(** The body of the loop over [polygons_]: the twelve floats of the
    element are overwritten, then [ignore(2)]. *)
Definition read_polygon (polygon : STLPolygon) : io STLPolygon :=
  normal' <- read_vector (normal polygon) ;;
  a' <- read_vector (a polygon) ;;
  b' <- read_vector (b polygon) ;;
  c' <- read_vector (c polygon) ;;
  ignore 2 ;;
  ret {| normal := normal'; a := a'; b := b'; c := c' |}.

Fixpoint read_polygons (polygons : list STLPolygon) : io (list STLPolygon) :=
  match polygons with
  | [] => ret []
  | polygon :: rest =>
      polygon' <- read_polygon polygon ;;
      rest' <- read_polygons rest ;;
      ret (polygon' :: rest')
  end.

(** A value-initialised element, as [resize] makes them. *)
Definition zero_vector : STLVector := {| x := 0; y := 0; z := 0 |}.
Definition zero_polygon : STLPolygon :=
  {| normal := zero_vector; a := zero_vector;
     b := zero_vector; c := zero_vector |}.

(** What [polygons_.resize] meets at run time: [max_size()] of the
    vector, and whether the allocator provides the storage of [n]
    polygons. *)
Record host := { max_size : Z; allocates : Z -> bool }.

(** A 64-bit host with storage to spare: [max_size()] is
    [PTRDIFF_MAX / sizeof(STLPolygon)], (2^63 - 1) / 48. *)
Definition ample : host :=
  {| max_size := 192153584101141162; allocates := fun _ => true |}.

(** [polygons_.resize(n)] on the empty vector: [std::length_error] when
    [n] exceeds [max_size()], [std::bad_alloc] when the allocator
    refuses; nothing is allocated for [n = 0].  The new elements are
    value-initialised. *)
Definition resize (h : host) (n : Z) : io (list STLPolygon) := fun s =>
  if max_size h <? n then Throw length_error
  else if (n =? 0) || allocates h n
       then Ok (repeat zero_polygon (Z.to_nat n)) s
       else Throw bad_alloc.

(** [resize(n)] obtains its storage. *)
Definition served (h : host) (n : Z) : Prop :=
  n <= max_size h /\ (n = 0 \/ allocates h n = true).

(** What the constructor leaves: an object, or an exception and no
    object. *)
Inductive construction :=
| Object (r : STLReader)
| Exception (e : exception).

(** The file system: the content of the file a path names, [None] when
    it cannot be opened. *)
Definition filesystem : Type := string -> option (list Byte.byte).

Definition endl : string := String (ascii_of_nat 10) EmptyString.

Definition open_error (path : string) : string :=
  ("STLReader::STLReader() Error: Cannot open file `" ++ path ++ "`."
     ++ endl)%string.

(** The stream of a file that has just been opened. *)
Definition open_stream (bytes : list Byte.byte) : ifstream :=
  {| content := bytes; pos := 0; rdstate := goodbit; exceptions := goodbit |}.

(** The same stream once [exceptions(failbit | badbit)] has run. *)
Definition reading_stream (bytes : list Byte.byte) : ifstream :=
  {| content := bytes; pos := 0; rdstate := goodbit;
     exceptions := {| eofbit := false; failbit := true; badbit := true |} |}.

(** The statements of the constructor after the file is open, on the
    host [h].  [size] is not initialised; it is taken to hold 0 before
    the [read], which fills it whole or throws. *)
Definition parse_in (h : host) : io (list Byte.byte * list STLPolygon) :=
  set_exceptions {| eofbit := false; failbit := true; badbit := true |} ;;
  got <- read 80 ;;
  let header := overlay (repeat Byte.x00 80) got in
  size <- read_scalar 0 ;;
  polygons <- resize h size ;;
  polygons <- read_polygons polygons ;;
  ret (header, polygons).

(** [STLReader::STLReader(path)] on the host [h]: what is written to
    [std::cerr], and the object constructed or the exception thrown. *)
Definition STLReader_ctor_in (h : host) (fs : filesystem) (path : string)
    : string * construction :=
  match fs path with
  | None =>
      (open_error path,
       Object {| header_ := []; polygons_ := []; valid := false |})
  | Some bytes =>
      let stlfile := open_stream bytes in
      match parse_in h stlfile with
      | Ok (header, polygons) _ =>
          (EmptyString,
           Object {| header_ := header; polygons_ := polygons;
                     valid := true |})
      | Throw e => (EmptyString, Exception e)
      end
  end.

(** The constructor where [resize] obtains its storage. *)
Definition parse : io (list Byte.byte * list STLPolygon) := parse_in ample.

Definition STLReader_ctor (fs : filesystem) (path : string)
    : string * construction :=
  STLReader_ctor_in ample fs path.

Definition operator_bool (r : STLReader) : bool := valid r.
Definition header (r : STLReader) : list Byte.byte := header_ r.
Definition polygons (r : STLReader) : list STLPolygon := polygons_ r.

Module internal.

(** [-(a*x1 + b*y1 + c*z1 + d) / (a*(x2-x1) + b*(y2-y1) + c*(z2-z1))] *)
Definition segment_plane_intersection
    (segment : STLSegment) (a b c d : float) : float :=
  let '(Build_STLVector x1 y1 z1) := p segment in
  let '(Build_STLVector x2 y2 z2) := q segment in
  (- (a * x1 + b * y1 + c * z1 + d)
     / (a * (x2 - x1) + b * (y2 - y1) + c * (z2 - z1)))%f32.

Definition point_on_line (segment : STLSegment) (t : float) : STLVector :=
  let '(Build_STLVector x1 y1 z1) := p segment in
  let '(Build_STLVector x2 y2 z2) := q segment in
  {| x := ((of_int 1 - t) * x1 + t * x2)%f32;
     y := ((of_int 1 - t) * y1 + t * y2)%f32;
     z := ((of_int 1 - t) * z1 + t * z2)%f32 |}.

End internal.

(** One iteration of the [for] loop of [slice_polygons_at]: the body run
    on one polygon, with [res] the vector built so far. *)
Definition slice_body (a b c d : float)
    (res : list STLSegment) (polygon : STLPolygon) : list STLSegment :=
  let '(Build_STLPolygon ignore p q r) := polygon in
  let s := internal.segment_plane_intersection {| p := p; q := q |} a b c d in
  let t := internal.segment_plane_intersection {| p := q; q := r |} a b c d in
  let u := internal.segment_plane_intersection {| p := r; q := p |} a b c d in
  if (of_int 0 <=? s)%f32 && (s <? of_int 1)%f32
     && (of_int 0 <=? t)%f32 && (t <? of_int 1)%f32 then
    let alpha := internal.point_on_line {| p := p; q := q |} s in
    let beta := internal.point_on_line {| p := q; q := r |} t in
    res ++ [ {| p := alpha; q := beta |} ]
  else if (of_int 0 <=? t)%f32 && (t <? of_int 1)%f32
          && (of_int 0 <=? u)%f32 && (u <? of_int 1)%f32 then
    let alpha := internal.point_on_line {| p := q; q := r |} t in
    let beta := internal.point_on_line {| p := r; q := p |} u in
    res ++ [ {| p := alpha; q := beta |} ]
  else if (of_int 0 <=? u)%f32 && (u <? of_int 1)%f32
          && (of_int 0 <=? s)%f32 && (s <? of_int 1)%f32 then
    let alpha := internal.point_on_line {| p := r; q := p |} u in
    let beta := internal.point_on_line {| p := p; q := q |} s in
    res ++ [ {| p := alpha; q := beta |} ]
  else res.

Definition slice_polygons_at
    (polygons : list STLPolygon) (a b c d : float) : list STLSegment :=
  fold_left (slice_body a b c d) polygons [].

Definition slice_polygons_at_x (polygons : list STLPolygon) (x : float) :=
  slice_polygons_at polygons (of_int 1) (of_int 0) (of_int 0) (- x)%f32.

Definition slice_polygons_at_y (polygons : list STLPolygon) (y : float) :=
  slice_polygons_at polygons (of_int 0) (of_int 1) (of_int 0) (- y)%f32.

Definition slice_polygons_at_z (polygons : list STLPolygon) (z : float) :=
  slice_polygons_at polygons (of_int 0) (of_int 0) (of_int 1) (- z)%f32.

End stlutil.

Import stlutil.

(** ** The slicing algorithm as the specification words it *)

Module PlaneSlicer.

(** The plane expression [a*x + b*y + c*z + d] at a point. *)
Definition plane_value (v : STLVector) (a b c d : float) : float :=
  (a * x v + b * y v + c * z v + d)%f32.

(** The denominator [a*(x2-x1) + b*(y2-y1) + c*(z2-z1)] of an edge. *)
Definition plane_denominator (e : STLSegment) (a b c : float) : float :=
  (a * (x (q e) - x (p e)) + b * (y (q e) - y (p e))
     + c * (z (q e) - z (p e)))%f32.

(** The parametric value [t] of an edge. *)
Definition edge_parameter (e : STLSegment) (a b c d : float) : float :=
  (- plane_value (p e) a b c d / plane_denominator e a b c)%f32.

(** [t] lies in the half-open interval [0, 1). *)
Definition crosses (t : float) : bool :=
  (of_int 0 <=? t)%f32 && (t <? of_int 1)%f32.

(** [(1 - t) * start + t * end], coordinate by coordinate. *)
Definition interpolate (e : STLSegment) (t : float) : STLVector :=
  {| x := ((of_int 1 - t) * x (p e) + t * x (q e))%f32;
     y := ((of_int 1 - t) * y (p e) + t * y (q e))%f32;
     z := ((of_int 1 - t) * z (p e) + t * z (q e))%f32 |}.

(** The vertices p, q, r of a triangle, numbered 0, 1, 2, and the edge
    that leaves each one: p->q, q->r, r->p. *)
Definition vertex (t : STLPolygon) (i : nat) : STLVector :=
  match i with
  | O => a t
  | S O => b t
  | _ => c t
  end.

Definition edge (t : STLPolygon) (i : nat) : STLSegment :=
  {| p := vertex t i; q := vertex t (S i mod 3) |}.

(** The pairs of edges in the order they are tested. *)
Definition edge_pairs (t : STLPolygon) : list (STLSegment * STLSegment) :=
  [ (edge t 0, edge t 1); (edge t 1, edge t 2); (edge t 2, edge t 0) ].

Definition both_cross (a b c d : float) (pr : STLSegment * STLSegment) : bool :=
  crosses (edge_parameter (fst pr) a b c d)
  && crosses (edge_parameter (snd pr) a b c d).

(** The segment of one triangle: the first pair whose edges both cross,
    interpolated on each edge; nothing when there is no such pair. *)
Definition triangle_segments (a b c d : float) (t : STLPolygon)
    : list STLSegment :=
  match find (both_cross a b c d) (edge_pairs t) with
  | Some (e1, e2) =>
      [ {| p := interpolate e1 (edge_parameter e1 a b c d);
           q := interpolate e2 (edge_parameter e2 a b c d) |} ]
  | None => []
  end.

Definition slice (triangles : list STLPolygon) (a b c d : float)
    : list STLSegment :=
  flat_map (triangle_segments a b c d) triangles.

Definition same_vertices (t t' : STLPolygon) : Prop :=
  a t = a t' /\ b t = b t' /\ c t = c t'.

(** The real number a finite float denotes, times 2^149: an integer,
    as the least exponent of the format is -149. *)
Definition exact (v : float) : option Z :=
  match to_spec v with
  | S754_zero _ => Some 0
  | S754_finite s m e => Some ((if s then -1 else 1) * Zpos m * 2 ^ (e + 149))
  | _ => None
  end.

Definition exact_mul (u v : option Z) : option Z :=
  match u, v with
  | Some m, Some n => Some (m * n)
  | _, _ => None
  end.

Definition exact_add (u v : option Z) : option Z :=
  match u, v with
  | Some m, Some n => Some (m + n)
  | _, _ => None
  end.

(** The plane expression [a*x + b*y + c*z + d] in exact arithmetic, times
    2^298: it is [Some 0] when the point lies in the plane. *)
Definition exact_plane_value (v : STLVector) (a b c d : float) : option Z :=
  exact_add
    (exact_add
       (exact_add (exact_mul (exact a) (exact (x v)))
                  (exact_mul (exact b) (exact (y v))))
       (exact_mul (exact c) (exact (z v))))
    (exact_mul (exact d) (Some (2 ^ 149))).

(** The three vertices of a triangle have equal coordinates along an
    axis ([x], [y] or [z]): the triangle lies in a plane perpendicular to
    that axis. *)
Definition level (coord : STLVector -> float) (t : STLPolygon) : Prop :=
  feq (coord (a t)) (coord (b t)) = true
  /\ feq (coord (b t)) (coord (c t)) = true
  /\ feq (coord (c t)) (coord (a t)) = true.

(** How many of the three edges cross. *)
Definition crossing_count (a b c d : float) (t : STLPolygon) : nat :=
  List.length
    (filter
       (fun i =>
          crosses (internal.segment_plane_intersection (edge t i) a b c d))
       [0; 1; 2]%nat).

(** Two points compare equal, coordinate by coordinate, with [==]. *)
Definition coincide (v w : STLVector) : Prop :=
  feq (x v) (x w) = true /\ feq (y v) (y w) = true
  /\ feq (z v) (z w) = true.

(** Some coordinate of the point, some coordinate of a vertex of the
    triangle, is a NaN. *)
Definition vector_has_nan (v : STLVector) : bool :=
  is_nan (x v) || is_nan (y v) || is_nan (z v).

Definition polygon_has_nan (t : STLPolygon) : bool :=
  vector_has_nan (a t) || vector_has_nan (b t) || vector_has_nan (c t).

(** Vectors whose coordinates are plain, or finite. *)
Definition plain_vector (v : STLVector) : Prop :=
  plain (x v) /\ plain (y v) /\ plain (z v).

Definition finite_vector (v : STLVector) : Prop :=
  is_finite (x v) = true /\ is_finite (y v) = true /\ is_finite (z v) = true.

End PlaneSlicer.

Import PlaneSlicer.

(** ** Rounding to binary32, on integers

    The vocabulary in which the arithmetic of [SpecFloat] is described:
    values in units of 2^-149, and rounding to nearest even as a
    function on integers. *)

Module Rounding.

(** A quotient with a sticky bit: twice the quotient of [T] by
    [2^(n+1)], plus one when the remainder is not zero. *)
Definition sticky (n T : Z) : Z :=
  2 * (T / 2 ^ (n + 1)) + (if T mod 2 ^ (n + 1) =? 0 then 0 else 1).

(** Rounding a code to nearest, ties to even. *)
Definition rne (T : Z) : Z :=
  if (T mod 4 =? 3) || ((T mod 4 =? 2) && Z.odd (T / 4))
  then T / 4 + 1 else T / 4.

(** The code of a shift record: four times the mantissa, plus the
    rounding bit and the sticky bit. *)
Definition code (r : shr_record) : Z :=
  4 * shr_m r + 2 * Z.b2z (shr_r r) + Z.b2z (shr_s r).

Definition loc_code (l : location) : Z :=
  match l with
  | loc_Exact => 0
  | loc_Inexact Lt => 1
  | loc_Inexact Eq => 2
  | loc_Inexact Gt => 3
  end.

(** The float of mantissa [q] at exponent [E]: a mantissa of 2^24 moves
    to the next exponent, and an exponent beyond the largest gives an
    infinity. *)
Definition encode (s : bool) (q E : Z) : spec_float :=
  match q with
  | Z0 => S754_zero s
  | Zpos p =>
      if q <? 2 ^ 24 then
        if E <=? 104 then S754_finite s p E else S754_infinity s
      else
        if E + 1 <=? 104 then S754_finite s 8388608 (E + 1)
        else S754_infinity s
  | Zneg _ => S754_nan
  end.

(** A mantissa in the format at exponent [E]. *)
Definition fits (q E : Z) : Prop :=
  0 <= q <= 2 ^ 24 /\ -149 <= E /\ (E = -149 \/ 2 ^ 23 <= q).

(** The value that stands for an infinity: every finite float is below
    2^277 units of 2^-149. *)
Definition INF : Z := 2 ^ 277.

(** The value of a float in units of 2^-149. *)
Definition xval (x : spec_float) : Z :=
  match x with
  | S754_zero _ => 0
  | S754_finite s m e => cond_Zopp s (Zpos m * 2 ^ (e + 149))
  | S754_infinity s => cond_Zopp s INF
  | S754_nan => 0
  end.

Definition SF_finite (x : spec_float) : bool :=
  match x with
  | S754_zero _ | S754_finite _ _ _ => true
  | _ => false
  end.

Definition SF_nan (x : spec_float) : bool :=
  match x with S754_nan => true | _ => false end.

(** Rounding an integer number [N >= 0] of units of 2^-149 to the
    format: the bits to drop, the rounded mantissa, the rounded value. *)
Definition dropped_bits (N : Z) : Z := Z.max (Zdigits2 N - 24) 0.
Definition round_mantissa (N : Z) : Z := rne (sticky (dropped_bits N) (4 * N)).
Definition round_units (N : Z) : Z := round_mantissa N * 2 ^ dropped_bits N.

(** Rounding a signed number of units, overflow going to the value of
    the infinities. *)
Definition rnd (N : Z) : Z :=
  if N <? 0 then - Z.min (round_units (- N)) INF else Z.min (round_units N) INF.

(** A float of the format, not a NaN, of value [V]. *)
Definition has_value (r : spec_float) (V : Z) : Prop :=
  valid_binary prec emax r = true /\ SF_nan r = false /\ xval r = V.

(** The test [0 <= t && t < 1] on a value. *)
Definition in_unit (r : spec_float) : bool :=
  SFleb (S754_zero false) r && SFltb r SF_one.

(** The value of a bit pattern. *)
Definition fval (v : float) : Z := xval (to_spec v).

End Rounding.

Import Rounding.

(** ** Planes perpendicular to an axis *)

Module AxisPlanes.

(** The three axes and the planes perpendicular to them. *)
Inductive axis := x_axis | y_axis | z_axis.

Definition coordinate (k : axis) (v : STLVector) : float :=
  match k with x_axis => x v | y_axis => y v | z_axis => z v end.

Definition axis_a (k : axis) : float :=
  match k with x_axis => of_int 1 | _ => of_int 0 end.
Definition axis_b (k : axis) : float :=
  match k with y_axis => of_int 1 | _ => of_int 0 end.
Definition axis_c (k : axis) : float :=
  match k with z_axis => of_int 1 | _ => of_int 0 end.

Definition slice_along (k : axis) (ts : list STLPolygon) (h : float)
    : list STLSegment :=
  match k with
  | x_axis => slice_polygons_at_x ts h
  | y_axis => slice_polygons_at_y ts h
  | z_axis => slice_polygons_at_z ts h
  end.

(** The parameter the slice at coordinate [h] computes for an edge. *)
Definition axis_parameter (k : axis) (h : float) (e : STLSegment) : float :=
  internal.segment_plane_intersection e
    (axis_a k) (axis_b k) (axis_c k) (- h)%f32.

(** The coordinate of a point along the axis, as a value. *)
Definition along (k : axis) (v : STLVector) : Z := fval (coordinate k v).

(** No coordinate difference along the edge overflows. *)
Definition span_finite (e : STLSegment) : Prop :=
  is_finite (x (q e) - x (p e))%f32 = true
  /\ is_finite (y (q e) - y (p e))%f32 = true
  /\ is_finite (z (q e) - z (p e))%f32 = true.

End AxisPlanes.

Import AxisPlanes.

(** ** The binary layout as the specification words it *)

Module MeshParser.

(** A little-endian float32 at an offset of the byte source. *)
Definition float_at (bytes : list Byte.byte) (off : nat) : float :=
  le_decode (firstn 4 (skipn off bytes)).

Definition vector_at (bytes : list Byte.byte) (off : nat) : STLVector :=
  {| x := float_at bytes off;
     y := float_at bytes (off + 4);
     z := float_at bytes (off + 8) |}.

(** A 50-byte record: normal at 0, vertex a at 12, b at 24, c at 36; the
    attribute field at 48 is not decoded. *)
Definition polygon_at (bytes : list Byte.byte) (off : nat) : STLPolygon :=
  {| normal := vector_at bytes off;
     a := vector_at bytes (off + 12);
     b := vector_at bytes (off + 24);
     c := vector_at bytes (off + 36) |}.

(** The count N: unsigned 32-bit little-endian at offset 80. *)
Definition declared_count (bytes : list Byte.byte) : nat :=
  Z.to_nat (le_decode (firstn 4 (skipn 80 bytes))).

(** The N records, in file order, from offset 84. *)
Definition records (bytes : list Byte.byte) : list STLPolygon :=
  map (fun i => polygon_at bytes (84 + 50 * i))
      (seq 0 (declared_count bytes)).

(** Modelled from the spec: the repository has no serializer; this is
    the writer of the layout of the specification (header, count, then
    per triangle twelve little-endian float32 and a 2-byte attribute
    field), used to state the round trip. *)
Definition encode_vector (v : STLVector) : list Byte.byte :=
  le_encode 4 (x v) ++ le_encode 4 (y v) ++ le_encode 4 (z v).

Definition encode_record (r : STLPolygon * Z) : list Byte.byte :=
  encode_vector (normal (fst r)) ++ encode_vector (a (fst r))
    ++ encode_vector (b (fst r)) ++ encode_vector (c (fst r))
    ++ le_encode 2 (snd r).

Definition serialize (header : list Byte.byte)
    (triangles : list (STLPolygon * Z)) : list Byte.byte :=
  header ++ le_encode 4 (Z.of_nat (List.length triangles))
    ++ flat_map encode_record triangles.

Definition wf_vector (v : STLVector) : Prop :=
  wf (x v) /\ wf (y v) /\ wf (z v).

Definition wf_polygon (t : STLPolygon) : Prop :=
  wf_vector (normal t) /\ wf_vector (a t) /\ wf_vector (b t)
  /\ wf_vector (c t).

(** The attribute field of the record at an offset, and the attribute
    fields of the N records: what the reader skips. *)
Definition attribute_at (bytes : list Byte.byte) (off : nat) : Z :=
  le_decode (firstn 2 (skipn (off + 48) bytes)).

Definition attributes (bytes : list Byte.byte) : list Z :=
  map (fun i => attribute_at bytes (84 + 50 * i))
      (seq 0 (declared_count bytes)).

(** A file system with one file. *)
Definition single_file (name : string) (bytes : list Byte.byte)
    : filesystem :=
  fun path => if String.eqb path name then Some bytes else None.

End MeshParser.

Import MeshParser.

(** ** Concrete inputs *)

Module Examples.

(** Bit patterns of a few floats. *)
Definition f_zero : float := 0x00000000.       (* +0.0 *)
Definition f_one : float := 0x3F800000.        (* 1.0 *)
Definition f_minus_one : float := 0xBF800000.  (* -1.0 *)
Definition f_half : float := 0x3F000000.       (* 0.5 *)
Definition f_two : float := 0x40000000.        (* 2.0 *)
Definition f_tiny : float := 0x0D800000.       (* 2^-100 *)
Definition f_huge : float := 0x71800000.       (* 2^100 *)
Definition f_minus_small : float := 0xB0800000. (* -2^-30 *)
Definition f_nan : float := 0x7FC00000.
Definition f_inf : float := 0x7F800000.

Definition vec (vx vy vz : float) : STLVector :=
  {| x := vx; y := vy; z := vz |}.

Definition tri (vp vq vr : STLVector) : STLPolygon :=
  {| normal := zero_vector; a := vp; b := vq; c := vr |}.

(** p on the plane z = 0, q at height 1, r at height -1. *)
Definition straddling : STLPolygon :=
  tri (vec f_zero f_zero f_zero) (vec f_one f_zero f_one)
      (vec f_zero f_one f_minus_one).

(** p on the plane z = 0, q at height 1, r at height -2^-30. *)
Definition nearly_touching : STLPolygon :=
  tri (vec f_zero f_zero f_zero) (vec f_one f_zero f_one)
      (vec f_zero f_one f_minus_small).

(** p on the plane z = 0, q at height 2^-100, r at height 2^100. *)
Definition far_apart : STLPolygon :=
  tri (vec f_zero f_zero f_zero) (vec f_one f_zero f_tiny)
      (vec f_zero f_one f_huge).

(** p on the plane z = 0 with x = -0.0, q at height -1, r at height 1. *)
Definition with_negative_zero : STLPolygon :=
  tri (vec neg_zero f_zero f_zero) (vec f_one f_zero f_minus_one)
      (vec f_zero f_one f_one).

(** p on the plane z = 0, q at height 1, r at height 2. *)
Definition touching : STLPolygon :=
  tri (vec f_zero f_zero f_zero) (vec f_one f_zero f_one)
      (vec f_zero f_one f_two).

(** p on the plane z = 0, q at height 1 and r at height -1, with q and r
    at the two ends of the y axis: y = 2^127 * (2 - 2^-23) and its
    opposite. *)
Definition f_max : float := 0x7F7FFFFF.
Definition f_minus_max : float := 0xFF7FFFFF.
Definition wide : STLPolygon :=
  tri (vec f_zero f_zero f_zero) (vec f_zero f_max f_one)
      (vec f_zero f_minus_max f_minus_one).

(** p = (1, 1, 0) on the plane x - y = 0, q = (2, 0, 0) and
    r = (1.5 * 2^-24, 0, 0) on the side x > y. *)
Definition f_speck : float := 0x33C00000.
Definition leaning : STLPolygon :=
  tri (vec f_one f_one f_zero) (vec f_two f_zero f_zero)
      (vec f_speck f_zero f_zero).

(** A triangle in the plane a*x - y - z = 0 with a = 1 + 2^-23:
    p = (1, 1.5 + 3*2^-23, -(0.5 + 2^-22)), q = (-2, -(2 + 2^-22), 0),
    r = (1, 1.5 - 2^-22, -(0.5 - 3*2^-23)). *)
Definition f_slope : float := 0x3F800001.      (* 1 + 2^-23 *)

Definition oblique : STLPolygon :=
  tri (vec 0x3F800000 0x3FC00003 0xBF000004)
      (vec 0xC0000000 0xC0000001 0x00000000)
      (vec 0x3F800000 0x3FBFFFFE 0xBEFFFFF4).

(** The three vertices at z = 0. *)
Definition flat : STLPolygon :=
  tri (vec f_zero f_zero f_zero) (vec f_one f_zero f_zero)
      (vec f_zero f_one f_zero).

(** The three vertices at x = 1 and y = 0.5: a needle. *)
Definition upright : STLPolygon :=
  tri (vec f_one f_half f_zero) (vec f_one f_half f_one)
      (vec f_one f_half f_two).

(** The three vertices at the same point. *)
Definition point_like : STLPolygon :=
  tri (vec f_one f_half f_zero) (vec f_one f_half neg_zero)
      (vec f_one f_half f_zero).

(** A triangle of NaNs and infinities. *)
Definition wild : STLPolygon :=
  tri (vec f_nan f_inf f_zero) (vec f_inf f_nan f_one)
      (vec f_zero f_zero f_nan).

Definition file_name : string := "mesh.stl".

Definition header80 : list Byte.byte := repeat Byte.x20 80.

(** Header, count 1, and the 48 float bytes of the record: the two
    attribute bytes are missing. *)
Definition without_attribute : list Byte.byte :=
  header80 ++ le_encode 4 1 ++ firstn 48 (encode_record (straddling, 0)).

(** Header, count 2, one record and 47 bytes of the second. *)
Definition cut_in_record : list Byte.byte :=
  header80 ++ le_encode 4 2 ++ encode_record (straddling, 0)
    ++ firstn 47 (encode_record (flat, 0)).

(** Header and a count of 2^32 - 1, nothing else: 84 bytes. *)
Definition greedy : list Byte.byte := header80 ++ le_encode 4 0xFFFFFFFF.

(** A 64-bit host whose allocator provides up to 2^24 polygons
    (768 MiB). *)
Definition modest : host :=
  {| max_size := 192153584101141162; allocates := fun n => n <=? 2 ^ 24 |}.

(** A 32-bit host: [max_size()] is (2^31 - 1) / 48. *)
Definition narrow : host :=
  {| max_size := 44739242; allocates := fun n => n <=? 2 ^ 20 |}.

(** Another header, and bytes to put behind a file. *)
Definition header_A : list Byte.byte := repeat Byte.x41 80.

Definition trailer : list Byte.byte := [Byte.xff; Byte.x00; Byte.x41].

Definition two_triangles : list (STLPolygon * Z) :=
  [ (straddling, 0); (with_negative_zero, 0xFFFF) ].

End Examples.

(** ** Facts about binary32 *)

Section Binary32Facts.

Lemma digits2_pos_size (m : positive) : digits2_pos m = Pos.size m.
Proof. induction m; simpl; congruence. Qed.

Lemma size_bounds (m : positive) (k : Z) :
  0 <= k -> 2 ^ k <= Zpos m < 2 ^ (k + 1) -> Zpos (Pos.size m) = k + 1.
Proof.
  intros Hk [Hlo Hhi].
  pose proof (Pos.size_gt m) as Hgt.
  pose proof (Pos.size_le m) as Hle.
  apply Pos2Z.pos_lt_pos in Hgt. apply Pos2Z.pos_le_pos in Hle.
  rewrite Pos2Z.inj_pow in Hgt, Hle.
  change (Zpos 2) with 2 in *.
  set (d := Zpos (Pos.size m)) in *.
  assert (0 < d) by (subst d; lia).
  destruct (Z.lt_trichotomy d (k + 1)) as [Hlt | [Heq | Hgt']]; auto.
  - assert (2 ^ d <= 2 ^ k) by (apply Z.pow_le_mono_r; lia). lia.
  - assert (2 ^ (k + 2) <= 2 ^ d) by (apply Z.pow_le_mono_r; lia).
    assert (2 ^ (k + 2) = 2 * 2 ^ (k + 1)).
    { replace (k + 2) with (Z.succ (k + 1)) by lia.
      apply Z.pow_succ_r; lia. }
    lia.
Qed.

Lemma size_upper (m : positive) (k : Z) :
  0 <= k -> Zpos m < 2 ^ k -> Zpos (Pos.size m) <= k.
Proof.
  intros Hk Hhi.
  pose proof (Pos.size_le m) as Hle.
  apply Pos2Z.pos_le_pos in Hle.
  rewrite Pos2Z.inj_pow in Hle.
  change (Zpos 2) with 2 in *.
  set (d := Zpos (Pos.size m)) in *.
  destruct (Z_le_gt_dec d k) as [?|Hgt]; auto.
  assert (2 ^ (k + 1) <= 2 ^ d) by (apply Z.pow_le_mono_r; lia).
  assert (2 ^ (k + 1) = 2 * 2 ^ k).
  { replace (k + 1) with (Z.succ k) by lia. apply Z.pow_succ_r; lia. }
  lia.
Qed.

(** Every bit pattern denotes a float in the format. *)
Lemma to_spec_valid (x : float) : valid_binary prec emax (to_spec x) = true.
Proof.
  unfold to_spec.
  assert (Hf : 0 <= fraction x < 2 ^ 23) by (apply Z.mod_pos_bound; lia).
  assert (He : 0 <= biased_exp x < 2 ^ 8) by (apply Z.mod_pos_bound; lia).
  destruct (biased_exp x =? 0) eqn:E0.
  - destruct (fraction x) as [|m|m] eqn:Ef; try reflexivity.
    cbn [valid_binary]. unfold bounded, canonical_mantissa.
    rewrite digits2_pos_size.
    pose proof (size_upper m 23 ltac:(lia) ltac:(lia)) as Hs.
    unfold fexp, SpecFloat.emin, prec, emax.
    apply andb_true_intro; split; [apply Z.eqb_eq | apply Z.leb_le]; lia.
  - destruct (biased_exp x =? 255) eqn:E255.
    + destruct (fraction x =? 0); reflexivity.
    + apply Z.eqb_neq in E0, E255.
      destruct (fraction x + 2 ^ 23) as [|m|m] eqn:Ef; try reflexivity.
      cbn [valid_binary]. unfold bounded, canonical_mantissa.
      rewrite digits2_pos_size.
      pose proof (size_bounds m 23 ltac:(lia)) as Hs.
      replace (23 + 1) with 24 in Hs by lia.
      rewrite Hs by lia.
      unfold fexp, SpecFloat.emin, prec, emax.
      apply andb_true_intro; split; [apply Z.eqb_eq | apply Z.leb_le]; lia.
Qed.

Lemma bits_decompose (x : float) :
  wf x ->
  x = sign_word (sign_bit x) + biased_exp x * 2 ^ 23 + fraction x.
Proof.
  unfold wf, sign_word, sign_bit, biased_exp, fraction. intros Hx.
  rewrite (Z.mod_small x (2 ^ 32)) by lia.
  destruct (2 ^ 31 <=? x) eqn:Hs;
    [apply Z.leb_le in Hs | apply Z.leb_gt in Hs];
    Z.div_mod_to_equations; lia.
Qed.

(** Decoding loses nothing but the payload of a NaN. *)
Lemma of_to_spec (x : float) :
  wf x -> is_nan x = false -> of_spec (to_spec x) = x.
Proof.
  intros Hx Hn. pose proof (bits_decompose x Hx) as Hd.
  unfold is_nan in Hn. revert Hn. unfold to_spec.
  assert (Hf : 0 <= fraction x < 2 ^ 23) by (apply Z.mod_pos_bound; lia).
  destruct (biased_exp x =? 0) eqn:E0.
  - apply Z.eqb_eq in E0.
    destruct (fraction x) as [|m|m] eqn:Ef; intros _; unfold of_spec; try lia.
    destruct (Z.ltb_spec (Zpos m) (2 ^ 23)); lia.
  - destruct (biased_exp x =? 255) eqn:E255.
    + apply Z.eqb_eq in E255.
      destruct (fraction x =? 0) eqn:F0; [|discriminate].
      apply Z.eqb_eq in F0. intros _. unfold of_spec. lia.
    + destruct (fraction x + 2 ^ 23) as [|m|m] eqn:Ef; try discriminate.
      intros _. unfold of_spec.
      destruct (Z.ltb_spec (Zpos m) (2 ^ 23)); lia.
Qed.

Lemma to_spec_one : to_spec (of_int 1) = SF_one.
Proof. vm_compute. reflexivity. Qed.

Lemma to_spec_zero : to_spec (of_int 0) = S754_zero false.
Proof. vm_compute. reflexivity. Qed.

Lemma of_spec_one : of_spec SF_one = of_int 1.
Proof. vm_compute. reflexivity. Qed.

(** Multiplying by 1.0f is exact. *)
Lemma SFmul_one_l (s : bool) (m : positive) (e : Z) :
  valid_binary prec emax (S754_finite s m e) = true ->
  SFmul prec emax SF_one (S754_finite s m e) = S754_finite s m e.
Proof.
  unfold valid_binary, bounded, canonical_mantissa. intros Hv.
  apply andb_prop in Hv. destruct Hv as [Hc Hb].
  apply Z.eqb_eq in Hc. apply Z.leb_le in Hb.
  unfold SF_one, SFmul, binary_round_aux.
  change (Pos.mul 8388608 m) with
    (m~0~0~0~0~0~0~0~0~0~0~0~0~0~0~0~0~0~0~0~0~0~0~0)%positive.
  unfold shr_fexp at 1.
  match goal with |- context [shr _ _ ?n] => replace n with 23 end.
  2:{ cbn [Zdigits2 digits2_pos].
      unfold fexp, SpecFloat.emin, prec, emax in *. lia. }
  cbn [shr shr_record_of_loc iter_pos shr_1 orb round_nearest_even shr_m
       loc_of_shr_record].
  replace (-23 + e + 23) with e by lia.
  unfold shr_fexp.
  cbn [Zdigits2]. rewrite Hc. rewrite Z.sub_diag.
  cbn [shr shr_record_of_loc shr_m xorb].
  destruct (Z.leb_spec e (emax - prec)); [reflexivity | lia].
Qed.

Lemma to_of_spec_zero (s : bool) : to_spec (of_spec (S754_zero s)) = S754_zero s.
Proof. destruct s; vm_compute; reflexivity. Qed.

Lemma to_of_spec_infinity (s : bool) :
  to_spec (of_spec (S754_infinity s)) = S754_infinity s.
Proof. destruct s; vm_compute; reflexivity. Qed.

Lemma to_of_spec_nan : to_spec (of_spec S754_nan) = S754_nan.
Proof. vm_compute. reflexivity. Qed.

Lemma to_spec_zero_inv (x : float) (s : bool) :
  to_spec x = S754_zero s -> sign_bit x = s /\ x mod 2 ^ 32 = sign_word s.
Proof.
  unfold to_spec.
  assert (Hf : 0 <= fraction x < 2 ^ 23) by (apply Z.mod_pos_bound; lia).
  destruct (biased_exp x =? 0) eqn:E0.
  - apply Z.eqb_eq in E0.
    destruct (fraction x) as [|m|m] eqn:Ef; try discriminate; try lia.
    intros [= Hs]. split; [exact Hs|].
    subst s. unfold sign_word, sign_bit, biased_exp, fraction in *.
    destruct (2 ^ 31 <=? x mod 2 ^ 32) eqn:Hs;
      [apply Z.leb_le in Hs | apply Z.leb_gt in Hs];
      Z.div_mod_to_equations; lia.
  - destruct (biased_exp x =? 255).
    + destruct (fraction x =? 0); discriminate.
    + destruct (fraction x + 2 ^ 23); discriminate.
Qed.

End Binary32Facts.

(** ** Facts about the slicer *)

Section SlicerFacts.

Variables a b c d : float.

Lemma segment_plane_intersection_eq (e : STLSegment) :
  internal.segment_plane_intersection e a b c d = edge_parameter e a b c d.
Proof. destruct e as [[x1 y1 z1] [x2 y2 z2]].
  unfold internal.segment_plane_intersection, edge_parameter, plane_value,
    plane_denominator.
  cbn [p q x y z]. reflexivity. Qed.

Lemma point_on_line_eq (e : STLSegment) (t : float) :
  internal.point_on_line e t = interpolate e t.
Proof. destruct e as [[x1 y1 z1] [x2 y2 z2]].
  unfold internal.point_on_line, interpolate.
  cbn [p q x y z]. reflexivity. Qed.

(** The body of the loop in terms of the three parameters. *)
Lemma slice_body_cases (res : list STLSegment) (t : STLPolygon) :
  slice_body a b c d res t =
  let s := edge_parameter (edge t 0) a b c d in
  let t' := edge_parameter (edge t 1) a b c d in
  let u := edge_parameter (edge t 2) a b c d in
  if crosses s && crosses t' then
    res ++ [ {| p := interpolate (edge t 0) s; q := interpolate (edge t 1) t' |} ]
  else if crosses t' && crosses u then
    res ++ [ {| p := interpolate (edge t 1) t'; q := interpolate (edge t 2) u |} ]
  else if crosses u && crosses s then
    res ++ [ {| p := interpolate (edge t 2) u; q := interpolate (edge t 0) s |} ]
  else res.
Proof.
  destruct t as [n vp vq vr]. unfold slice_body.
  rewrite !segment_plane_intersection_eq, !point_on_line_eq.
  unfold crosses, edge. cbn [vertex Nat.modulo Nat.divmod fst snd Nat.sub].
  rewrite <- !andb_assoc. reflexivity.
Qed.

Lemma slice_body_spec (res : list STLSegment) (t : STLPolygon) :
  slice_body a b c d res t = res ++ triangle_segments a b c d t.
Proof.
  rewrite slice_body_cases. unfold triangle_segments, edge_pairs, both_cross.
  cbn [find fst snd].
  destruct (crosses (edge_parameter (edge t 0) a b c d));
    destruct (crosses (edge_parameter (edge t 1) a b c d));
    destruct (crosses (edge_parameter (edge t 2) a b c d));
    cbn [andb]; rewrite ?app_nil_r; reflexivity.
Qed.

Lemma fold_slice_body (ts : list STLPolygon) (res : list STLSegment) :
  fold_left (slice_body a b c d) ts res = res ++ slice ts a b c d.
Proof.
  revert res. induction ts as [|t ts IH]; intros res.
  - cbn [fold_left slice flat_map]. now rewrite app_nil_r.
  - cbn [fold_left]. rewrite IH, slice_body_spec.
    unfold slice. cbn [flat_map]. now rewrite app_assoc.
Qed.

Lemma slice_polygons_at_slice (ts : list STLPolygon) :
  slice_polygons_at ts a b c d = slice ts a b c d.
Proof. unfold slice_polygons_at. now rewrite fold_slice_body. Qed.

Lemma triangle_segments_length (t : STLPolygon) :
  (List.length (triangle_segments a b c d t) <= 1)%nat.
Proof.
  unfold triangle_segments.
  destruct (find _ _) as [[e1 e2]|]; cbn [List.length]; lia.
Qed.

Lemma slice_length (ts : list STLPolygon) :
  (List.length (slice ts a b c d) <= List.length ts)%nat.
Proof.
  induction ts as [|t ts IH]; cbn [slice flat_map List.length]; [lia|].
  fold (slice ts a b c d).
  rewrite length_app. pose proof (triangle_segments_length t). lia.
Qed.

Lemma slice_app (ts ts' : list STLPolygon) :
  slice (ts ++ ts') a b c d = slice ts a b c d ++ slice ts' a b c d.
Proof. unfold slice. apply flat_map_app. Qed.

Lemma slice_single (t : STLPolygon) :
  slice [t] a b c d = triangle_segments a b c d t.
Proof. unfold slice. cbn [flat_map]. apply app_nil_r. Qed.

Lemma triangle_segments_normal (t t' : STLPolygon) :
  same_vertices t t' ->
  triangle_segments a b c d t = triangle_segments a b c d t'.
Proof.
  destruct t as [n vp vq vr], t' as [n' vp' vq' vr'].
  unfold same_vertices. cbn [stlutil.a stlutil.b stlutil.c].
  intros (-> & -> & ->).
  unfold triangle_segments, edge_pairs, edge.
  cbn [vertex stlutil.a stlutil.b stlutil.c Nat.modulo Nat.divmod fst snd Nat.sub].
  reflexivity.
Qed.

End SlicerFacts.

(** ** Zeros, NaNs and the half-open interval *)

Section Crossing.

Ltac spec_of x := let E := fresh "E" in destruct (to_spec x) eqn:E.

Lemma is_zero_spec (x : float) :
  is_zero x = true -> exists s, to_spec x = S754_zero s.
Proof. unfold is_zero. spec_of x; try discriminate. eauto. Qed.

Lemma crosses_spec (t : float) :
  crosses t =
  SFleb (S754_zero false) (to_spec t) && SFltb (to_spec t) SF_one.
Proof.
  unfold crosses, fle, flt. now rewrite to_spec_zero, to_spec_one.
Qed.

(** A zero of either sign lies in [0, 1). *)
Lemma crosses_zero (t : float) : is_zero t = true -> crosses t = true.
Proof.
  intros H. destruct (is_zero_spec t H) as [s Hs].
  rewrite crosses_spec, Hs. destruct s; reflexivity.
Qed.

(** NaN and the infinities do not. *)
Lemma crosses_nonfinite (t : float) :
  is_finite t = false -> crosses t = false.
Proof.
  unfold is_finite. rewrite crosses_spec.
  spec_of t; try discriminate; intros _.
  - destruct s; reflexivity.
  - reflexivity.
Qed.

(** Dividing by a zero or by a NaN gives an infinity or a NaN. *)
Lemma fdiv_degenerate (n m : float) :
  zero_or_nan m = true -> is_finite (n / m)%f32 = false.
Proof.
  unfold zero_or_nan, is_finite, fdiv.
  spec_of m; try discriminate; intros _; spec_of n; cbn [SFdiv];
    rewrite ?to_of_spec_nan, ?to_of_spec_infinity; reflexivity.
Qed.

Lemma crosses_degenerate (n m : float) :
  zero_or_nan m = true -> crosses (n / m)%f32 = false.
Proof. intros H. apply crosses_nonfinite, fdiv_degenerate, H. Qed.

Lemma is_zero_zero_or_nan (x : float) :
  is_zero x = true -> zero_or_nan x = true.
Proof. unfold is_zero, zero_or_nan. spec_of x; congruence. Qed.

Lemma fneg_zero (x : float) : is_zero x = true -> is_zero (- x)%f32 = true.
Proof.
  intros H. destruct (is_zero_spec x H) as [s Hs].
  destruct (to_spec_zero_inv x s Hs) as [Hb Hm].
  unfold fneg. rewrite Hb, Hm. destruct s; vm_compute; reflexivity.
Qed.

(** 0 / y is a zero when y is finite and not a zero. *)
Lemma fdiv_zero_l (n m : float) :
  is_zero n = true -> finite_nonzero m = true -> is_zero (n / m)%f32 = true.
Proof.
  intros Hn. destruct (is_zero_spec n Hn) as [s Hs].
  unfold finite_nonzero, is_zero, fdiv. rewrite Hs.
  spec_of m; try discriminate; intros _. cbn [SFdiv].
  now rewrite to_of_spec_zero.
Qed.

Lemma fmul_zero_l (x y : float) :
  is_zero x = true -> zero_or_nan (x * y)%f32 = true.
Proof.
  intros Hx. destruct (is_zero_spec x Hx) as [s Hs].
  unfold zero_or_nan, fmul. rewrite Hs.
  spec_of y; cbn [SFmul];
    rewrite ?to_of_spec_nan, ?to_of_spec_zero; reflexivity.
Qed.

Lemma fmul_zero_finite (x y : float) :
  is_zero x = true -> is_finite y = true -> is_zero (x * y)%f32 = true.
Proof.
  intros Hx. destruct (is_zero_spec x Hx) as [s Hs].
  unfold is_finite, is_zero, fmul. rewrite Hs.
  spec_of y; try discriminate; intros _; cbn [SFmul];
    now rewrite to_of_spec_zero.
Qed.

Lemma fmul_zero_r (x y : float) :
  is_finite x = true -> is_zero y = true -> is_zero (x * y)%f32 = true.
Proof.
  intros Hx Hy. destruct (is_zero_spec y Hy) as [s Hs]. revert Hx.
  unfold is_finite, is_zero, fmul. rewrite Hs.
  spec_of x; try discriminate; intros _; cbn [SFmul];
    now rewrite to_of_spec_zero.
Qed.

Lemma fsub_zero (x y : float) :
  is_zero x = true -> is_zero y = true -> is_zero (x - y)%f32 = true.
Proof.
  intros Hx Hy.
  destruct (is_zero_spec x Hx) as [s Hs], (is_zero_spec y Hy) as [s' Hs'].
  unfold is_zero, fsub. rewrite Hs, Hs'.
  destruct s, s'; reflexivity.
Qed.

Lemma fadd_zero_or_nan (x y : float) :
  zero_or_nan x = true -> zero_or_nan y = true ->
  zero_or_nan (x + y)%f32 = true.
Proof.
  unfold zero_or_nan, fadd.
  spec_of x; try discriminate; intros _;
    spec_of y; try discriminate; intros _;
    try reflexivity; destruct s; try destruct s0; reflexivity.
Qed.

End Crossing.

(** ** Interpolating at parameter zero *)

Section InterpolateAtZero.

Lemma is_finite_not_nan (x : float) : is_finite x = true -> is_nan x = false.
Proof. unfold is_finite, is_nan. destruct (to_spec x); congruence. Qed.

Lemma fsub_one_zero (t : float) :
  is_zero t = true -> (of_int 1 - t)%f32 = of_int 1.
Proof.
  intros H. destruct (is_zero_spec t H) as [s Hs].
  unfold fsub. rewrite Hs, to_spec_one. cbn [SFsub SF_one].
  apply of_spec_one.
Qed.

Lemma fmul_one_l (x : float) :
  wf x -> is_finite x = true -> (of_int 1 * x)%f32 = x.
Proof.
  intros Hw Hf. pose proof (to_spec_valid x) as Hv.
  pose proof (of_to_spec x Hw (is_finite_not_nan x Hf)) as Hr.
  unfold fmul. rewrite to_spec_one. unfold is_finite in Hf.
  destruct (to_spec x) as [s|s| |s m e] eqn:E; try discriminate.
  - cbn [SFmul SF_one xorb]. exact Hr.
  - rewrite SFmul_one_l by exact Hv. exact Hr.
Qed.

Lemma fadd_zero_r (x w : float) :
  plain x -> is_zero w = true -> (x + w)%f32 = x.
Proof.
  intros (Hw & Hf & Hnz) Hz. destruct (is_zero_spec w Hz) as [s' Hs'].
  pose proof (of_to_spec x Hw (is_finite_not_nan x Hf)) as Hr.
  unfold fadd. rewrite Hs'. unfold is_finite in Hf.
  destruct (to_spec x) as [s|s| |s m e] eqn:E; try discriminate.
  - destruct (to_spec_zero_inv x s E) as [_ Hm].
    unfold wf in Hw. rewrite Z.mod_small in Hm by lia.
    destruct s.
    + exfalso. apply Hnz. rewrite Hm. reflexivity.
    + rewrite Hm. destruct s'; reflexivity.
  - cbn [SFadd]. exact Hr.
Qed.

(** [(1 - t) * x1 + t * x2] is [x1], bit for bit, when [t] is a zero. *)
Lemma interpolate_coordinate_zero (t x1 x2 : float) :
  is_zero t = true -> plain x1 -> is_finite x2 = true ->
  ((of_int 1 - t) * x1 + t * x2)%f32 = x1.
Proof.
  intros Ht Hp Hf.
  rewrite fsub_one_zero by exact Ht.
  rewrite fmul_one_l by (destruct Hp as (? & ? & ?); assumption).
  apply fadd_zero_r; [exact Hp | now apply fmul_zero_finite].
Qed.

Lemma interpolate_zero (e : STLSegment) (t : float) :
  is_zero t = true -> plain_vector (p e) -> finite_vector (q e) ->
  interpolate e t = p e.
Proof.
  intros Ht (Hx & Hy & Hz) (Fx & Fy & Fz).
  unfold interpolate.
  rewrite !interpolate_coordinate_zero by assumption.
  destruct e as [[x1 y1 z1] v2]. reflexivity.
Qed.

End InterpolateAtZero.

(** ** Facts about the stream *)

Section StreamFacts.

Lemma armed_seek (n : nat) (s : ifstream) : armed s -> armed (seek n s).
Proof. unfold armed, good. destruct s; cbn. tauto. Qed.

Lemma available_seek (n : nat) (s : ifstream) :
  available (seek (pos s + n) s) = (available s - n)%nat.
Proof. unfold available. destruct s; cbn. lia. Qed.

Lemma content_seek (n : nat) (s : ifstream) : content (seek n s) = content s.
Proof. reflexivity. Qed.

Lemma pos_seek (n : nat) (s : ifstream) : pos (seek n s) = n.
Proof. reflexivity. Qed.

Ltac flags s :=
  destruct s as [? ? [[] [] []] [[] [] []]];
  unfold armed, good, state_meets in *; cbn in *; intuition congruence.

Lemma read_ok (n : nat) (s : ifstream) :
  good s = true -> (n <= available s)%nat ->
  read n s = Ok (firstn n (skipn (pos s) (content s))) (seek (pos s + n) s).
Proof.
  intros Hg Ha. unfold read. rewrite Hg.
  destruct (Nat.leb_spec n (available s)); [reflexivity | lia].
Qed.

Lemma read_short (n : nat) (s : ifstream) :
  armed s -> (available s < n)%nat -> read n s = Throw ios_failure.
Proof.
  intros Ha Hn. pose proof Ha as (Hg & _). unfold read. rewrite Hg.
  destruct (Nat.leb_spec n (available s)); [lia|].
  unfold bind, setstate. flags s.
Qed.

(** On a stream that is not good every [read] throws. *)
Lemma read_bad (n : nat) (s : ifstream) :
  good s = false -> failbit (exceptions s) = true ->
  read n s = Throw ios_failure.
Proof.
  intros Hg Hf. unfold read. rewrite Hg. unfold bind, setstate. flags s.
Qed.

Lemma ignore_ok (n : nat) (s : ifstream) :
  good s = true -> (n <= available s)%nat ->
  ignore n s = Ok tt (seek (pos s + n) s).
Proof.
  intros Hg Ha. unfold ignore. rewrite Hg.
  destruct (Nat.leb_spec n (available s)); [reflexivity | lia].
Qed.

(** [ignore] at the end of the file does not throw: it leaves a stream
    that is no longer good. *)
Lemma ignore_short (n : nat) (s : ifstream) :
  armed s -> (available s < n)%nat ->
  exists s', ignore n s = Ok tt s' /\ good s' = false
             /\ failbit (exceptions s') = true.
Proof.
  intros Ha Hn. pose proof Ha as (Hg & Hf & He). unfold ignore. rewrite Hg.
  destruct (Nat.leb_spec n (available s)); [lia|].
  destruct s as [cont ps st [me mf mb]]. cbn in Hf, He. subst me mf.
  unfold good, state_meets in Hg.
  destruct st as [[] [] []]; cbn in Hg; try discriminate.
  unfold setstate, state_meets, state_or. cbn.
  eexists. split; [reflexivity|]. split; reflexivity.
Qed.

End StreamFacts.

(** ** Facts about the reader *)

Section ReaderFacts.

Lemma le_encode_length (n : nat) (v : Z) : List.length (le_encode n v) = n.
Proof. revert v. induction n; intros v; cbn; auto. Qed.

Lemma overlay_full (old got : list Byte.byte) :
  List.length got = List.length old -> overlay old got = got.
Proof.
  intros H. unfold overlay. rewrite skipn_all2 by lia. apply app_nil_r.
Qed.

Ltac leb_cases :=
  repeat match goal with
         | |- context [(?n <=? ?m)%nat] => destruct (Nat.leb_spec n m)
         end.

Lemma read_scalar_spec (old : Z) (s : ifstream) :
  armed s ->
  read_scalar old s =
  if (4 <=? available s)%nat
  then Ok (float_at (content s) (pos s)) (seek (pos s + 4) s)
  else Throw ios_failure.
Proof.
  intros Ha. unfold read_scalar, bind. leb_cases.
  - rewrite read_ok by (try apply Ha; lia).
    unfold ret, float_at. rewrite overlay_full; [reflexivity|].
    rewrite length_firstn, length_skipn, le_encode_length.
    unfold available in *. lia.
  - rewrite read_short by (auto; lia). reflexivity.
Qed.

Lemma read_scalar_bad (old : Z) (s : ifstream) :
  good s = false -> failbit (exceptions s) = true ->
  read_scalar old s = Throw ios_failure.
Proof. intros. unfold read_scalar, bind. now rewrite read_bad. Qed.

Lemma seek_add (n m : nat) (s : ifstream) :
  seek (pos (seek (pos s + n) s) + m) (seek (pos s + n) s)
  = seek (pos s + (n + m)) s.
Proof. unfold seek. cbn. f_equal. lia. Qed.

Lemma read_vector_spec (v : STLVector) (s : ifstream) :
  armed s ->
  read_vector v s =
  if (12 <=? available s)%nat
  then Ok (vector_at (content s) (pos s)) (seek (pos s + 12) s)
  else Throw ios_failure.
Proof.
  intros Ha. unfold read_vector, bind.
  rewrite read_scalar_spec by exact Ha.
  destruct (Nat.leb_spec 4 (available s)); [|leb_cases; [lia|reflexivity]].
  rewrite read_scalar_spec by (apply armed_seek, Ha).
  rewrite available_seek, seek_add, content_seek, pos_seek.
  destruct (Nat.leb_spec 4 (available s - 4));
    [|leb_cases; [lia|reflexivity]].
  rewrite read_scalar_spec by (apply armed_seek, Ha).
  rewrite available_seek, seek_add, content_seek, pos_seek.
  leb_cases; try lia; reflexivity.
Qed.

Lemma read_vector_bad (v : STLVector) (s : ifstream) :
  good s = false -> failbit (exceptions s) = true ->
  read_vector v s = Throw ios_failure.
Proof. intros. unfold read_vector, bind. now rewrite read_scalar_bad. Qed.

(** One record: with 50 bytes left it is read whole; with 48 or 49 the
    twelve floats are read and [ignore] runs into the end of the file
    without throwing; with fewer a [read] throws. *)
Lemma read_polygon_spec (t : STLPolygon) (s : ifstream) :
  armed s ->
  if (50 <=? available s)%nat then
    read_polygon t s
    = Ok (polygon_at (content s) (pos s)) (seek (pos s + 50) s)
  else if (48 <=? available s)%nat then
    exists s', read_polygon t s = Ok (polygon_at (content s) (pos s)) s'
               /\ good s' = false /\ failbit (exceptions s') = true
  else read_polygon t s = Throw ios_failure.
Proof.
  intros Ha.
  assert (Hv : forall v n, (n + 12 <= available s)%nat ->
            read_vector v (seek (pos s + n) s)
            = Ok (vector_at (content s) (pos s + n))
                 (seek (pos s + (n + 12)) s)).
  { intros v n Hn. rewrite read_vector_spec by (apply armed_seek, Ha).
    rewrite available_seek, seek_add, content_seek, pos_seek.
    destruct (Nat.leb_spec 12 (available s - n)); [reflexivity | lia]. }
  assert (Hs : seek (pos s + 0) s = s).
  { destruct s. unfold seek. cbn. f_equal. lia. }
  assert (Hthrow : (available s < 48)%nat ->
            read_polygon t s = Throw ios_failure).
  { intros Hlt. unfold read_polygon, bind.
    rewrite read_vector_spec by exact Ha.
    destruct (Nat.leb_spec 12 (available s)); [|reflexivity].
    rewrite read_vector_spec by (apply armed_seek, Ha).
    rewrite available_seek, seek_add.
    destruct (Nat.leb_spec 12 (available s - 12)); [|reflexivity].
    rewrite read_vector_spec by (apply armed_seek, Ha).
    rewrite available_seek, seek_add.
    destruct (Nat.leb_spec 12 (available s - (12 + 12))); [|reflexivity].
    rewrite read_vector_spec by (apply armed_seek, Ha).
    rewrite available_seek, seek_add.
    destruct (Nat.leb_spec 12 (available s - (12 + 12 + 12)));
      [lia|reflexivity]. }
  assert (Hfloats : (48 <= available s)%nat ->
            read_polygon t s
            = match ignore 2 (seek (pos s + 48) s) with
              | Ok _ s' => Ok (polygon_at (content s) (pos s)) s'
              | Throw e => Throw e
              end).
  { intros Hge. unfold read_polygon, bind.
    rewrite <- Hs at 1. rewrite (Hv _ 0%nat) by lia.
    rewrite (Hv _ 12%nat) by lia.
    rewrite (Hv _ 24%nat) by lia.
    rewrite (Hv _ 36%nat) by lia.
    cbn [Nat.add]. unfold ret, polygon_at.
    replace (pos s + 0)%nat with (pos s) by lia. reflexivity. }
  destruct (Nat.leb_spec 50 (available s)).
  - rewrite Hfloats by lia. rewrite ignore_ok.
    + rewrite seek_add. reflexivity.
    + apply armed_seek, Ha.
    + rewrite available_seek. lia.
  - destruct (Nat.leb_spec 48 (available s)); [|apply Hthrow; lia].
    destruct (ignore_short 2 (seek (pos s + 48) s)) as (s' & Hi & Hg & Hf).
    + apply armed_seek, Ha.
    + rewrite available_seek. lia.
    + exists s'. rewrite Hfloats by lia. rewrite Hi. auto.
Qed.

Lemma read_polygon_bad (t : STLPolygon) (s : ifstream) :
  good s = false -> failbit (exceptions s) = true ->
  read_polygon t s = Throw ios_failure.
Proof. intros. unfold read_polygon, bind. now rewrite read_vector_bad. Qed.

Lemma read_polygons_bad (ts : list STLPolygon) (s : ifstream) :
  ts <> [] -> good s = false -> failbit (exceptions s) = true ->
  read_polygons ts s = Throw ios_failure.
Proof.
  destruct ts as [|t ts]; [congruence|]. intros _ Hg Hf.
  cbn [read_polygons]. unfold bind. now rewrite read_polygon_bad.
Qed.

(** Enough bytes for every record: the vector is filled in file order. *)
Lemma read_polygons_ok (ts : list STLPolygon) (s : ifstream) :
  armed s -> (50 * List.length ts <= available s)%nat ->
  read_polygons ts s
  = Ok (map (fun i => polygon_at (content s) (pos s + 50 * i))
            (seq 0 (List.length ts)))
       (seek (pos s + 50 * List.length ts) s).
Proof.
  revert s. induction ts as [|t ts IH]; intros s Ha Hn.
  - cbn. unfold ret. destruct s; unfold seek; cbn. do 2 f_equal. lia.
  - cbn [read_polygons List.length] in *. unfold bind.
    pose proof (read_polygon_spec t s Ha) as Hp.
    destruct (Nat.leb_spec 50 (available s)); [|lia].
    rewrite Hp, IH; [|apply armed_seek, Ha|rewrite available_seek; lia].
    unfold ret. rewrite content_seek, pos_seek.
    f_equal.
    + cbn [seq map]. f_equal; [f_equal; lia|].
      rewrite <- seq_shift, map_map.
      apply map_ext. intros i. f_equal. lia.
    + unfold seek. cbn. f_equal. lia.
Qed.

(** A source that ends before the twelve floats of some record throws. *)
Lemma read_polygons_short (ts : list STLPolygon) (s : ifstream) :
  armed s -> (available s + 2 < 50 * List.length ts)%nat ->
  read_polygons ts s = Throw ios_failure.
Proof.
  revert s. induction ts as [|t ts IH]; intros s Ha Hn.
  - cbn in Hn. lia.
  - cbn [read_polygons List.length] in *. unfold bind.
    pose proof (read_polygon_spec t s Ha) as Hp.
    destruct (Nat.leb_spec 50 (available s)).
    + rewrite Hp, IH; [reflexivity|apply armed_seek, Ha|].
      rewrite available_seek. lia.
    + destruct (Nat.leb_spec 48 (available s)).
      * destruct Hp as (s' & -> & Hg & Hf).
        rewrite read_polygons_bad; auto.
        destruct ts; [cbn in Hn; lia | congruence].
      * now rewrite Hp.
Qed.

End ReaderFacts.

(** ** Scalars read from the file *)

Section ScalarBounds.

Lemma byte_val_bound (b : Byte.byte) : 0 <= byte_val b < 256.
Proof.
  unfold byte_val. pose proof (Byte.to_N_bounded b) as H. lia.
Qed.

(** At most four bytes decode to a 32-bit value. *)
Lemma le_decode_firstn4 (l : list Byte.byte) : wf (le_decode (firstn 4 l)).
Proof.
  unfold wf.
  destruct l as [|b0 [|b1 [|b2 [|b3 l]]]]; cbn [firstn le_decode];
    repeat match goal with
           | b : Byte.byte |- _ =>
               pose proof (byte_val_bound b); generalize dependent (byte_val b);
               clear b; intros
           end; lia.
Qed.

Lemma float_at_wf (bytes : list Byte.byte) (off : nat) :
  wf (float_at bytes off).
Proof. unfold float_at. apply le_decode_firstn4. Qed.

End ScalarBounds.

(** ** [resize] *)

Section ResizeFacts.

Variable h : host.

(** The exception of [resize(n)], if any. *)
Lemma resize_cases (n : Z) (s : ifstream) :
  (max_size h < n /\ resize h n s = Throw length_error)
  \/ (n <= max_size h /\ n <> 0 /\ allocates h n = false
      /\ resize h n s = Throw bad_alloc)
  \/ (n <= max_size h /\ (n = 0 \/ allocates h n = true)
      /\ resize h n s = Ok (repeat zero_polygon (Z.to_nat n)) s).
Proof.
  unfold resize. destruct (Z.ltb_spec (max_size h) n) as [Hm|Hm].
  - left. auto.
  - right. destruct (Z.eqb_spec n 0) as [Hn|Hn]; cbn [orb].
    + right. auto.
    + destruct (allocates h n) eqn:Ha; [right|left]; auto.
Qed.

Lemma resize_ample (n : Z) (s : ifstream) :
  n < 2 ^ 32 -> resize ample n s = Ok (repeat zero_polygon (Z.to_nat n)) s.
Proof.
  intros Hn. unfold resize.
  destruct (Z.ltb_spec (max_size ample) n) as [Hm|Hm].
  - exfalso. unfold ample in Hm. cbn [max_size] in Hm.
    assert (2 ^ 32 <= 192153584101141162) by (vm_compute; discriminate).
    lia.
  - unfold ample. cbn [allocates]. now rewrite orb_true_r.
Qed.

End ResizeFacts.

(** ** The constructor on a file that opens *)

Section ConstructorFacts.

Variable bytes : list Byte.byte.

Lemma armed_reading_stream : armed (reading_stream bytes).
Proof. unfold armed, good. cbn. auto. Qed.

(** Fewer than 84 bytes: a [read] throws before [resize] is reached. *)
Lemma parse_in_short (h : host) :
  (List.length bytes < 84)%nat ->
  parse_in h (open_stream bytes) = Throw ios_failure.
Proof.
  intros Hlen.
  change (parse_in h (open_stream bytes))
    with ((got <- read 80 ;;
           let header := overlay (repeat Byte.x00 80) got in
           size <- read_scalar 0 ;;
           polygons <- resize h size ;;
           polygons <- read_polygons polygons ;;
           ret (header, polygons)) (reading_stream bytes)).
  unfold bind.
  destruct (Nat.leb_spec 80 (List.length bytes)) as [H80|H80].
  2:{ rewrite read_short; [reflexivity|apply armed_reading_stream|].
      unfold available. cbn. lia. }
  rewrite read_ok by (try apply armed_reading_stream; unfold available; cbn; lia).
  rewrite read_scalar_spec by (apply armed_seek, armed_reading_stream).
  rewrite available_seek.
  destruct (Nat.leb_spec 4 (available (reading_stream bytes) - 80)) as [H4|H4];
    [|reflexivity].
  unfold available in H4. cbn [reading_stream content pos] in H4. lia.
Qed.

(** At least 84 bytes: the header and the count are read, and [resize]
    is asked for the declared count. *)
Lemma parse_in_count (h : host) :
  (84 <= List.length bytes)%nat ->
  parse_in h (open_stream bytes)
  = (polygons <- resize h (float_at bytes 80) ;;
     polygons <- read_polygons polygons ;;
     ret (firstn 80 bytes, polygons))
      (seek 84 (reading_stream bytes)).
Proof.
  intros Hlen.
  change (parse_in h (open_stream bytes))
    with ((got <- read 80 ;;
           let header := overlay (repeat Byte.x00 80) got in
           size <- read_scalar 0 ;;
           polygons <- resize h size ;;
           polygons <- read_polygons polygons ;;
           ret (header, polygons)) (reading_stream bytes)).
  unfold bind at 1 2.
  rewrite read_ok by (try apply armed_reading_stream; unfold available; cbn; lia).
  rewrite read_scalar_spec by (apply armed_seek, armed_reading_stream).
  rewrite available_seek.
  destruct (Nat.leb_spec 4 (available (reading_stream bytes) - 80));
    [|unfold available in *; cbn [reading_stream content pos] in *; lia].
  cbn [pos seek content reading_stream skipn Nat.add].
  rewrite overlay_full
    by (rewrite length_firstn, repeat_length; apply Nat.min_l; lia).
  reflexivity.
Qed.

(** Where [resize] is served, the host does not matter. *)
Lemma parse_in_served (h : host) :
  (84 <= List.length bytes)%nat ->
  float_at bytes 80 <= max_size h ->
  float_at bytes 80 = 0 \/ allocates h (float_at bytes 80) = true ->
  parse_in h (open_stream bytes)
  = (polygons <- read_polygons (repeat zero_polygon (declared_count bytes)) ;;
     ret (firstn 80 bytes, polygons))
      (seek 84 (reading_stream bytes)).
Proof.
  intros Hlen Hm Ha. rewrite parse_in_count by exact Hlen.
  unfold bind at 1.
  destruct (resize_cases h (float_at bytes 80) (seek 84 (reading_stream bytes)))
    as [(Hc & _)|[(_ & Hn & Hr & _)|(_ & _ & ->)]].
  - lia.
  - destruct Ha as [Ha|Ha]; congruence.
  - reflexivity.
Qed.

(** Where [resize] is refused, its exception is the outcome. *)
Lemma parse_in_refused (h : host) (e : exception) :
  (84 <= List.length bytes)%nat ->
  (forall s : ifstream, resize h (float_at bytes 80) s = Throw e) ->
  parse_in h (open_stream bytes) = Throw e.
Proof.
  intros Hlen Hr. rewrite parse_in_count by exact Hlen.
  unfold bind at 1. now rewrite Hr.
Qed.

Lemma parse_served :
  (84 <= List.length bytes)%nat ->
  parse (open_stream bytes)
  = (polygons <- read_polygons (repeat zero_polygon (declared_count bytes)) ;;
     ret (firstn 80 bytes, polygons))
      (seek 84 (reading_stream bytes)).
Proof.
  intros Hlen. unfold parse. apply parse_in_served; [exact Hlen| |].
  - pose proof (float_at_wf bytes 80) as Hw. unfold wf in Hw.
    unfold ample. cbn [max_size].
    assert (2 ^ 32 <= 192153584101141162) by (vm_compute; discriminate).
    lia.
  - right. reflexivity.
Qed.

Lemma parse_ok :
  (84 + 50 * declared_count bytes <= List.length bytes)%nat ->
  parse (open_stream bytes)
  = Ok (firstn 80 bytes, records bytes)
       (seek (84 + 50 * declared_count bytes) (reading_stream bytes)).
Proof.
  intros Hlen. rewrite parse_served by lia. unfold bind.
  rewrite read_polygons_ok.
  - unfold ret. rewrite repeat_length.
    cbn [pos seek content reading_stream skipn Nat.add]. reflexivity.
  - apply armed_seek, armed_reading_stream.
  - rewrite repeat_length. unfold available.
    cbn [reading_stream content pos seek]. lia.
Qed.

Lemma parse_truncated :
  (List.length bytes < 84
   \/ List.length bytes + 2 < 84 + 50 * declared_count bytes)%nat ->
  parse (open_stream bytes)
  = Throw ios_failure.
Proof.
  intros Hlen.
  destruct (Nat.le_gt_cases 84 (List.length bytes)) as [H84|H84];
    [|now apply parse_in_short].
  rewrite parse_served by exact H84. unfold bind.
  rewrite read_polygons_short; [reflexivity| |].
  - apply armed_seek, armed_reading_stream.
  - rewrite repeat_length. unfold available.
    cbn [reading_stream content pos seek]. lia.
Qed.

End ConstructorFacts.

(** ** Facts about the layout *)

Section LayoutFacts.

Lemma byte_val_of (v : Z) : byte_val (byte_of v) = v mod 256.
Proof.
  unfold byte_val, byte_of.
  assert (0 <= v mod 256 < 256) by (apply Z.mod_pos_bound; lia).
  destruct (Byte.of_N (Z.to_N (v mod 256))) eqn:E.
  - apply Byte.to_of_N in E. rewrite E. lia.
  - apply Byte.of_N_None_iff in E. lia.
Qed.

Lemma le_decode_encode4 (v : Z) : wf v -> le_decode (le_encode 4 v) = v.
Proof.
  unfold wf. intros Hv. cbn [le_encode le_decode].
  rewrite !byte_val_of. Z.div_mod_to_equations. lia.
Qed.

Lemma float_at_skipn (bytes : list Byte.byte) (off k : nat) :
  float_at bytes (off + k) = float_at (skipn off bytes) k.
Proof. unfold float_at. now rewrite skipn_skipn, Nat.add_comm. Qed.

Lemma polygon_at_skipn (bytes : list Byte.byte) (off : nat) :
  polygon_at bytes off = polygon_at (skipn off bytes) 0.
Proof.
  assert (H : forall k, float_at (skipn off bytes) k = float_at bytes (off + k))
    by (intros; symmetry; apply float_at_skipn).
  unfold polygon_at, vector_at. rewrite !H.
  f_equal; f_equal; apply f_equal; lia.
Qed.

Lemma float_at_head (v : Z) (rest : list Byte.byte) :
  wf v -> float_at (le_encode 4 v ++ rest) 0 = v.
Proof.
  intros Hv. unfold float_at.
  change (le_decode (le_encode 4 v) = v). now apply le_decode_encode4.
Qed.

Lemma skipn_encoded (v : Z) (rest : list Byte.byte) :
  skipn 4 (le_encode 4 v ++ rest) = rest.
Proof. reflexivity. Qed.

Lemma vector_at_head (v : STLVector) (rest : list Byte.byte) :
  wf_vector v -> vector_at (encode_vector v ++ rest) 0 = v.
Proof.
  intros (Hx & Hy & Hz). destruct v as [vx vy vz].
  unfold vector_at, encode_vector. cbn [x y z] in *.
  rewrite <- !app_assoc.
  rewrite float_at_head by assumption.
  change (0 + 4)%nat with (4 + 0)%nat.
  change (0 + 8)%nat with (4 + (4 + 0))%nat.
  rewrite !float_at_skipn, !skipn_encoded.
  rewrite !float_at_head by assumption. reflexivity.
Qed.

Lemma encode_record_length (r : STLPolygon * Z) :
  List.length (encode_record r) = 50%nat.
Proof. reflexivity. Qed.

Lemma vector_at_skipn (bytes : list Byte.byte) (off : nat) :
  vector_at bytes off = vector_at (skipn off bytes) 0.
Proof.
  assert (H : forall k, float_at (skipn off bytes) k = float_at bytes (off + k))
    by (intros; symmetry; apply float_at_skipn).
  unfold vector_at. rewrite !H. f_equal; apply f_equal; lia.
Qed.

Lemma skipn_encoded_vector (v : STLVector) (rest : list Byte.byte) :
  skipn 12 (encode_vector v ++ rest) = rest.
Proof. reflexivity. Qed.

Lemma polygon_at_head (t : STLPolygon) (attr : Z) (rest : list Byte.byte) :
  wf_polygon t -> polygon_at (encode_record (t, attr) ++ rest) 0 = t.
Proof.
  intros (Hn & Ha & Hb & Hc). destruct t as [vn va vb vc].
  unfold polygon_at, encode_record. cbn [fst snd normal a b c] in *.
  rewrite <- !app_assoc.
  rewrite vector_at_head by assumption.
  rewrite (vector_at_skipn _ (0 + 12)), (vector_at_skipn _ (0 + 24)),
    (vector_at_skipn _ (0 + 36)).
  change (0 + 12)%nat with 12%nat.
  change (0 + 24)%nat with (12 + 12)%nat.
  change (0 + 36)%nat with (12 + (12 + 12))%nat.
  rewrite <- !skipn_skipn, !skipn_encoded_vector.
  rewrite !vector_at_head by assumption. reflexivity.
Qed.

Lemma skipn_encoded_record (r : STLPolygon * Z) (rest : list Byte.byte) :
  skipn 50 (encode_record r ++ rest) = rest.
Proof. reflexivity. Qed.

(** The records of a serialized list decode to the list. *)
Lemma records_encoded (ts : list (STLPolygon * Z)) (bytes : list Byte.byte) :
  Forall (fun r => wf_polygon (fst r)) ts ->
  forall off : nat,
  skipn off bytes = flat_map encode_record ts ->
  map (fun i => polygon_at bytes (off + 50 * i)) (seq 0 (List.length ts))
  = map fst ts.
Proof.
  induction 1 as [|[t attr] ts Ht Hts IH]; intros off Hs; [reflexivity|].
  cbn [List.length seq map fst flat_map] in *.
  f_equal.
  - rewrite polygon_at_skipn.
    replace (off + 50 * 0)%nat with off by lia.
    rewrite Hs. now apply polygon_at_head.
  - rewrite <- seq_shift, map_map.
    rewrite <- (IH (off + 50)%nat).
    + apply map_ext. intros i. f_equal. lia.
    + rewrite Nat.add_comm, <- skipn_skipn, Hs.
      apply skipn_encoded_record.
Qed.

Lemma flat_map_encode_length (ts : list (STLPolygon * Z)) :
  List.length (flat_map encode_record ts) = (50 * List.length ts)%nat.
Proof.
  induction ts as [|r ts IH]; [reflexivity|].
  cbn [flat_map List.length]. rewrite length_app, encode_record_length, IH.
  lia.
Qed.

Section Serialized.

Variables (header : list Byte.byte) (ts : list (STLPolygon * Z)).
Hypothesis Hheader : List.length header = 80%nat.
Hypothesis Hcount : Z.of_nat (List.length ts) < 2 ^ 32.

Lemma serialize_length :
  List.length (serialize header ts) = (84 + 50 * List.length ts)%nat.
Proof.
  unfold serialize.
  rewrite !length_app, le_encode_length, flat_map_encode_length. lia.
Qed.

Lemma serialize_header : firstn 80 (serialize header ts) = header.
Proof.
  unfold serialize. rewrite firstn_app, Hheader, Nat.sub_diag.
  rewrite firstn_O, app_nil_r. apply firstn_all2. lia.
Qed.

Lemma serialize_skip_header :
  skipn 80 (serialize header ts)
  = le_encode 4 (Z.of_nat (List.length ts)) ++ flat_map encode_record ts.
Proof.
  unfold serialize. rewrite skipn_app, Hheader, Nat.sub_diag.
  rewrite skipn_all2 by lia. reflexivity.
Qed.

Lemma serialize_count : declared_count (serialize header ts) = List.length ts.
Proof.
  unfold declared_count. rewrite serialize_skip_header.
  change (firstn 4 (le_encode 4 ?v ++ ?r)) with (le_encode 4 v).
  rewrite le_decode_encode4 by (unfold wf; lia). lia.
Qed.

Lemma serialize_records :
  Forall (fun r => wf_polygon (fst r)) ts ->
  records (serialize header ts) = map fst ts.
Proof.
  intros Hwf. unfold records. rewrite serialize_count.
  apply records_encoded; [exact Hwf|].
  change 84%nat with (4 + 80)%nat.
  rewrite <- skipn_skipn, serialize_skip_header. reflexivity.
Qed.

End Serialized.

End LayoutFacts.

(** ** More facts about the slicer *)

Section SlicerZeros.

Variables a b c d : float.

Lemma edge_parameter_zero (e : STLSegment) :
  is_zero (plane_value (p e) a b c d) = true ->
  finite_nonzero (plane_denominator e a b c) = true ->
  is_zero (edge_parameter e a b c d) = true.
Proof.
  intros Hv Hd. unfold edge_parameter.
  apply fdiv_zero_l; [now apply fneg_zero | exact Hd].
Qed.

Lemma edge_parameter_degenerate (e : STLSegment) :
  zero_or_nan (plane_denominator e a b c) = true ->
  crosses (edge_parameter e a b c d) = false.
Proof. intros H. unfold edge_parameter. now apply crosses_degenerate. Qed.

(** The three cases of the loop body by the crossing flags. *)
Lemma triangle_segments_cases (t : STLPolygon) :
  triangle_segments a b c d t =
  let seg i j :=
    {| p := interpolate (edge t i) (edge_parameter (edge t i) a b c d);
       q := interpolate (edge t j) (edge_parameter (edge t j) a b c d) |} in
  let cr i := crosses (edge_parameter (edge t i) a b c d) in
  if cr 0%nat && cr 1%nat then [seg 0%nat 1%nat]
  else if cr 1%nat && cr 2%nat then [seg 1%nat 2%nat]
  else if cr 2%nat && cr 0%nat then [seg 2%nat 0%nat]
  else [].
Proof.
  unfold triangle_segments, edge_pairs, both_cross. cbn [find fst snd].
  destruct (crosses (edge_parameter (edge t 0) a b c d));
    destruct (crosses (edge_parameter (edge t 1) a b c d));
    destruct (crosses (edge_parameter (edge t 2) a b c d));
    reflexivity.
Qed.

Lemma no_crossing_no_segment (t : STLPolygon) :
  (forall i, (i < 3)%nat ->
     crosses (edge_parameter (edge t i) a b c d) = false) ->
  triangle_segments a b c d t = [].
Proof.
  intros H. rewrite triangle_segments_cases. cbv beta zeta.
  rewrite !H by lia. reflexivity.
Qed.

End SlicerZeros.

Section FlatTriangle.

Lemma is_zero_of_int_0 : is_zero (of_int 0) = true.
Proof. vm_compute. reflexivity. Qed.

Lemma is_finite_of_int_1 : is_finite (of_int 1) = true.
Proof. vm_compute. reflexivity. Qed.

(** An edge between two points at height zero, against a plane z = z0. *)
Lemma flat_edge_denominator (e : STLSegment) :
  is_zero (z (p e)) = true -> is_zero (z (q e)) = true ->
  zero_or_nan (plane_denominator e (of_int 0) (of_int 0) (of_int 1)) = true.
Proof.
  intros Hp Hq. unfold plane_denominator.
  apply fadd_zero_or_nan; [apply fadd_zero_or_nan|].
  - apply fmul_zero_l, is_zero_of_int_0.
  - apply fmul_zero_l, is_zero_of_int_0.
  - apply is_zero_zero_or_nan, fmul_zero_r.
    + apply is_finite_of_int_1.
    + now apply fsub_zero.
Qed.

Lemma SFeqb_finite_inv (s1 s2 : bool) (m1 m2 : positive) (e1 e2 : Z) :
  SFeqb (S754_finite s1 m1 e1) (S754_finite s2 m2 e2) = true ->
  s1 = s2 /\ m1 = m2 /\ e1 = e2.
Proof.
  unfold SFeqb, SFcompare.
  destruct s1, s2; try discriminate;
    destruct (Z.compare_spec e1 e2) as [He|He|He]; try discriminate;
    destruct (Pos.compare_cont Eq m1 m2) eqn:Hm; try discriminate;
    intros _; apply Pos.compare_eq in Hm; auto.
Qed.

(** [y - x] is a zero, or a NaN, when [x == y]. *)
Lemma fsub_feq (v w : float) :
  feq v w = true -> zero_or_nan (w - v)%f32 = true.
Proof.
  unfold feq, zero_or_nan, fsub.
  destruct (to_spec v) as [s|s| |s m e] eqn:Ev;
    destruct (to_spec w) as [s'|s'| |s' m' e'] eqn:Ew;
    try (destruct s; discriminate); try (destruct s'; discriminate);
    try discriminate.
  - intros _. destruct s, s'; reflexivity.
  - destruct s, s'; try discriminate; intros _; reflexivity.
  - intros H. apply SFeqb_finite_inv in H. destruct H as (-> & -> & ->).
    cbn [SFsub]. rewrite Z.sub_diag. reflexivity.
Qed.

Lemma fmul_one_zero_or_nan (v : float) :
  zero_or_nan v = true -> zero_or_nan (of_int 1 * v)%f32 = true.
Proof.
  unfold zero_or_nan, fmul. rewrite to_spec_one.
  destruct (to_spec v) as [s|s| |s m e]; try discriminate; intros _.
  - cbn [SFmul SF_one]. now rewrite to_of_spec_zero.
  - reflexivity.
Qed.

(** The denominator of an edge whose ends have equal coordinates along
    the axis of the slicing plane. *)
Lemma level_edge_denominator_x (e : STLSegment) :
  feq (x (p e)) (x (q e)) = true ->
  zero_or_nan (plane_denominator e (of_int 1) (of_int 0) (of_int 0)) = true.
Proof.
  intros H. unfold plane_denominator.
  apply fadd_zero_or_nan; [apply fadd_zero_or_nan|].
  - now apply fmul_one_zero_or_nan, fsub_feq.
  - apply fmul_zero_l, is_zero_of_int_0.
  - apply fmul_zero_l, is_zero_of_int_0.
Qed.

Lemma level_edge_denominator_y (e : STLSegment) :
  feq (y (p e)) (y (q e)) = true ->
  zero_or_nan (plane_denominator e (of_int 0) (of_int 1) (of_int 0)) = true.
Proof.
  intros H. unfold plane_denominator.
  apply fadd_zero_or_nan; [apply fadd_zero_or_nan|].
  - apply fmul_zero_l, is_zero_of_int_0.
  - now apply fmul_one_zero_or_nan, fsub_feq.
  - apply fmul_zero_l, is_zero_of_int_0.
Qed.

Lemma level_edge_denominator_z (e : STLSegment) :
  feq (z (p e)) (z (q e)) = true ->
  zero_or_nan (plane_denominator e (of_int 0) (of_int 0) (of_int 1)) = true.
Proof.
  intros H. unfold plane_denominator.
  apply fadd_zero_or_nan; [apply fadd_zero_or_nan|].
  - apply fmul_zero_l, is_zero_of_int_0.
  - apply fmul_zero_l, is_zero_of_int_0.
  - now apply fmul_one_zero_or_nan, fsub_feq.
Qed.

Lemma level_edges (coord : STLVector -> float) (t : STLPolygon) (i : nat) :
  level coord t -> (i < 3)%nat ->
  feq (coord (p (edge t i))) (coord (q (edge t i))) = true.
Proof.
  intros (H0 & H1 & H2) Hi.
  destruct i as [|[|[|i]]]; [assumption..|lia].
Qed.

End FlatTriangle.

(** ** The reader on every file that opens *)

Section ReaderOutcome.

(** Enough bytes for the floats of every record: the vector is filled,
    whether or not the last [ignore] finds its two bytes. *)
Lemma read_polygons_floats (ts : list STLPolygon) (s : ifstream) :
  armed s -> (50 * List.length ts <= available s + 2)%nat ->
  exists s' : ifstream,
    read_polygons ts s
    = Ok (map (fun i => polygon_at (content s) (pos s + 50 * i))
              (seq 0 (List.length ts))) s'.
Proof.
  revert s. induction ts as [|t ts IH]; intros s Ha Hn.
  - exists s. reflexivity.
  - cbn [read_polygons List.length] in *. unfold bind.
    pose proof (read_polygon_spec t s Ha) as Hp.
    destruct (Nat.leb_spec 50 (available s)).
    + rewrite Hp.
      destruct (IH (seek (pos s + 50) s)) as (s' & Hs').
      * apply armed_seek, Ha.
      * rewrite available_seek. lia.
      * exists s'. rewrite Hs'. unfold ret.
        rewrite content_seek, pos_seek. f_equal.
        cbn [seq map]. f_equal; [f_equal; lia|].
        rewrite <- seq_shift, map_map.
        apply map_ext. intros i. f_equal. lia.
    + destruct (Nat.leb_spec 48 (available s)); [|lia].
      destruct Hp as (s' & Hp & _).
      destruct ts as [|t' ts]; [|cbn [List.length] in Hn; lia].
      exists s'. rewrite Hp. cbn [read_polygons List.length seq map].
      unfold ret. do 3 f_equal. lia.
Qed.

Lemma parse_in_accepts (h : host) (bytes : list Byte.byte) :
  (84 <= List.length bytes)%nat ->
  (84 + 50 * declared_count bytes <= List.length bytes + 2)%nat ->
  float_at bytes 80 <= max_size h ->
  float_at bytes 80 = 0 \/ allocates h (float_at bytes 80) = true ->
  exists s' : ifstream,
    parse_in h (open_stream bytes) = Ok (firstn 80 bytes, records bytes) s'.
Proof.
  intros H84 Hlen Hm Ha. rewrite parse_in_served by assumption. unfold bind.
  match goal with
  | |- context [read_polygons ?ts ?s] =>
      destruct (read_polygons_floats ts s) as (s' & Hs')
  end.
  - apply armed_seek, armed_reading_stream.
  - rewrite repeat_length. unfold available.
    cbn [reading_stream content pos seek]. lia.
  - exists s'. rewrite Hs'. unfold ret. rewrite repeat_length.
    cbn [pos seek content reading_stream]. reflexivity.
Qed.

Lemma parse_in_truncated (h : host) (bytes : list Byte.byte) :
  (84 <= List.length bytes)%nat ->
  (List.length bytes + 2 < 84 + 50 * declared_count bytes)%nat ->
  float_at bytes 80 <= max_size h ->
  float_at bytes 80 = 0 \/ allocates h (float_at bytes 80) = true ->
  parse_in h (open_stream bytes) = Throw ios_failure.
Proof.
  intros H84 Hlen Hm Ha. rewrite parse_in_served by assumption. unfold bind.
  rewrite read_polygons_short; [reflexivity| |].
  - apply armed_seek, armed_reading_stream.
  - rewrite repeat_length. unfold available.
    cbn [reading_stream content pos seek]. lia.
Qed.

Lemma ample_serves (bytes : list Byte.byte) :
  float_at bytes 80 <= max_size ample
  /\ (float_at bytes 80 = 0 \/ allocates ample (float_at bytes 80) = true).
Proof.
  split; [|right; reflexivity].
  pose proof (float_at_wf bytes 80) as Hw. unfold wf in Hw.
  unfold ample. cbn [max_size].
  assert (2 ^ 32 <= 192153584101141162) by (vm_compute; discriminate).
  lia.
Qed.

Lemma parse_accepts (bytes : list Byte.byte) :
  (84 <= List.length bytes)%nat ->
  (84 + 50 * declared_count bytes <= List.length bytes + 2)%nat ->
  exists s' : ifstream,
    parse (open_stream bytes) = Ok (firstn 80 bytes, records bytes) s'.
Proof.
  intros H84 Hlen. unfold parse.
  apply parse_in_accepts; try assumption; apply ample_serves.
Qed.

End ReaderOutcome.

(** ** More facts about the layout *)

Section LayoutBounds.

Lemma byte_of_val (b : Byte.byte) : byte_of (byte_val b) = b.
Proof.
  unfold byte_of. pose proof (byte_val_bound b) as H.
  rewrite Z.mod_small by lia. unfold byte_val.
  now rewrite N2Z.id, Byte.of_to_N.
Qed.

Lemma byte_of_low (v w : Z) :
  0 <= v < 256 -> byte_of (v + 256 * w) = byte_of v.
Proof.
  intros Hv. unfold byte_of.
  replace ((v + 256 * w) mod 256) with (v mod 256)
    by (Z.div_mod_to_equations; lia).
  reflexivity.
Qed.

(** Encoding what was decoded gives the bytes back. *)
Lemma le_encode_decode (bs : list Byte.byte) :
  le_encode (List.length bs) (le_decode bs) = bs.
Proof.
  induction bs as [|b bs IH]; [reflexivity|].
  cbn [List.length le_decode le_encode].
  pose proof (byte_val_bound b) as Hb.
  rewrite byte_of_low, byte_of_val by exact Hb. f_equal.
  replace ((byte_val b + 256 * le_decode bs) / 256) with (le_decode bs)
    by (Z.div_mod_to_equations; lia).
  exact IH.
Qed.

Lemma wf_polygon_at (bytes : list Byte.byte) (off : nat) :
  wf_polygon (polygon_at bytes off).
Proof.
  unfold wf_polygon, wf_vector, polygon_at, vector_at, float_at.
  cbn [normal a b c x y z]. repeat split; apply le_decode_firstn4.
Qed.

Lemma firstn_plus {A} (n m : nat) (l : list A) :
  firstn (n + m) l = firstn n l ++ firstn m (skipn n l).
Proof.
  revert l. induction n as [|n IH]; intros l; [reflexivity|].
  destruct l as [|v l]; cbn [Nat.add firstn skipn app].
  - now rewrite firstn_nil.
  - now rewrite IH.
Qed.

Lemma float_at_app (bytes extra : list Byte.byte) (off : nat) :
  (off + 4 <= List.length bytes)%nat ->
  float_at (bytes ++ extra) off = float_at bytes off.
Proof.
  intros H. unfold float_at. rewrite skipn_app, firstn_app, length_skipn.
  replace (4 - (List.length bytes - off))%nat with 0%nat by lia.
  now rewrite firstn_O, app_nil_r.
Qed.

Lemma polygon_at_app (bytes extra : list Byte.byte) (off : nat) :
  (off + 48 <= List.length bytes)%nat ->
  polygon_at (bytes ++ extra) off = polygon_at bytes off.
Proof.
  intros H. unfold polygon_at, vector_at.
  rewrite !float_at_app by lia. reflexivity.
Qed.

Lemma declared_count_app (bytes extra : list Byte.byte) :
  (84 <= List.length bytes)%nat ->
  declared_count (bytes ++ extra) = declared_count bytes.
Proof.
  intros H. unfold declared_count.
  change (le_decode (firstn 4 (skipn 80 ?l))) with (float_at l 80).
  now rewrite float_at_app by lia.
Qed.

Lemma records_app (bytes extra : list Byte.byte) :
  (84 <= List.length bytes)%nat ->
  (84 + 50 * declared_count bytes <= List.length bytes + 2)%nat ->
  records (bytes ++ extra) = records bytes.
Proof.
  intros H84 Hlen. unfold records. rewrite declared_count_app by exact H84.
  apply map_ext_in. intros i Hi. apply in_seq in Hi.
  apply polygon_at_app. lia.
Qed.

(** The records of a file behind an 80-byte header, read off the body. *)
Lemma declared_count_header (h body : list Byte.byte) :
  List.length h = 80%nat ->
  declared_count (h ++ body) = Z.to_nat (le_decode (firstn 4 body)).
Proof.
  intros Hh. unfold declared_count.
  rewrite skipn_app, Hh, Nat.sub_diag, skipn_all2 by lia. reflexivity.
Qed.

Lemma records_header (h body : list Byte.byte) :
  List.length h = 80%nat ->
  records (h ++ body)
  = map (fun i => polygon_at body (4 + 50 * i))
        (seq 0 (Z.to_nat (le_decode (firstn 4 body)))).
Proof.
  intros Hh. unfold records. rewrite declared_count_header by exact Hh.
  apply map_ext. intros i.
  rewrite polygon_at_skipn, (polygon_at_skipn body).
  f_equal. rewrite skipn_app, Hh, skipn_all2 by lia.
  cbn [app]. f_equal; lia.
Qed.

End LayoutBounds.

Section Reencode.

Lemma le_encode_float_at (l : list Byte.byte) (off : nat) :
  (off + 4 <= List.length l)%nat ->
  le_encode 4 (float_at l off) = firstn 4 (skipn off l).
Proof.
  intros H. unfold float_at.
  assert (Hl : List.length (firstn 4 (skipn off l)) = 4%nat)
    by (rewrite length_firstn, length_skipn; lia).
  rewrite <- Hl at 1. apply le_encode_decode.
Qed.

Lemma le_encode_attribute_at (l : list Byte.byte) (off : nat) :
  (off + 50 <= List.length l)%nat ->
  le_encode 2 (attribute_at l off) = firstn 2 (skipn (off + 48) l).
Proof.
  intros H. unfold attribute_at.
  assert (Hl : List.length (firstn 2 (skipn (off + 48) l)) = 2%nat)
    by (rewrite length_firstn, length_skipn; lia).
  rewrite <- Hl at 1. apply le_encode_decode.
Qed.

Lemma encode_vector_at (l : list Byte.byte) (off : nat) :
  (off + 12 <= List.length l)%nat ->
  encode_vector (vector_at l off) = firstn 12 (skipn off l).
Proof.
  intros H. unfold encode_vector, vector_at. cbn [x y z].
  rewrite !le_encode_float_at by lia.
  change (firstn 12) with (@firstn Byte.byte (4 + (4 + 4))).
  rewrite !firstn_plus, !skipn_skipn.
  repeat (f_equal; try lia).
Qed.

Lemma encode_record_at (l : list Byte.byte) (off : nat) :
  (off + 50 <= List.length l)%nat ->
  encode_record (polygon_at l off, attribute_at l off)
  = firstn 50 (skipn off l).
Proof.
  intros H. unfold encode_record, polygon_at. cbn [fst snd normal a b c].
  rewrite !encode_vector_at, le_encode_attribute_at by lia.
  change (firstn 50) with (@firstn Byte.byte (12 + (12 + (12 + (12 + 2))))).
  rewrite !firstn_plus, !skipn_skipn.
  repeat (f_equal; try lia).
Qed.

(** Encoding the records and the attribute fields read at stride 50 gives
    the bytes back. *)
Lemma reencode_records (bytes : list Byte.byte) (n off : nat) :
  List.length bytes = (off + 50 * n)%nat ->
  flat_map encode_record
    (combine (map (fun i => polygon_at bytes (off + 50 * i)) (seq 0 n))
             (map (fun i => attribute_at bytes (off + 50 * i)) (seq 0 n)))
  = skipn off bytes.
Proof.
  revert off. induction n as [|n IH]; intros off Hlen.
  - cbn. rewrite skipn_all2 by lia. reflexivity.
  - cbn [seq map combine flat_map].
    replace (off + 50 * 0)%nat with off by lia.
    rewrite encode_record_at by lia.
    rewrite <- !seq_shift, !map_map.
    rewrite <- (firstn_skipn 50 (skipn off bytes)) at 2.
    f_equal. rewrite skipn_skipn, <- (IH (50 + off)%nat) by lia.
    f_equal. f_equal; apply map_ext; intros i; f_equal; lia.
Qed.

Lemma reencode (bytes : list Byte.byte) :
  List.length bytes = (84 + 50 * declared_count bytes)%nat ->
  serialize (firstn 80 bytes) (combine (records bytes) (attributes bytes))
  = bytes.
Proof.
  intros Hlen. unfold serialize, records, attributes.
  rewrite length_combine, !length_map, length_seq, Nat.min_id.
  rewrite reencode_records by exact Hlen.
  unfold declared_count.
  rewrite Z2Nat.id by apply le_decode_firstn4.
  change (le_decode (firstn 4 (skipn 80 bytes))) with (float_at bytes 80).
  rewrite le_encode_float_at by lia.
  rewrite <- (firstn_skipn 80 bytes) at 4.
  f_equal.
  rewrite <- (firstn_skipn 4 (skipn 80 bytes)) at 2.
  now rewrite skipn_skipn.
Qed.

End Reencode.

Section ConstructorCases.

(** The constructor on a file that opens: an exception, or a valid object
    filled from the file. *)
Lemma constructor_cases (fs : filesystem) (path : string)
    (bytes : list Byte.byte) :
  fs path = Some bytes ->
  (((List.length bytes < 84)%nat
    \/ (List.length bytes + 2 < 84 + 50 * declared_count bytes)%nat)
   /\ STLReader_ctor fs path = (EmptyString, Exception ios_failure))
  \/ (((84 <= List.length bytes)%nat
       /\ (84 + 50 * declared_count bytes <= List.length bytes + 2)%nat)
      /\ STLReader_ctor fs path
         = (EmptyString,
            Object {| header_ := firstn 80 bytes;
                      polygons_ := records bytes;
                      valid := true |})).
Proof.
  intros Hfs. unfold STLReader_ctor, STLReader_ctor_in.
  rewrite Hfs. fold parse. cbv zeta.
  destruct (Nat.le_gt_cases 84 (List.length bytes)) as [H84|H84];
    [destruct (Nat.le_gt_cases (84 + 50 * declared_count bytes)
                               (List.length bytes + 2)) as [Hn|Hn]|].
  - right. split; [split; assumption|].
    destruct (parse_accepts bytes H84 Hn) as (s' & ->). reflexivity.
  - left. split; [right; exact Hn|].
    rewrite parse_truncated by (right; exact Hn). reflexivity.
  - left. split; [left; exact H84|].
    rewrite parse_truncated by (left; exact H84). reflexivity.
Qed.

Lemma records_length (bytes : list Byte.byte) :
  List.length (records bytes) = declared_count bytes.
Proof. unfold records. now rewrite length_map, length_seq. Qed.

Lemma declared_count_bound (bytes : list Byte.byte) :
  Z.of_nat (declared_count bytes) < 2 ^ 32.
Proof.
  unfold declared_count.
  pose proof (le_decode_firstn4 (skipn 80 bytes)) as H. unfold wf in H.
  rewrite Z2Nat.id; lia.
Qed.

Lemma records_wf (bytes : list Byte.byte) : Forall wf_polygon (records bytes).
Proof.
  unfold records. apply Forall_forall. intros t Ht.
  apply in_map_iff in Ht. destruct Ht as (i & <- & _).
  apply wf_polygon_at.
Qed.

Lemma declared_count_Z (bytes : list Byte.byte) :
  Z.of_nat (declared_count bytes) = float_at bytes 80.
Proof.
  unfold declared_count, float_at.
  pose proof (le_decode_firstn4 (skipn 80 bytes)) as H. unfold wf in H.
  rewrite Z2Nat.id; lia.
Qed.

(** The constructor on a file that opens, on any host: the five ways it
    can end, in the order the statements run. *)
Lemma constructor_in_cases (h : host) (fs : filesystem) (path : string)
    (bytes : list Byte.byte) :
  fs path = Some bytes ->
  ((List.length bytes < 84)%nat
   /\ STLReader_ctor_in h fs path = (EmptyString, Exception ios_failure))
  \/ ((84 <= List.length bytes)%nat
      /\ max_size h < Z.of_nat (declared_count bytes)
      /\ STLReader_ctor_in h fs path = (EmptyString, Exception length_error))
  \/ ((84 <= List.length bytes)%nat
      /\ Z.of_nat (declared_count bytes) <= max_size h
      /\ declared_count bytes <> 0%nat
      /\ allocates h (Z.of_nat (declared_count bytes)) = false
      /\ STLReader_ctor_in h fs path = (EmptyString, Exception bad_alloc))
  \/ ((84 <= List.length bytes)%nat
      /\ served h (Z.of_nat (declared_count bytes))
      /\ (List.length bytes + 2 < 84 + 50 * declared_count bytes)%nat
      /\ STLReader_ctor_in h fs path = (EmptyString, Exception ios_failure))
  \/ ((84 <= List.length bytes)%nat
      /\ served h (Z.of_nat (declared_count bytes))
      /\ (84 + 50 * declared_count bytes <= List.length bytes + 2)%nat
      /\ STLReader_ctor_in h fs path
         = (EmptyString,
            Object {| header_ := firstn 80 bytes;
                      polygons_ := records bytes;
                      valid := true |})).
Proof.
  intros Hfs. unfold STLReader_ctor_in. rewrite Hfs. cbv zeta.
  rewrite declared_count_Z.
  destruct (Nat.le_gt_cases 84 (List.length bytes)) as [H84|H84].
  2:{ left. split; [exact H84|]. now rewrite parse_in_short. }
  right.
  destruct (resize_cases h (float_at bytes 80) (reading_stream bytes))
    as [(Hm & _)|[(Hm & Hn & Ha & _)|(Hm & Ha & _)]].
  - left. split; [exact H84|]. split; [exact Hm|].
    rewrite (parse_in_refused bytes h length_error); [reflexivity|exact H84|].
    intros s.
    destruct (resize_cases h (float_at bytes 80) s)
      as [(_ & Hr)|[(Hc & _)|(Hc & _)]]; [exact Hr|lia|lia].
  - right. left. split; [exact H84|]. split; [exact Hm|].
    split; [rewrite <- declared_count_Z in Hn; lia|]. split; [exact Ha|].
    rewrite (parse_in_refused bytes h bad_alloc); [reflexivity|exact H84|].
    intros s.
    destruct (resize_cases h (float_at bytes 80) s)
      as [(Hc & _)|[(_ & _ & _ & Hr)|(_ & [Hc|Hc] & _)]];
      [lia|exact Hr|congruence|congruence].
  - right. right.
    destruct (Nat.le_gt_cases (84 + 50 * declared_count bytes)
                              (List.length bytes + 2)) as [Hn|Hn].
    + right. split; [exact H84|]. split; [split; assumption|].
      split; [exact Hn|].
      destruct (parse_in_accepts h bytes H84 Hn Hm Ha) as (s' & ->).
      reflexivity.
    + left. split; [exact H84|]. split; [split; assumption|].
      split; [exact Hn|].
      now rewrite (parse_in_truncated h bytes H84 Hn Hm Ha).
Qed.

End ConstructorCases.

(** ** NaNs, infinities and the sign *)

Section NonFinite.

Lemma fneg_fields (v : float) :
  sign_bit (- v)%f32 = negb (sign_bit v)
  /\ biased_exp (- v)%f32 = biased_exp v
  /\ fraction (- v)%f32 = fraction v.
Proof.
  unfold fneg, sign_bit, biased_exp, fraction.
  assert (Hm : 0 <= v mod 2 ^ 32 < 2 ^ 32) by (apply Z.mod_pos_bound; lia).
  destruct (Z.leb_spec (2 ^ 31) (v mod 2 ^ 32)) as [Hs|Hs]; cbn [negb].
  - assert (E : (v mod 2 ^ 32 - 2 ^ 31) mod 2 ^ 32 = v mod 2 ^ 32 - 2 ^ 31)
      by (apply Z.mod_small; lia).
    rewrite E. split; [|split].
    + apply Z.leb_gt. lia.
    + Z.div_mod_to_equations. lia.
    + Z.div_mod_to_equations. lia.
  - assert (E : (v mod 2 ^ 32 + 2 ^ 31) mod 2 ^ 32 = v mod 2 ^ 32 + 2 ^ 31)
      by (apply Z.mod_small; lia).
    rewrite E. split; [|split].
    + apply Z.leb_le. lia.
    + Z.div_mod_to_equations. lia.
    + Z.div_mod_to_equations. lia.
Qed.

(** Unary minus is the IEEE negation. *)
Lemma to_spec_fneg (v : float) : to_spec (- v)%f32 = SFopp (to_spec v).
Proof.
  destruct (fneg_fields v) as (Hs & He & Hf).
  unfold to_spec. rewrite Hs, He, Hf.
  destruct (biased_exp v =? 0).
  - destruct (fraction v); reflexivity.
  - destruct (biased_exp v =? 255).
    + destruct (fraction v =? 0); reflexivity.
    + destruct (fraction v + 2 ^ 23); reflexivity.
Qed.

Lemma is_nan_not_finite (v : float) : is_nan v = true -> is_finite v = false.
Proof. unfold is_nan, is_finite. destruct (to_spec v); congruence. Qed.

Lemma is_nan_zero_or_nan (v : float) :
  is_nan v = true -> zero_or_nan v = true.
Proof. unfold is_nan, zero_or_nan. destruct (to_spec v); congruence. Qed.

Lemma is_nan_fmul (v w : float) :
  is_nan v = true \/ is_nan w = true -> is_nan (v * w)%f32 = true.
Proof.
  unfold is_nan, fmul.
  destruct (to_spec v), (to_spec w); intros [H|H]; try discriminate;
    reflexivity.
Qed.

Lemma is_nan_fadd (v w : float) :
  is_nan v = true \/ is_nan w = true -> is_nan (v + w)%f32 = true.
Proof.
  unfold is_nan, fadd.
  destruct (to_spec v), (to_spec w); intros [H|H]; try discriminate;
    reflexivity.
Qed.

Lemma is_nan_fsub (v w : float) :
  is_nan v = true \/ is_nan w = true -> is_nan (v - w)%f32 = true.
Proof.
  unfold is_nan, fsub.
  destruct (to_spec v), (to_spec w); intros [H|H]; try discriminate;
    reflexivity.
Qed.

Lemma nonfinite_fadd_r (v w : float) :
  is_finite w = false -> is_finite (v + w)%f32 = false.
Proof.
  unfold is_finite, fadd.
  destruct (to_spec w) as [s|s| |s m e]; try discriminate; intros _;
    destruct (to_spec v) as [s'|s'| |s' m' e']; cbn [SFadd];
    try destruct s; try destruct s'; reflexivity.
Qed.

Lemma nonfinite_fneg (v : float) :
  is_finite v = false -> is_finite (- v)%f32 = false.
Proof.
  unfold is_finite. rewrite to_spec_fneg.
  destruct (to_spec v); cbn [SFopp]; congruence.
Qed.

Lemma nonfinite_fdiv_l (v w : float) :
  is_finite v = false -> is_finite (v / w)%f32 = false.
Proof.
  unfold is_finite, fdiv.
  destruct (to_spec v) as [s|s| |s m e]; try discriminate; intros _;
    destruct (to_spec w) as [s'|s'| |s' m' e']; cbn [SFdiv];
    rewrite ?to_of_spec_nan, ?to_of_spec_infinity; reflexivity.
Qed.

(** A zero, or a NaN, times anything is a zero or a NaN. *)
Lemma fmul_zero_or_nan_r (v w : float) :
  zero_or_nan w = true -> zero_or_nan (v * w)%f32 = true.
Proof.
  unfold zero_or_nan, fmul.
  destruct (to_spec w) as [s|s| |s m e]; try discriminate; intros _;
    destruct (to_spec v) as [s'|s'| |s' m' e']; cbn [SFmul];
    rewrite ?to_of_spec_nan, ?to_of_spec_zero; reflexivity.
Qed.

(** A parameter in [0, 1) is a finite number. *)
Lemma crosses_finite (t : float) : crosses t = true -> is_finite t = true.
Proof.
  destruct (is_finite t) eqn:Hf; [reflexivity|].
  intros H. rewrite crosses_nonfinite in H by exact Hf. discriminate.
Qed.

End NonFinite.

(** ** Which triangles yield a segment *)

Section Contribution.

Variables a b c d : float.

Lemma slice_cons (t : STLPolygon) (ts : list STLPolygon) :
  slice (t :: ts) a b c d = triangle_segments a b c d t ++ slice ts a b c d.
Proof. reflexivity. Qed.

(** Two edges that do not cross leave no pair. *)
Lemma two_edges_idle (t : STLPolygon) (i j : nat) :
  (i < 3)%nat -> (j < 3)%nat -> i <> j ->
  crosses (edge_parameter (edge t i) a b c d) = false ->
  crosses (edge_parameter (edge t j) a b c d) = false ->
  triangle_segments a b c d t = [].
Proof.
  intros Hi Hj Hij Hci Hcj. rewrite triangle_segments_cases. cbv beta zeta.
  destruct i as [|[|[|i]]]; [| | |lia];
    destruct j as [|[|[|j]]]; try lia; try congruence;
    rewrite Hci, Hcj, ?andb_false_r; cbn [andb];
    try reflexivity;
    destruct (crosses _); reflexivity.
Qed.

(** The denominator of an edge with a NaN coordinate at either end. *)
Lemma nan_end_denominator (e : STLSegment) :
  vector_has_nan (p e) = true \/ vector_has_nan (q e) = true ->
  zero_or_nan (plane_denominator e a b c) = true.
Proof.
  intros H. apply is_nan_zero_or_nan. unfold plane_denominator.
  assert (Hc : is_nan (x (q e) - x (p e))%f32 = true
               \/ is_nan (y (q e) - y (p e))%f32 = true
               \/ is_nan (z (q e) - z (p e))%f32 = true).
  { unfold vector_has_nan in H.
    destruct H as [H|H];
      apply orb_prop in H; destruct H as [H|H];
      try (apply orb_prop in H; destruct H as [H|H]);
      [left|right; left|right; right|left|right; left|right; right];
      apply is_nan_fsub; auto. }
  destruct Hc as [Hc|[Hc|Hc]].
  - apply is_nan_fadd. left. apply is_nan_fadd. left. apply is_nan_fmul. auto.
  - apply is_nan_fadd. left. apply is_nan_fadd. right. apply is_nan_fmul. auto.
  - apply is_nan_fadd. right. apply is_nan_fmul. auto.
Qed.

Lemma nan_vertex_no_segment (t : STLPolygon) :
  polygon_has_nan t = true -> triangle_segments a b c d t = [].
Proof.
  intros H. unfold polygon_has_nan in H.
  assert (Hidle : forall i j : nat, (i < 3)%nat -> (j < 3)%nat -> i <> j ->
            vector_has_nan (p (edge t i)) = true
            \/ vector_has_nan (q (edge t i)) = true ->
            vector_has_nan (p (edge t j)) = true
            \/ vector_has_nan (q (edge t j)) = true ->
            triangle_segments a b c d t = []).
  { intros i j Hi Hj Hij Hni Hnj.
    apply (two_edges_idle t i j); auto;
      apply edge_parameter_degenerate, nan_end_denominator; assumption. }
  apply orb_prop in H. destruct H as [H|H];
    [apply orb_prop in H; destruct H as [H|H]|].
  - apply (Hidle 0%nat 2%nat); auto.
  - apply (Hidle 0%nat 1%nat); auto.
  - apply (Hidle 1%nat 2%nat); auto.
Qed.

(** The numerator is not finite when the constant [d] of the plane is
    not. *)
Lemma nonfinite_constant (e : STLSegment) :
  is_finite d = false -> crosses (edge_parameter e a b c d) = false.
Proof.
  intros H. apply crosses_nonfinite. unfold edge_parameter, plane_value.
  apply nonfinite_fdiv_l, nonfinite_fneg, nonfinite_fadd_r, H.
Qed.

Lemma nan_coefficient (e : STLSegment) :
  is_nan a = true \/ is_nan b = true \/ is_nan c = true ->
  crosses (edge_parameter e a b c d) = false.
Proof.
  intros H. apply edge_parameter_degenerate, is_nan_zero_or_nan.
  unfold plane_denominator.
  destruct H as [H|[H|H]].
  - apply is_nan_fadd. left. apply is_nan_fadd. left. apply is_nan_fmul. auto.
  - apply is_nan_fadd. left. apply is_nan_fadd. right. apply is_nan_fmul. auto.
  - apply is_nan_fadd. right. apply is_nan_fmul. auto.
Qed.

Lemma slice_nothing (ts : list STLPolygon) :
  (forall e : STLSegment, crosses (edge_parameter e a b c d) = false) ->
  slice ts a b c d = [].
Proof.
  intros H. induction ts as [|t ts IH]; [reflexivity|].
  rewrite slice_cons, IH, no_crossing_no_segment; [reflexivity|].
  intros i _. apply H.
Qed.

(** The denominator of an edge whose two ends coincide. *)
Lemma coincident_ends_denominator (e : STLSegment) :
  coincide (p e) (q e) ->
  zero_or_nan (plane_denominator e a b c) = true.
Proof.
  intros (Hx & Hy & Hz). unfold plane_denominator.
  apply fadd_zero_or_nan; [apply fadd_zero_or_nan|];
    apply fmul_zero_or_nan_r, fsub_feq; assumption.
Qed.

Lemma rev_triangle_segments (t : STLPolygon) :
  rev (triangle_segments a b c d t) = triangle_segments a b c d t.
Proof.
  unfold triangle_segments. destruct (find _ _) as [[e1 e2]|]; reflexivity.
Qed.

Lemma slice_rev (ts : list STLPolygon) :
  slice (rev ts) a b c d = rev (slice ts a b c d).
Proof.
  induction ts as [|t ts IH]; [reflexivity|].
  cbn [rev]. rewrite slice_app, IH, slice_single.
  rewrite (slice_cons t ts), rev_app_distr, rev_triangle_segments.
  reflexivity.
Qed.

End Contribution.

(** ** Interpolating at parameter one *)

Section Endpoints.

Lemma fadd_zero_l (w v : float) :
  is_zero w = true -> plain v -> (w + v)%f32 = v.
Proof.
  intros Hz (Hw & Hf & Hnz). destruct (is_zero_spec w Hz) as [s' Hs'].
  pose proof (of_to_spec v Hw (is_finite_not_nan v Hf)) as Hr.
  unfold fadd. rewrite Hs'. unfold is_finite in Hf.
  destruct (to_spec v) as [s|s| |s m e] eqn:E; try discriminate.
  - destruct (to_spec_zero_inv v s E) as [_ Hm].
    unfold wf in Hw. rewrite Z.mod_small in Hm by lia.
    destruct s.
    + exfalso. apply Hnz. rewrite Hm. reflexivity.
    + rewrite Hm. destruct s'; reflexivity.
  - cbn [SFadd]. exact Hr.
Qed.

Lemma fsub_one_one : is_zero (of_int 1 - of_int 1)%f32 = true.
Proof. vm_compute. reflexivity. Qed.

(** [(1 - 1) * x1 + 1 * x2] is [x2], bit for bit. *)
Lemma interpolate_coordinate_one (x1 x2 : float) :
  is_finite x1 = true -> plain x2 ->
  ((of_int 1 - of_int 1) * x1 + of_int 1 * x2)%f32 = x2.
Proof.
  intros Hf Hp.
  rewrite (fmul_one_l x2) by (destruct Hp as (? & ? & ?); assumption).
  apply fadd_zero_l; [|exact Hp].
  apply fmul_zero_finite; [apply fsub_one_one | exact Hf].
Qed.

End Endpoints.

(** ** Rounding: the arithmetic of [SpecFloat] on values *)

Section Sticky.

Lemma fexp_eq (e : Z) : fexp prec emax e = Z.max (e - 24) (-149).
Proof. reflexivity. Qed.

Lemma pow2_pos (k : Z) : 0 <= k -> 0 < 2 ^ k.
Proof. intros. apply Z.pow_pos_nonneg; lia. Qed.

Lemma pow2_add (a b : Z) : 0 <= a -> 0 <= b -> 2 ^ (a + b) = 2 ^ a * 2 ^ b.
Proof. intros. apply Z.pow_add_r; assumption. Qed.

Lemma pow2_succ (a : Z) : 0 <= a -> 2 ^ (a + 1) = 2 * 2 ^ a.
Proof. intros. rewrite pow2_add by lia. change (2 ^ 1) with 2. lia. Qed.

Lemma sticky_0 (T : Z) : sticky 0 T = T.
Proof.
  unfold sticky. change (2 ^ (0 + 1)) with 2.
  destruct (Z.eqb_spec (T mod 2) 0); Z.div_mod_to_equations; lia.
Qed.

Lemma sticky_nonneg (n T : Z) : 0 <= n -> 0 <= T -> 0 <= sticky n T.
Proof.
  intros Hn HT. unfold sticky.
  pose proof (pow2_pos (n + 1) ltac:(lia)).
  assert (0 <= T / 2 ^ (n + 1)) by (apply Z.div_pos; lia).
  destruct (_ =? 0); lia.
Qed.

(** Division with explicit quotient and remainder. *)
Lemma div_mod_unique (T A u v : Z) :
  0 <= v < A -> T = A * u + v -> T / A = u /\ T mod A = v.
Proof.
  intros Hv ->. split.
  - symmetry. apply (Z.div_unique_pos _ _ u v); lia.
  - symmetry. apply (Z.mod_unique_pos _ _ u v); lia.
Qed.

Lemma sticky_sticky (a b T : Z) :
  0 <= a -> 0 <= b -> 0 <= T -> sticky a (sticky b T) = sticky (a + b) T.
Proof.
  intros Ha Hb HT.
  pose proof (pow2_pos (b + 1) ltac:(lia)) as HA.
  pose proof (pow2_pos a Ha) as HB.
  set (A := 2 ^ (b + 1)) in *. set (B := 2 ^ a) in *.
  assert (E1 : 2 ^ (a + 1) = 2 * B) by (apply pow2_succ; lia).
  assert (E2 : 2 ^ (a + b + 1) = A * B).
  { replace (a + b + 1) with ((b + 1) + a) by lia.
    apply pow2_add; lia. }
  pose proof (Z.div_mod T A ltac:(lia)) as HdT.
  pose proof (Z.mod_pos_bound T A ltac:(lia)) as HmT.
  set (u := T / A) in *. set (v := T mod A) in *.
  pose proof (Z.div_mod u B ltac:(lia)) as Hdu.
  pose proof (Z.mod_pos_bound u B ltac:(lia)) as Hmu.
  set (u' := u / B) in *. set (u'' := u mod B) in *.
  unfold sticky at 2. fold A. fold u. fold v.
  set (sv := if v =? 0 then 0 else 1).
  assert (Hsv : 0 <= sv <= 1 /\ (sv = 0 <-> v = 0)).
  { subst sv. destruct (Z.eqb_spec v 0); lia. }
  unfold sticky. rewrite E1, E2.
  destruct (div_mod_unique (2 * u + sv) (2 * B) u' (2 * u'' + sv))
    as [-> ->]; [lia|lia|].
  destruct (div_mod_unique T (A * B) u' (A * u'' + v)) as [-> ->];
    [nia|nia|].
  destruct (Z.eqb_spec (2 * u'' + sv) 0), (Z.eqb_spec (A * u'' + v) 0);
    try lia; nia.
Qed.

Lemma sticky_mono (n T1 T2 : Z) :
  0 <= n -> 0 <= T1 <= T2 -> sticky n T1 <= sticky n T2.
Proof.
  intros Hn HT. unfold sticky.
  pose proof (pow2_pos (n + 1) ltac:(lia)) as HA.
  set (A := 2 ^ (n + 1)) in *.
  pose proof (Z.div_mod T1 A ltac:(lia)).
  pose proof (Z.mod_pos_bound T1 A ltac:(lia)).
  pose proof (Z.div_mod T2 A ltac:(lia)).
  pose proof (Z.mod_pos_bound T2 A ltac:(lia)).
  assert (T1 / A <= T2 / A) by (apply Z.div_le_mono; lia).
  destruct (Z.eqb_spec (T1 mod A) 0), (Z.eqb_spec (T2 mod A) 0); try lia.
  assert (T1 / A <> T2 / A) by nia. lia.
Qed.

(** Shifting out zeros loses nothing. *)
Lemma sticky_shift (j T : Z) :
  0 <= j -> sticky j (T * 2 ^ j) = T.
Proof.
  intros Hj. unfold sticky. rewrite pow2_succ by lia.
  pose proof (pow2_pos j Hj) as HB. set (B := 2 ^ j) in *.
  pose proof (Z.div_mod T 2 ltac:(lia)) as Hd.
  pose proof (Z.mod_pos_bound T 2 ltac:(lia)) as Hm.
  destruct (div_mod_unique (T * B) (2 * B) (T / 2) ((T mod 2) * B))
    as [-> ->]; [nia|nia|].
  destruct (Z.eqb_spec (T mod 2 * B) 0); nia.
Qed.

Lemma rne_bounds (T : Z) : T / 4 <= rne T <= T / 4 + 1.
Proof. unfold rne. destruct (_ || _); lia. Qed.

Lemma rne_exact (m : Z) : rne (4 * m) = m.
Proof.
  unfold rne.
  destruct (div_mod_unique (4 * m) 4 m 0) as [-> ->]; [lia|lia|].
  reflexivity.
Qed.

Lemma rne_mono (T1 T2 : Z) : T1 <= T2 -> rne T1 <= rne T2.
Proof.
  intros HT. unfold rne.
  pose proof (Z.div_mod T1 4 ltac:(lia)).
  pose proof (Z.mod_pos_bound T1 4 ltac:(lia)).
  pose proof (Z.div_mod T2 4 ltac:(lia)).
  pose proof (Z.mod_pos_bound T2 4 ltac:(lia)).
  assert (T1 / 4 <= T2 / 4) by (apply Z.div_le_mono; lia).
  destruct (Z.eq_dec (T1 / 4) (T2 / 4)) as [E|E].
  - rewrite E in *.
    destruct (Z.eqb_spec (T1 mod 4) 3), (Z.eqb_spec (T1 mod 4) 2),
      (Z.eqb_spec (T2 mod 4) 3), (Z.eqb_spec (T2 mod 4) 2),
      (Z.odd (T2 / 4)); cbn [orb andb]; lia.
  - destruct (_ || _), (_ || _); lia.
Qed.

End Sticky.

Section ShiftRight.

Lemma loc_code_bounds (l : location) : 0 <= loc_code l < 4.
Proof. destruct l as [|[| |]]; cbn; lia. Qed.

Lemma code_of_loc (m : Z) (l : location) :
  code (shr_record_of_loc m l) = 4 * m + loc_code l.
Proof. destruct l as [|[| |]]; unfold code; cbn; lia. Qed.

Lemma code_parts (r : shr_record) :
  code r / 4 = shr_m r
  /\ code r mod 4 = 2 * Z.b2z (shr_r r) + Z.b2z (shr_s r).
Proof.
  apply div_mod_unique; [|unfold code; lia].
  destruct (shr_r r), (shr_s r); cbn [Z.b2z]; lia.
Qed.

Lemma code_shr_1 (r : shr_record) :
  0 <= shr_m r ->
  code (shr_1 r) = sticky 1 (code r) /\ 0 <= shr_m (shr_1 r).
Proof.
  intros Hm. unfold sticky. change (2 ^ (1 + 1)) with 4.
  destruct (code_parts r) as [-> ->].
  destruct r as [m rb sb]. cbn [shr_m shr_r shr_s] in *.
  destruct m as [|[p|p|]|]; try lia;
    destruct rb, sb; unfold code; cbn [shr_1 shr_m shr_r shr_s orb Z.b2z];
    try rewrite (Pos2Z.inj_xI p); try rewrite (Pos2Z.inj_xO p);
    (split; [|lia]);
    match goal with
    | |- context [?t =? 0] => destruct (Z.eqb_spec t 0)
    end; lia.
Qed.

Lemma code_iter_shr (p : positive) (r : shr_record) :
  0 <= shr_m r ->
  code (iter_pos shr_1 p r) = sticky (Zpos p) (code r)
  /\ 0 <= shr_m (iter_pos shr_1 p r).
Proof.
  assert (Hc : forall r, 0 <= shr_m r -> 0 <= code r).
  { intros r0 H. unfold code.
    destruct (shr_r r0), (shr_s r0); cbn [Z.b2z]; lia. }
  revert r. induction p as [p IH|p IH|]; intros r Hm; cbn [iter_pos].
  - destruct (code_shr_1 r Hm) as [E1 H1].
    destruct (IH _ H1) as [E2 H2]. destruct (IH _ H2) as [E3 H3].
    split; [|exact H3].
    rewrite E3, E2, E1.
    rewrite (sticky_sticky (Zpos p) 1) by (try lia; auto).
    rewrite (sticky_sticky (Zpos p) (Zpos p + 1)) by (try lia; auto).
    f_equal. lia.
  - destruct (IH _ Hm) as [E2 H2]. destruct (IH _ H2) as [E3 H3].
    split; [|exact H3].
    rewrite E3, E2.
    rewrite (sticky_sticky (Zpos p) (Zpos p)) by (try lia; auto).
    f_equal. lia.
  - apply code_shr_1, Hm.
Qed.

(** [shr] by [n >= 0] bits, on codes. *)
Lemma code_shr (r : shr_record) (e n : Z) :
  0 <= shr_m r -> 0 <= n ->
  code (fst (shr r e n)) = sticky n (code r)
  /\ 0 <= shr_m (fst (shr r e n))
  /\ snd (shr r e n) = e + n.
Proof.
  intros Hm Hn. destruct n as [|p|p]; try lia; cbn [shr fst snd].
  - rewrite sticky_0. split; [reflexivity|]. split; [exact Hm|lia].
  - destruct (code_iter_shr p r Hm). auto.
Qed.

Lemma round_nearest_even_code (r : shr_record) :
  round_nearest_even (shr_m r) (loc_of_shr_record r) = rne (code r).
Proof.
  unfold rne. destruct (code_parts r) as [-> ->].
  destruct r as [m rb sb]. cbn [shr_m shr_r shr_s loc_of_shr_record].
  rewrite <- Z.negb_even.
  destruct rb, sb; cbn [round_nearest_even Z.b2z]; cbn -[Z.even Z.add];
    try reflexivity.
  destruct (Z.even m); reflexivity.
Qed.

End ShiftRight.

Section RoundAux.

Lemma digits_bounds (p : positive) :
  2 ^ (Zpos (digits2_pos p) - 1) <= Zpos p < 2 ^ Zpos (digits2_pos p).
Proof.
  rewrite digits2_pos_size.
  pose proof (Pos.size_gt p) as Hgt. pose proof (Pos.size_le p) as Hle.
  apply Pos2Z.pos_lt_pos in Hgt. apply Pos2Z.pos_le_pos in Hle.
  rewrite Pos2Z.inj_pow in Hgt, Hle.
  change (Zpos 2) with 2 in *. rewrite (Pos2Z.inj_xO p) in Hle.
  set (d := Zpos (Pos.size p)) in *.
  assert (0 < d) by (subst d; lia).
  replace d with ((d - 1) + 1) in Hle at 1 by lia.
  rewrite pow2_succ in Hle by lia. lia.
Qed.

Lemma digits_unique (p : positive) (d : Z) :
  0 < d -> 2 ^ (d - 1) <= Zpos p < 2 ^ d -> Zpos (digits2_pos p) = d.
Proof.
  intros Hd H. pose proof (digits_bounds p) as Hb.
  set (d' := Zpos (digits2_pos p)) in *.
  assert (0 < d') by (subst d'; lia).
  destruct (Z.lt_trichotomy d' d) as [Hlt|[Heq|Hgt]]; [|exact Heq|].
  - assert (2 ^ d' <= 2 ^ (d - 1)) by (apply Z.pow_le_mono_r; lia). lia.
  - assert (2 ^ d <= 2 ^ (d' - 1)) by (apply Z.pow_le_mono_r; lia). lia.
Qed.

Lemma sticky_div4 (n T : Z) :
  0 <= n -> 0 <= T -> sticky n T / 4 = T / 2 ^ (n + 2).
Proof.
  intros Hn HT. unfold sticky.
  replace (n + 2) with ((n + 1) + 1) by lia. rewrite (pow2_succ (n + 1)) by lia.
  pose proof (pow2_pos (n + 1) ltac:(lia)) as HA. set (A := 2 ^ (n + 1)) in *.
  pose proof (Z.div_mod T A ltac:(lia)) as Hd.
  pose proof (Z.mod_pos_bound T A ltac:(lia)) as Hm.
  set (u := T / A) in *. set (v := T mod A) in *.
  pose proof (Z.div_mod u 2 ltac:(lia)) as Hd2.
  pose proof (Z.mod_pos_bound u 2 ltac:(lia)) as Hm2.
  destruct (div_mod_unique T (2 * A) (u / 2) (A * (u mod 2) + v))
    as [-> _]; [nia|nia|].
  destruct (Z.eqb_spec v 0); Z.div_mod_to_equations; lia.
Qed.

(** The mantissa obtained from the code [4 * m + c] shifted by [n]. *)
Lemma rounded_bounds (m c n : Z) :
  0 <= m -> 0 <= c < 4 -> 0 <= n ->
  m / 2 ^ n <= rne (sticky n (4 * m + c)) <= m / 2 ^ n + 1.
Proof.
  intros Hm Hc Hn.
  pose proof (rne_bounds (sticky n (4 * m + c))) as Hb.
  rewrite sticky_div4 in Hb by lia.
  replace (n + 2) with (2 + n) in Hb by lia.
  rewrite pow2_add in Hb by lia. change (2 ^ 2) with 4 in Hb.
  rewrite <- Z.div_div in Hb by (try lia; apply pow2_pos; lia).
  replace ((4 * m + c) / 4) with m in Hb by (Z.div_mod_to_equations; lia).
  exact Hb.
Qed.

Lemma rounded_fits (m c e : Z) :
  0 <= m -> 0 <= c < 4 ->
  e <= fexp prec emax (Zdigits2 m + e) ->
  fits (rne (sticky (fexp prec emax (Zdigits2 m + e) - e) (4 * m + c)))
       (fexp prec emax (Zdigits2 m + e)).
Proof.
  intros Hm Hc He. set (E := fexp prec emax (Zdigits2 m + e)) in *.
  pose proof (rounded_bounds m c (E - e) Hm Hc ltac:(lia)) as Hb.
  set (q := rne _) in *. pose proof (fexp_eq (Zdigits2 m + e)) as HE.
  fold E in HE. pose proof (pow2_pos (E - e) ltac:(lia)) as Hp.
  assert (H0 : 0 <= m / 2 ^ (E - e)) by (apply Z.div_pos; lia).
  unfold fits. destruct m as [|p|p]; [| |lia].
  - cbn [Zdigits2] in HE. rewrite Z.div_0_l in Hb by lia. lia.
  - cbn [Zdigits2] in HE. pose proof (digits_bounds p) as Hd.
    set (d := Zpos (digits2_pos p)) in *.
    assert (0 < d) by (subst d; lia).
    assert (Hup : Zpos p / 2 ^ (E - e) < 2 ^ 24).
    { apply Z.div_lt_upper_bound; [lia|].
      rewrite <- pow2_add by lia.
      assert (2 ^ d <= 2 ^ (E - e + 24)) by (apply Z.pow_le_mono_r; lia).
      lia. }
    split; [lia|]. split; [lia|].
    destruct (Z.eq_dec E (-149)) as [|Hne]; [left; assumption|right].
    assert (En : E - e = d - 24) by lia.
    rewrite En in Hb.
    assert (2 ^ 23 <= Zpos p / 2 ^ (d - 24)); [|lia].
    apply Z.div_le_lower_bound; [apply pow2_pos; lia|].
    rewrite <- pow2_add by lia. replace (d - 24 + 23) with (d - 1) by lia.
    lia.
Qed.

Lemma shr_fexp_parts (m e : Z) (l : location) :
  0 <= m -> e <= fexp prec emax (Zdigits2 m + e) ->
  code (fst (shr_fexp prec emax m e l))
  = sticky (fexp prec emax (Zdigits2 m + e) - e) (4 * m + loc_code l)
  /\ snd (shr_fexp prec emax m e l) = fexp prec emax (Zdigits2 m + e).
Proof.
  intros Hm He. unfold shr_fexp.
  destruct (code_shr (shr_record_of_loc m l) e
              (fexp prec emax (Zdigits2 m + e) - e)) as (E1 & _ & E2).
  - destruct l as [|[| |]]; exact Hm.
  - lia.
  - rewrite E1, code_of_loc. split; [reflexivity|]. rewrite E2. lia.
Qed.

Lemma binary_round_aux_encode (s : bool) (m e : Z) (l : location) :
  0 <= m -> e <= fexp prec emax (Zdigits2 m + e) ->
  binary_round_aux prec emax s m e l
  = encode s
      (rne (sticky (fexp prec emax (Zdigits2 m + e) - e)
              (4 * m + loc_code l)))
      (fexp prec emax (Zdigits2 m + e)).
Proof.
  intros Hm He.
  pose proof (rounded_fits m (loc_code l) e Hm (loc_code_bounds l) He) as Hf.
  destruct (shr_fexp_parts m e l Hm He) as [Ec Ee].
  unfold binary_round_aux.
  destruct (shr_fexp prec emax m e l) as [mrs' e'].
  cbn [fst snd] in Ec, Ee. subst e'.
  rewrite round_nearest_even_code, Ec.
  set (E := fexp prec emax (Zdigits2 m + e)) in *.
  set (q := rne _) in *.
  destruct Hf as ((Hq0 & Hq1) & HE & Hc).
  unfold shr_fexp. rewrite fexp_eq.
  destruct q as [|p|p] eqn:Eq; [| |lia].
  - cbn [Zdigits2 shr_record_of_loc].
    replace (Z.max (0 + E - 24) (-149) - E) with (-149 - E) by lia.
    destruct (-149 - E) eqn:En; try lia; reflexivity.
  - cbn [Zdigits2 shr_record_of_loc encode].
    pose proof (digits_bounds p) as Hd.
    set (d := Zpos (digits2_pos p)) in *.
    assert (0 < d) by (subst d; lia).
    destruct (Z.ltb_spec (Zpos p) (2 ^ 24)) as [Hlt|Hge].
    + assert (Hd24 : d <= 24).
      { destruct (Z_le_gt_dec d 24); [assumption|].
        assert (2 ^ 24 <= 2 ^ (d - 1)) by (apply Z.pow_le_mono_r; lia).
        lia. }
      assert (Hn : Z.max (d + E - 24) (-149) - E = 0).
      { destruct Hc as [Hc|Hc]; [lia|].
        assert (d = 24); [|lia].
        destruct (Z.eq_dec d 24); [assumption|].
        assert (2 ^ d <= 2 ^ 23) by (apply Z.pow_le_mono_r; lia). lia. }
      rewrite Hn. cbn [shr shr_m]. reflexivity.
    + assert (Hp : p = 16777216%positive) by lia. subst p.
      change (Zpos (digits2_pos 16777216)) with 25 in *. subst d.
      replace (Z.max (25 + E - 24) (-149) - E) with 1 by lia.
      cbn [shr iter_pos shr_1 shr_m orb]. reflexivity.
Qed.

End RoundAux.

Section Values.

Lemma INF_eq : INF = 2 ^ 277.
Proof. reflexivity. Qed.

Lemma INF_pos : 0 < INF.
Proof. rewrite INF_eq. apply pow2_pos. lia. Qed.

Lemma pow2_le (a b : Z) : 0 <= a <= b -> 2 ^ a <= 2 ^ b.
Proof. intros. apply Z.pow_le_mono_r; lia. Qed.

Lemma pow2_lt (a b : Z) : 0 <= a < b -> 2 ^ a < 2 ^ b.
Proof. intros. apply Z.pow_lt_mono_r; lia. Qed.

(** What validity says of a mantissa and an exponent. *)
Lemma valid_finite (s : bool) (m : positive) (e : Z) :
  valid_binary prec emax (S754_finite s m e) = true
  <-> (Zpos (digits2_pos m) <= 24 /\ -149 <= e <= 104
       /\ (e = -149 \/ Zpos (digits2_pos m) = 24)).
Proof.
  cbn [valid_binary]. unfold bounded, canonical_mantissa.
  rewrite andb_true_iff, Z.eqb_eq, Z.leb_le, fexp_eq.
  change (emax - prec) with 104. lia.
Qed.

Lemma valid_fits (s : bool) (m : positive) (e : Z) :
  valid_binary prec emax (S754_finite s m e) = true ->
  fits (Zpos m) e /\ Zpos m < 2 ^ 24 /\ e <= 104.
Proof.
  intros Hv. apply valid_finite in Hv. destruct Hv as (Hd & He & Hc).
  pose proof (digits_bounds m) as Hb.
  set (d := Zpos (digits2_pos m)) in *.
  assert (0 < d) by (subst d; lia).
  assert (2 ^ d <= 2 ^ 24) by (apply pow2_le; lia).
  unfold fits. split; [|lia]. split; [lia|]. split; [lia|].
  destruct Hc as [Hc|Hc]; [left; exact Hc|right].
  rewrite Hc in Hb. exact (proj1 Hb).
Qed.

Lemma xval_finite_bound (s : bool) (m : positive) (e : Z) :
  valid_binary prec emax (S754_finite s m e) = true ->
  0 < Zpos m * 2 ^ (e + 149) < INF.
Proof.
  intros Hv. destruct (valid_fits s m e Hv) as (((_ & _) & He & _) & Hm & He').
  pose proof (pow2_pos (e + 149) ltac:(lia)) as Hp.
  assert (2 ^ (e + 149) <= 2 ^ 253) by (apply pow2_le; lia).
  rewrite INF_eq. replace 277 with (24 + 253) by lia.
  rewrite (pow2_add 24 253) by lia. nia.
Qed.

Lemma encode_valid (s : bool) (q E : Z) :
  fits q E -> valid_binary prec emax (encode s q E) = true.
Proof.
  intros ((Hq0 & Hq1) & HE & Hc). unfold encode.
  destruct q as [|p|p]; [reflexivity| |lia].
  destruct (Z.ltb_spec (Zpos p) (2 ^ 24)) as [Hlt|Hge].
  - destruct (Z.leb_spec E 104); [|reflexivity].
    apply valid_finite. pose proof (digits_bounds p) as Hb.
    set (d := Zpos (digits2_pos p)) in *.
    assert (0 < d) by (subst d; lia).
    assert (Hd : d <= 24).
    { destruct (Z_le_gt_dec d 24); [assumption|].
      assert (2 ^ 24 <= 2 ^ (d - 1)) by (apply pow2_le; lia). lia. }
    split; [exact Hd|]. split; [lia|].
    destruct Hc as [Hc|Hc]; [left; exact Hc|right].
    destruct (Z.eq_dec d 24); [assumption|].
    assert (2 ^ d <= 2 ^ 23) by (apply pow2_le; lia). lia.
  - destruct (Z.leb_spec (E + 1) 104); [|reflexivity].
    apply valid_finite. change (Zpos (digits2_pos 8388608)) with 24. lia.
Qed.

Lemma encode_not_nan (s : bool) (q E : Z) :
  0 <= q -> SF_nan (encode s q E) = false.
Proof.
  intros Hq. unfold encode. destruct q as [|p|p]; [reflexivity| |lia].
  destruct (Zpos p <? 2 ^ 24);
    [destruct (E <=? 104)|destruct (E + 1 <=? 104)]; reflexivity.
Qed.

Lemma xval_encode (s : bool) (q E : Z) :
  fits q E ->
  xval (encode s q E) = cond_Zopp s (Z.min (q * 2 ^ (E + 149)) INF).
Proof.
  intros ((Hq0 & Hq1) & HE & Hc). unfold encode.
  pose proof (pow2_pos (E + 149) ltac:(lia)) as Hp.
  destruct q as [|p|p]; [|clear Hq0|lia].
  - cbn [xval]. pose proof INF_pos. rewrite Z.mul_0_l, Z.min_l by lia.
    destruct s; reflexivity.
  - destruct (Z.ltb_spec (Zpos p) (2 ^ 24)) as [Hlt|Hge].
    + destruct (Z.leb_spec E 104) as [HE'|HE']; cbn [xval]; f_equal.
      * rewrite Z.min_l; [reflexivity|].
        assert (2 ^ (E + 149) <= 2 ^ 253) by (apply pow2_le; lia).
        rewrite INF_eq. replace 277 with (24 + 253) by lia.
        rewrite (pow2_add 24 253) by lia. nia.
      * rewrite Z.min_r; [reflexivity|].
        assert (2 ^ 254 <= 2 ^ (E + 149)) by (apply pow2_le; lia).
        rewrite INF_eq. replace 277 with (23 + 254) by lia.
        rewrite (pow2_add 23 254) by lia. nia.
    + assert (Hq : Zpos p = 2 ^ 24) by lia. rewrite Hq.
      destruct (Z.leb_spec (E + 1) 104) as [HE'|HE']; cbn [xval]; f_equal.
      * replace (E + 1 + 149) with ((E + 149) + 1) by lia.
        rewrite (pow2_succ (E + 149)) by lia.
        rewrite Z.min_l.
        -- change (Zpos 8388608) with (2 ^ 23).
           change (2 ^ 24) with (2 * 2 ^ 23). lia.
        -- assert (2 ^ (E + 149) <= 2 ^ 252) by (apply pow2_le; lia).
           rewrite INF_eq. replace 277 with (24 + 253) by lia.
           rewrite (pow2_add 24 253) by lia.
           replace 253 with (252 + 1) by lia. rewrite (pow2_succ 252) by lia.
           nia.
      * rewrite Z.min_r; [reflexivity|].
        assert (2 ^ 253 <= 2 ^ (E + 149)) by (apply pow2_le; lia).
        rewrite INF_eq. replace 277 with (24 + 253) by lia.
        rewrite (pow2_add 24 253) by lia. nia.
Qed.

End Values.

Section IntegerRounding.

Lemma Zdigits2_bounds (N : Z) :
  0 < N -> 0 < Zdigits2 N /\ 2 ^ (Zdigits2 N - 1) <= N < 2 ^ Zdigits2 N.
Proof.
  destruct N as [|p|p]; try lia. intros _. cbn [Zdigits2].
  split; [lia|apply digits_bounds].
Qed.

Lemma Zdigits2_unique (N d : Z) :
  0 < d -> 2 ^ (d - 1) <= N < 2 ^ d -> Zdigits2 N = d.
Proof.
  intros Hd H. assert (0 < N).
  { pose proof (pow2_pos (d - 1) ltac:(lia)). lia. }
  destruct N as [|p|p]; try lia. cbn [Zdigits2].
  now apply digits_unique.
Qed.

Lemma Zdigits2_nonneg (N : Z) : 0 <= N -> 0 <= Zdigits2 N.
Proof. destruct N; cbn [Zdigits2]; lia. Qed.

Lemma Zdigits2_scale (M k : Z) :
  0 < M -> 0 <= k -> Zdigits2 (M * 2 ^ k) = Zdigits2 M + k.
Proof.
  intros HM Hk. destruct (Zdigits2_bounds M HM) as (Hd & Hb).
  pose proof (pow2_pos k Hk) as Hp.
  apply Zdigits2_unique; [lia|].
  replace (Zdigits2 M + k - 1) with ((Zdigits2 M - 1) + k) by lia.
  rewrite !pow2_add by lia. nia.
Qed.

Lemma Zdigits2_mono (N1 N2 : Z) :
  0 <= N1 <= N2 -> Zdigits2 N1 <= Zdigits2 N2.
Proof.
  intros H. destruct (Z.eq_dec N1 0) as [->|Hn].
  - apply Zdigits2_nonneg. lia.
  - destruct (Zdigits2_bounds N1 ltac:(lia)) as (Hd1 & Hb1).
    destruct (Zdigits2_bounds N2 ltac:(lia)) as (Hd2 & Hb2).
    destruct (Z_le_gt_dec (Zdigits2 N1) (Zdigits2 N2)); [assumption|].
    assert (2 ^ Zdigits2 N2 <= 2 ^ (Zdigits2 N1 - 1))
      by (apply pow2_le; lia).
    lia.
Qed.

Lemma sh_nonneg (N : Z) : 0 <= dropped_bits N.
Proof. unfold dropped_bits. lia. Qed.

Lemma Rq_bounds (N : Z) :
  0 <= N -> N / 2 ^ dropped_bits N <= round_mantissa N <= N / 2 ^ dropped_bits N + 1.
Proof.
  intros HN. unfold round_mantissa.
  pose proof (rounded_bounds N 0 (dropped_bits N) HN ltac:(lia) (sh_nonneg N)) as H.
  now rewrite Z.add_0_r in H.
Qed.

Lemma Rq_nonneg (N : Z) : 0 <= N -> 0 <= round_mantissa N.
Proof.
  intros HN. pose proof (Rq_bounds N HN).
  pose proof (pow2_pos (dropped_bits N) (sh_nonneg N)).
  assert (0 <= N / 2 ^ dropped_bits N) by (apply Z.div_pos; lia). lia.
Qed.

Lemma R_nonneg (N : Z) : 0 <= N -> 0 <= round_units N.
Proof.
  intros HN. unfold round_units. pose proof (Rq_nonneg N HN).
  pose proof (pow2_pos (dropped_bits N) (sh_nonneg N)). nia.
Qed.

Lemma R_0 : round_units 0 = 0.
Proof. reflexivity. Qed.

(** Below: the rounded value is at least 2^(d-1), above: at most 2^d. *)
Lemma R_between (N : Z) :
  0 < N -> 2 ^ (Zdigits2 N - 1) <= round_units N <= 2 ^ Zdigits2 N.
Proof.
  intros HN. destruct (Zdigits2_bounds N HN) as (Hd & Hb).
  pose proof (Rq_bounds N ltac:(lia)) as Hq. unfold round_units.
  pose proof (pow2_pos (dropped_bits N) (sh_nonneg N)) as Hp.
  set (d := Zdigits2 N) in *. set (k := dropped_bits N) in *.
  assert (Hk : 0 <= k <= d - 1 \/ (k = 0 /\ d <= 24)) by (unfold k, dropped_bits; lia).
  assert (Hk' : 0 <= k <= d) by lia.
  pose proof (Z.div_mod N (2 ^ k) ltac:(lia)) as Hdm.
  pose proof (Z.mod_pos_bound N (2 ^ k) ltac:(lia)) as Hmb.
  assert (Elo : 2 ^ (d - 1) = 2 ^ (d - 1 - k) * 2 ^ k).
  { rewrite <- pow2_add by lia. f_equal. lia. }
  assert (Ehi : 2 ^ d = 2 ^ (d - k) * 2 ^ k).
  { rewrite <- pow2_add by lia. f_equal. lia. }
  assert (Hlo : 2 ^ (d - 1 - k) <= N / 2 ^ k).
  { apply Z.div_le_lower_bound; lia. }
  assert (Hhi : N / 2 ^ k < 2 ^ (d - k)).
  { apply Z.div_lt_upper_bound; lia. }
  split; nia.
Qed.

Lemma Rq_mono_same (N1 N2 : Z) :
  0 <= N1 <= N2 -> dropped_bits N1 = dropped_bits N2 -> round_mantissa N1 <= round_mantissa N2.
Proof.
  intros H E. unfold round_mantissa. rewrite E.
  apply rne_mono, sticky_mono; [apply sh_nonneg|lia].
Qed.

(** Rounding is monotone. *)
Lemma R_mono (N1 N2 : Z) : 0 <= N1 <= N2 -> round_units N1 <= round_units N2.
Proof.
  intros H. destruct (Z.eq_dec N1 0) as [->|Hn].
  - rewrite R_0. apply R_nonneg. lia.
  - pose proof (Zdigits2_mono N1 N2 H) as Hd.
    destruct (Z.eq_dec (dropped_bits N1) (dropped_bits N2)) as [E|E].
    + unfold round_units. rewrite E.
      pose proof (Rq_mono_same N1 N2 H E).
      pose proof (pow2_pos (dropped_bits N2) (sh_nonneg N2)). nia.
    + pose proof (R_between N1 ltac:(lia)) as H1.
      pose proof (R_between N2 ltac:(lia)) as H2.
      assert (Zdigits2 N1 < Zdigits2 N2) by (unfold dropped_bits in E; lia).
      destruct (Zdigits2_bounds N1 ltac:(lia)) as (Hp1 & _).
      assert (2 ^ Zdigits2 N1 <= 2 ^ (Zdigits2 N2 - 1))
        by (apply pow2_le; lia).
      lia.
Qed.

(** A value of the format is its own rounding. *)
Lemma Rq_exact (M j : Z) :
  0 < M -> 0 <= j -> dropped_bits (M * 2 ^ j) <= j ->
  round_mantissa (M * 2 ^ j) = M * 2 ^ (j - dropped_bits (M * 2 ^ j)).
Proof.
  intros HM Hj Hs. unfold round_mantissa. set (k := dropped_bits (M * 2 ^ j)) in *.
  assert (Hk : 0 <= k) by apply sh_nonneg.
  replace (4 * (M * 2 ^ j)) with ((4 * (M * 2 ^ (j - k))) * 2 ^ k).
  - rewrite sticky_shift by lia. apply rne_exact.
  - replace j with ((j - k) + k) at 2 by lia.
    rewrite (pow2_add (j - k) k) by lia. lia.
Qed.

Lemma Rq_scale (M j : Z) :
  0 < M -> 0 <= j -> j <= dropped_bits (M * 2 ^ j) ->
  round_mantissa (M * 2 ^ j) = rne (sticky (dropped_bits (M * 2 ^ j) - j) (4 * M)).
Proof.
  intros HM Hj Hs. unfold round_mantissa. set (k := dropped_bits (M * 2 ^ j)) in *.
  replace k with ((k - j) + j) at 1 by lia.
  rewrite <- sticky_sticky by lia.
  replace (4 * (M * 2 ^ j)) with ((4 * M) * 2 ^ j) by lia.
  now rewrite sticky_shift by lia.
Qed.

Lemma R_exact (M j : Z) :
  0 < M -> 0 <= j -> dropped_bits (M * 2 ^ j) <= j -> round_units (M * 2 ^ j) = M * 2 ^ j.
Proof.
  intros HM Hj Hs. unfold round_units. rewrite Rq_exact by assumption.
  rewrite <- Z.mul_assoc, <- pow2_add by (pose proof (sh_nonneg (M * 2 ^ j)); lia).
  do 2 f_equal. lia.
Qed.

Lemma pos_iter_xO (m d : positive) :
  Zpos (Pos.iter xO m d) = Zpos m * 2 ^ Zpos d.
Proof.
  induction d as [|d IH] using Pos.peano_ind.
  - cbn [Pos.iter]. rewrite (Pos2Z.inj_xO m). change (2 ^ 1) with 2. lia.
  - rewrite Pos.iter_succ, (Pos2Z.inj_xO (Pos.iter xO m d)), IH.
    rewrite Pos2Z.inj_succ, <- Z.add_1_r, pow2_succ by lia. lia.
Qed.

Lemma shl_align_value (m : positive) (e e' : Z) :
  Zpos (fst (shl_align m e e')) = Zpos m * 2 ^ (e - Z.min e e')
  /\ snd (shl_align m e e') = Z.min e e'.
Proof.
  unfold shl_align. destruct (e' - e) as [|d|d] eqn:Ed; cbn [fst snd].
  - replace (Z.min e e') with e by lia. rewrite Z.sub_diag.
    change (2 ^ 0) with 1. lia.
  - replace (Z.min e e') with e by lia. rewrite Z.sub_diag.
    change (2 ^ 0) with 1. lia.
  - replace (Z.min e e') with e' by lia. rewrite pos_iter_xO.
    split; [|reflexivity]. do 2 f_equal. lia.
Qed.

(** [binary_round] rounds the value. *)
Lemma binary_round_encode (s : bool) (m : positive) (e : Z) :
  -149 <= e ->
  binary_round prec emax s m e
  = encode s (round_mantissa (Zpos m * 2 ^ (e + 149)))
      (dropped_bits (Zpos m * 2 ^ (e + 149)) - 149)
  /\ fits (round_mantissa (Zpos m * 2 ^ (e + 149)))
       (dropped_bits (Zpos m * 2 ^ (e + 149)) - 149).
Proof.
  intros He. unfold binary_round.
  set (E0 := fexp prec emax (Zpos (digits2_pos m) + e)).
  pose proof (fexp_eq (Zpos (digits2_pos m) + e)) as HE0. fold E0 in HE0.
  assert (Hsh : dropped_bits (Zpos m * 2 ^ (e + 149)) = E0 + 149).
  { unfold dropped_bits. rewrite Zdigits2_scale by lia. cbn [Zdigits2]. lia. }
  destruct (shl_align_value m e E0) as [Ev Ee].
  destruct (shl_align m e E0) as [mz ez]. cbn [fst snd] in Ev, Ee. subst ez.
  assert (Hdz : Zdigits2 (Zpos mz) + Z.min e E0 = Zpos (digits2_pos m) + e).
  { rewrite Ev, Zdigits2_scale by lia. cbn [Zdigits2]. lia. }
  assert (Hpre : Z.min e E0
                 <= fexp prec emax (Zdigits2 (Zpos mz) + Z.min e E0)).
  { rewrite Hdz. fold E0. lia. }
  pose proof (rounded_fits (Zpos mz) 0 (Z.min e E0) ltac:(lia) ltac:(lia) Hpre)
    as Hf.
  rewrite (binary_round_aux_encode s (Zpos mz) (Z.min e E0) loc_Exact)
    by (try lia; exact Hpre).
  cbn [loc_code]. rewrite Hdz in *. fold E0 in Hf |- *.
  rewrite Z.add_0_r in *. rewrite Hsh.
  replace (E0 + 149 - 149) with E0 by lia.
  assert (Eq : round_mantissa (Zpos m * 2 ^ (e + 149))
               = rne (sticky (E0 - Z.min e E0) (4 * Zpos mz))).
  { destruct (Z_le_gt_dec e E0) as [Hle|Hgt].
    - replace (Z.min e E0) with e in * by lia.
      replace (e - e) with 0 in Ev by lia. change (2 ^ 0) with 1 in Ev.
      rewrite Z.mul_1_r in Ev. rewrite Ev.
      rewrite Rq_scale by lia. rewrite Hsh. do 2 f_equal. lia.
    - replace (Z.min e E0) with E0 in * by lia.
      rewrite Z.sub_diag, sticky_0, rne_exact, Ev.
      replace (Zpos m * 2 ^ (e + 149))
        with ((Zpos m * 2 ^ (e - E0)) * 2 ^ (E0 + 149)).
      + pose proof (pow2_pos (e - E0) ltac:(lia)).
        rewrite Rq_exact; try nia.
        * replace (Zpos m * 2 ^ (e - E0) * 2 ^ (E0 + 149))
            with (Zpos m * 2 ^ (e + 149)).
          -- rewrite Hsh. replace (E0 + 149 - (E0 + 149)) with 0 by lia.
             change (2 ^ 0) with 1. lia.
          -- rewrite <- Z.mul_assoc, <- pow2_add by lia. do 2 f_equal. lia.
        * replace (Zpos m * 2 ^ (e - E0) * 2 ^ (E0 + 149))
            with (Zpos m * 2 ^ (e + 149)); [lia|].
          rewrite <- Z.mul_assoc, <- pow2_add by lia. do 2 f_equal. lia.
      + rewrite <- Z.mul_assoc, <- pow2_add by lia. do 2 f_equal. lia. }
  rewrite Eq. split; [reflexivity|exact Hf].
Qed.

End IntegerRounding.

Section SignedRounding.

Lemma rnd_0 : rnd 0 = 0.
Proof. reflexivity. Qed.

Lemma rnd_opp (N : Z) : rnd (- N) = - rnd N.
Proof.
  unfold rnd. destruct (Z.ltb_spec N 0), (Z.ltb_spec (- N) 0); try lia.
  - rewrite Z.opp_involutive. lia.
  - replace N with 0 by lia. cbn [Z.opp]. rewrite R_0.
    pose proof INF_pos. lia.
Qed.

Lemma rnd_nonneg (N : Z) : 0 <= N -> 0 <= rnd N.
Proof.
  intros H. unfold rnd. destruct (Z.ltb_spec N 0); [lia|].
  pose proof (R_nonneg N H). pose proof INF_pos. lia.
Qed.

Lemma rnd_pos (N : Z) : 0 < N -> 0 < rnd N.
Proof.
  intros H. unfold rnd. destruct (Z.ltb_spec N 0); [lia|].
  pose proof (R_between N H) as Hb. destruct (Zdigits2_bounds N H) as (Hd & _).
  pose proof (pow2_pos (Zdigits2 N - 1) ltac:(lia)). pose proof INF_pos. lia.
Qed.

Lemma rnd_mono (N1 N2 : Z) : N1 <= N2 -> rnd N1 <= rnd N2.
Proof.
  intros H. unfold rnd at 2. destruct (Z.ltb_spec N2 0) as [H2|H2].
  - unfold rnd. destruct (Z.ltb_spec N1 0); [|lia].
    pose proof (R_mono (- N2) (- N1) ltac:(lia)). lia.
  - unfold rnd. destruct (Z.ltb_spec N1 0) as [H1|H1].
    + pose proof (R_nonneg (- N1) ltac:(lia)).
      pose proof (R_nonneg N2 ltac:(lia)). pose proof INF_pos. lia.
    + pose proof (R_mono N1 N2 ltac:(lia)). lia.
Qed.

Lemma rnd_le_INF (N : Z) : - INF <= rnd N <= INF.
Proof.
  unfold rnd. pose proof INF_pos. destruct (Z.ltb_spec N 0).
  - pose proof (R_nonneg (- N) ltac:(lia)). lia.
  - pose proof (R_nonneg N ltac:(lia)). lia.
Qed.

Lemma cond_Zopp_mul (s : bool) (a b : Z) :
  cond_Zopp s a * b = cond_Zopp s (a * b).
Proof. destruct s; cbn [cond_Zopp]; lia. Qed.

(** The floats of the format are fixed points. *)
Lemma rnd_exact (x : spec_float) :
  valid_binary prec emax x = true -> SF_finite x = true ->
  rnd (xval x) = xval x.
Proof.
  intros Hv Hf. destruct x as [s|s| |s m e]; try discriminate; try reflexivity.
  cbn [xval]. pose proof (xval_finite_bound s m e Hv) as Hb.
  apply valid_finite in Hv. destruct Hv as (Hd & He & Hc).
  assert (HR : round_units (Zpos m * 2 ^ (e + 149)) = Zpos m * 2 ^ (e + 149)).
  { apply R_exact; try lia. unfold dropped_bits. rewrite Zdigits2_scale by lia.
    cbn [Zdigits2]. lia. }
  destruct s; cbn [cond_Zopp].
  - rewrite rnd_opp. unfold rnd.
    destruct (Z.ltb_spec (Zpos m * 2 ^ (e + 149)) 0); [lia|]. rewrite HR. lia.
  - unfold rnd.
    destruct (Z.ltb_spec (Zpos m * 2 ^ (e + 149)) 0); [lia|]. rewrite HR. lia.
Qed.

Lemma binary_normalize_value (M e : Z) (sz : bool) :
  -149 <= e ->
  valid_binary prec emax (binary_normalize prec emax M e sz) = true
  /\ SF_nan (binary_normalize prec emax M e sz) = false
  /\ xval (binary_normalize prec emax M e sz) = rnd (M * 2 ^ (e + 149)).
Proof.
  intros He. pose proof (pow2_pos (e + 149) ltac:(lia)) as Hp.
  destruct M as [|m|m]; cbn [binary_normalize].
  - repeat split.
  - destruct (binary_round_encode false m e He) as [-> Hf].
    split; [now apply encode_valid|].
    split; [apply encode_not_nan; apply Hf|].
    rewrite xval_encode by exact Hf. cbn [cond_Zopp]. unfold rnd.
    destruct (Z.ltb_spec (Zpos m * 2 ^ (e + 149)) 0); [lia|].
    unfold round_units. do 3 f_equal. lia.
  - destruct (binary_round_encode true m e He) as [-> Hf].
    split; [now apply encode_valid|].
    split; [apply encode_not_nan; apply Hf|].
    rewrite xval_encode by exact Hf. cbn [cond_Zopp]. unfold rnd.
    destruct (Z.ltb_spec (Zneg m * 2 ^ (e + 149)) 0); [|lia].
    replace (- (Zneg m * 2 ^ (e + 149))) with (Zpos m * 2 ^ (e + 149)) by lia.
    unfold round_units. do 4 f_equal. lia.
Qed.

Lemma aligned_value (s : bool) (m : positive) (e e' : Z) :
  -149 <= e' <= e ->
  cond_Zopp s (Zpos (fst (shl_align m e e'))) * 2 ^ (e' + 149)
  = xval (S754_finite s m e).
Proof.
  intros H. destruct (shl_align_value m e e') as [-> _].
  replace (Z.min e e') with e' by lia.
  rewrite cond_Zopp_mul. cbn [xval]. f_equal.
  rewrite <- Z.mul_assoc, <- pow2_add by lia. do 2 f_equal. lia.
Qed.

(** Addition and subtraction of finite floats round the exact result. *)
Lemma SFadd_value (x y : spec_float) :
  valid_binary prec emax x = true -> valid_binary prec emax y = true ->
  SF_finite x = true -> SF_finite y = true ->
  valid_binary prec emax (SFadd prec emax x y) = true
  /\ SF_nan (SFadd prec emax x y) = false
  /\ xval (SFadd prec emax x y) = rnd (xval x + xval y).
Proof.
  intros Hx Hy Fx Fy.
  destruct x as [sx|sx| |sx mx ex]; try discriminate;
    destruct y as [sy|sy| |sy my ey]; try discriminate.
  - destruct sx, sy; repeat split.
  - cbn [SFadd]. split; [exact Hy|]. split; [reflexivity|].
    change (xval (S754_zero sx)) with 0. rewrite Z.add_0_l.
    symmetry. now apply rnd_exact.
  - cbn [SFadd]. split; [exact Hx|]. split; [reflexivity|].
    change (xval (S754_zero sy)) with 0. rewrite Z.add_0_r.
    symmetry. now apply rnd_exact.
  - pose proof (proj1 (valid_finite _ _ _) Hx) as (_ & Hex & _).
    pose proof (proj1 (valid_finite _ _ _) Hy) as (_ & Hey & _).
    cbn [SFadd].
    destruct (binary_normalize_value
                (cond_Zopp sx (Zpos (fst (shl_align mx ex (Z.min ex ey))))
                 + cond_Zopp sy (Zpos (fst (shl_align my ey (Z.min ex ey)))))
                (Z.min ex ey) false ltac:(lia)) as (Hv & Hn & He).
    split; [exact Hv|]. split; [exact Hn|]. rewrite He. f_equal.
    rewrite Z.mul_add_distr_r, !aligned_value by lia. reflexivity.
Qed.

Lemma SFsub_value (x y : spec_float) :
  valid_binary prec emax x = true -> valid_binary prec emax y = true ->
  SF_finite x = true -> SF_finite y = true ->
  valid_binary prec emax (SFsub prec emax x y) = true
  /\ SF_nan (SFsub prec emax x y) = false
  /\ xval (SFsub prec emax x y) = rnd (xval x - xval y).
Proof.
  intros Hx Hy Fx Fy.
  destruct x as [sx|sx| |sx mx ex]; try discriminate;
    destruct y as [sy|sy| |sy my ey]; try discriminate.
  - destruct sx, sy; repeat split.
  - cbn [SFsub]. split; [exact Hy|]. split; [reflexivity|].
    change (xval (S754_zero sx)) with 0. rewrite Z.sub_0_l.
    rewrite rnd_opp, (rnd_exact (S754_finite sy my ey)) by assumption.
    cbn [xval]. destruct sy; cbn [cond_Zopp negb]; lia.
  - cbn [SFsub]. split; [exact Hx|]. split; [reflexivity|].
    change (xval (S754_zero sy)) with 0. rewrite Z.sub_0_r.
    symmetry. now apply rnd_exact.
  - pose proof (proj1 (valid_finite _ _ _) Hx) as (_ & Hex & _).
    pose proof (proj1 (valid_finite _ _ _) Hy) as (_ & Hey & _).
    cbn [SFsub].
    destruct (binary_normalize_value
                (cond_Zopp sx (Zpos (fst (shl_align mx ex (Z.min ex ey))))
                 - cond_Zopp sy (Zpos (fst (shl_align my ey (Z.min ex ey)))))
                (Z.min ex ey) false ltac:(lia)) as (Hv & Hn & He).
    split; [exact Hv|]. split; [exact Hn|]. rewrite He. f_equal.
    rewrite Z.mul_sub_distr_r, !aligned_value by lia. reflexivity.
Qed.

End SignedRounding.

Section Comparison.

Lemma canonical_compare (m1 m2 : positive) (e1 e2 : Z) :
  fits (Zpos m1) e1 -> Zpos m1 < 2 ^ 24 ->
  fits (Zpos m2) e2 -> Zpos m2 < 2 ^ 24 ->
  match e1 ?= e2 with
  | Lt => Lt
  | Gt => Gt
  | Eq => Pos.compare_cont Eq m1 m2
  end
  = (Zpos m1 * 2 ^ (e1 + 149) ?= Zpos m2 * 2 ^ (e2 + 149)).
Proof.
  intros (_ & H1 & C1) L1 (_ & H2 & C2) L2.
  pose proof (pow2_pos (e1 + 149) ltac:(lia)) as P1.
  pose proof (pow2_pos (e2 + 149) ltac:(lia)) as P2.
  symmetry. destruct (Z.compare_spec e1 e2) as [E|E|E].
  - subst e2. change (Pos.compare_cont Eq m1 m2) with (Zpos m1 ?= Zpos m2).
    destruct (Z.compare_spec (Zpos m1) (Zpos m2)) as [F|F|F].
    + rewrite F. apply Z.compare_refl.
    + apply Z.compare_lt_iff. nia.
    + apply Z.compare_gt_iff. nia.
  - apply Z.compare_lt_iff.
    assert (2 * 2 ^ (e1 + 149) <= 2 ^ (e2 + 149)).
    { rewrite <- pow2_succ by lia. apply pow2_le. lia. }
    destruct C2 as [C2|C2]; [lia|].
    change (2 ^ 24) with (2 * 2 ^ 23) in L1. nia.
  - apply Z.compare_gt_iff.
    assert (2 * 2 ^ (e2 + 149) <= 2 ^ (e1 + 149)).
    { rewrite <- pow2_succ by lia. apply pow2_le. lia. }
    destruct C1 as [C1|C1]; [lia|].
    change (2 ^ 24) with (2 * 2 ^ 23) in L2. nia.
Qed.

(** Comparison compares the values. *)
Lemma SFcompare_value (x y : spec_float) :
  valid_binary prec emax x = true -> valid_binary prec emax y = true ->
  SF_nan x = false -> SF_nan y = false ->
  SFcompare x y = Some (xval x ?= xval y).
Proof.
  intros Hx Hy Nx Ny. pose proof INF_pos as HI.
  destruct x as [sx|sx| |sx mx ex]; try discriminate;
    destruct y as [sy|sy| |sy my ey]; try discriminate;
    try (pose proof (xval_finite_bound _ _ _ Hx) as Bx);
    try (pose proof (xval_finite_bound _ _ _ Hy) as By);
    cbn [SFcompare xval]; f_equal; symmetry;
    try destruct sx; try destruct sy; cbn [cond_Zopp];
    try solve [first [apply Z.compare_eq_iff; lia
                     |apply Z.compare_lt_iff; lia
                     |apply Z.compare_gt_iff; lia]].
  - destruct (valid_fits _ _ _ Hx) as (Fx & Lx & _).
    destruct (valid_fits _ _ _ Hy) as (Fy & Ly & _).
    rewrite Z.compare_opp.
    rewrite <- (canonical_compare my mx ey ex) by assumption.
    rewrite (Z.compare_antisym ex ey).
    destruct (ex ?= ey); cbn [CompOpp]; try reflexivity.
    now rewrite Pos.compare_cont_antisym.
  - destruct (valid_fits _ _ _ Hx) as (Fx & Lx & _).
    destruct (valid_fits _ _ _ Hy) as (Fy & Ly & _).
    now rewrite (canonical_compare mx my ex ey) by assumption.
Qed.

End Comparison.

Section Division.

Lemma new_location_code (nb k : Z) :
  0 <= loc_code (new_location nb k) < 4
  /\ (loc_code (new_location nb k) = 0 <-> k = 0).
Proof.
  split; [apply loc_code_bounds|].
  unfold new_location, new_location_even, new_location_odd.
  destruct (Z.even nb), (Z.eqb_spec k 0); cbn [loc_code];
    try tauto;
    try match goal with
        | |- context [loc_Inexact ?c] => destruct c
        end; cbn [loc_code]; split; intros H; try lia; try discriminate;
    exfalso;
    repeat match type of H with
           | context [match ?c with _ => _ end] => destruct c
           end; cbn [loc_code] in H; discriminate.
Qed.

Lemma fexp_mono (a b : Z) : a <= b -> fexp prec emax a <= fexp prec emax b.
Proof. intros. rewrite !fexp_eq. lia. Qed.

(** The quotient has the digits the exponent was chosen for. *)
Lemma quotient_digits (m1 m2 s : Z) :
  0 < m1 -> 0 < m2 -> 0 <= s ->
  Zdigits2 m1 + s - Zdigits2 m2 <= Zdigits2 (m1 * 2 ^ s / m2).
Proof.
  intros H1 H2 Hs.
  destruct (Zdigits2_bounds m1 H1) as (Hd1 & Hb1).
  destruct (Zdigits2_bounds m2 H2) as (Hd2 & Hb2).
  pose proof (pow2_pos s Hs) as Hp.
  set (q := m1 * 2 ^ s / m2).
  assert (Hq : 0 <= q) by (apply Z.div_pos; nia).
  set (k := Zdigits2 m1 + s - Zdigits2 m2).
  destruct (Z_le_gt_dec k 0) as [Hk|Hk];
    [pose proof (Zdigits2_nonneg q Hq); lia|].
  assert (Hlow : 2 ^ (k - 1) <= q).
  { apply Z.div_le_lower_bound; [lia|].
    assert (E : 2 ^ (Zdigits2 m1 - 1) * 2 ^ s = 2 ^ (k - 1) * 2 ^ Zdigits2 m2).
    { rewrite <- !pow2_add by lia. f_equal. lia. }
    pose proof (pow2_pos (k - 1) ltac:(lia)). nia. }
  pose proof (pow2_pos (k - 1) ltac:(lia)).
  destruct (Zdigits2_bounds q ltac:(lia)) as (Hdq & Hbq).
  destruct (Z_le_gt_dec k (Zdigits2 q)); [assumption|].
  assert (2 ^ Zdigits2 q <= 2 ^ (k - 1)) by (apply pow2_le; lia). lia.
Qed.

(** The quotient of two finite floats against one. *)
Lemma SFdiv_finite (sx sy : bool) (mx my : positive) (ex ey : Z) :
  valid_binary prec emax (S754_finite sx mx ex) = true ->
  valid_binary prec emax (S754_finite sy my ey) = true ->
  exists Q : Z,
    valid_binary prec emax
      (SFdiv prec emax (S754_finite sx mx ex) (S754_finite sy my ey)) = true
    /\ SF_nan (SFdiv prec emax (S754_finite sx mx ex) (S754_finite sy my ey))
       = false
    /\ xval (SFdiv prec emax (S754_finite sx mx ex) (S754_finite sy my ey))
       = cond_Zopp (xorb sx sy) Q
    /\ 0 <= Q
    /\ (Zpos mx * 2 ^ (ex + 149) <= Zpos my * 2 ^ (ey + 149) -> Q <= 2 ^ 149)
    /\ (Zpos my * 2 ^ (ey + 149) <= Zpos mx * 2 ^ (ex + 149) -> 2 ^ 149 <= Q).
Proof.
  intros Hx Hy.
  pose proof (proj1 (valid_finite _ _ _) Hx) as (Hdx & Hex & _).
  pose proof (proj1 (valid_finite _ _ _) Hy) as (Hdy & Hey & _).
  cbn [SFdiv]. unfold SFdiv_core_binary. cbn [Zdigits2].
  set (d1 := Zpos (digits2_pos mx)) in *.
  set (d2 := Zpos (digits2_pos my)) in *.
  assert (Hd1 : 0 < d1) by (subst d1; lia).
  assert (Hd2 : 0 < d2) by (subst d2; lia).
  set (e' := Z.min (fexp prec emax (d1 + ex - (d2 + ey))) (ex - ey)).
  set (s := ex - ey - e').
  assert (Hs : 0 <= s) by (subst s e'; lia).
  set (m' := match s with
             | 0 => Zpos mx
             | Zpos _ => Z.shiftl (Zpos mx) s
             | Zneg _ => 0
             end).
  assert (Hm' : m' = Zpos mx * 2 ^ s).
  { subst m'. destruct s as [|p|p] eqn:Es.
    - change (2 ^ 0) with 1. lia.
    - rewrite Z.shiftl_mul_pow2 by lia. reflexivity.
    - lia. }
  pose proof (pow2_pos s Hs) as Hps.
  pose proof (Z_div_mod m' (Zpos my) ltac:(lia)) as Hdm.
  pose proof (quotient_digits (Zpos mx) (Zpos my) s ltac:(lia) ltac:(lia) Hs)
    as Hqd.
  rewrite <- Hm' in Hqd. cbn [Zdigits2] in Hqd. fold d1 d2 in Hqd.
  assert (Eq : m' / Zpos my = fst (Z.div_eucl m' (Zpos my))) by reflexivity.
  rewrite Eq in Hqd. clear Eq.
  destruct (Z.div_eucl m' (Zpos my)) as [q r]. cbn [fst] in Hqd.
  destruct Hdm as (Hdiv & Hr).
  assert (Hq : 0 <= q) by nia.
  destruct (new_location_code (Zpos my) r) as (Hc & Hc0).
  set (c := loc_code (new_location (Zpos my) r)) in *.
  assert (Hpre : e' <= fexp prec emax (Zdigits2 q + e')).
  { transitivity (fexp prec emax (d1 + ex - (d2 + ey))); [subst e'; lia|].
    apply fexp_mono. subst s. lia. }
  rewrite (binary_round_aux_encode _ q e' _ Hq Hpre). fold c.
  pose proof (rounded_fits q c e' Hq Hc Hpre) as Hf.
  set (E := fexp prec emax (Zdigits2 q + e')) in *.
  set (q2 := rne (sticky (E - e') (4 * q + c))) in *.
  exists (Z.min (q2 * 2 ^ (E + 149)) INF).
  split; [now apply encode_valid|].
  split; [apply encode_not_nan, Hf|].
  split; [now apply xval_encode|].
  destruct Hf as ((Hq20 & Hq21) & HE & Hcan).
  pose proof (pow2_pos (E + 149) ltac:(lia)) as HpE.
  pose proof INF_pos as HI.
  assert (H149 : 2 ^ 149 < INF) by (rewrite INF_eq; apply pow2_lt; lia).
  split; [nia|].
  (* the scaled numerator against the scaled denominator *)
  assert (Hscale : forall K, 0 <= K -> K = - e' ->
            m' * 2 ^ (ey + 149) = Zpos mx * 2 ^ (ex + 149) * 2 ^ K).
  { intros K HK EK. rewrite Hm', <- !Z.mul_assoc, <- !pow2_add by lia.
    do 2 f_equal. subst s. lia. }
  pose proof (pow2_pos (ey + 149) ltac:(lia)) as Hpy.
  pose proof (pow2_pos (ex + 149) ltac:(lia)) as Hpx.
  split.
  - intros HAB.
    destruct (digits_bounds mx) as (Hbx1 & Hbx2). fold d1 in Hbx1, Hbx2.
    destruct (digits_bounds my) as (Hby1 & Hby2). fold d2 in Hby1, Hby2.
    assert (Hdelta : d1 + ex - (d2 + ey) <= 0).
    { assert (P1 : 2 ^ ((d1 - 1) + (ex + 149)) <= Zpos mx * 2 ^ (ex + 149))
        by (rewrite (pow2_add (d1 - 1) (ex + 149)) by lia; nia).
      assert (P2 : Zpos my * 2 ^ (ey + 149) < 2 ^ (d2 + (ey + 149)))
        by (rewrite (pow2_add d2 (ey + 149)) by lia; nia).
      destruct (Z_le_gt_dec (d1 + ex - (d2 + ey)) 0); [assumption|].
      assert (2 ^ (d2 + (ey + 149)) <= 2 ^ ((d1 - 1) + (ex + 149)))
        by (apply pow2_le; lia).
      lia. }
    assert (He' : e' <= -24).
    { subst e'. rewrite fexp_eq. lia. }
    set (K := - e'). assert (HK : 0 <= K) by (subst K; lia).
    pose proof (pow2_pos K HK) as HpK.
    pose proof (Hscale K HK eq_refl) as Hsc.
    assert (Hm2 : m' <= 2 ^ K * Zpos my) by nia.
    assert (Hq1 : q <= 2 ^ K) by nia.
    assert (HT : 4 * q + c <= 4 * 2 ^ K).
    { destruct (Z.eq_dec q (2 ^ K)) as [Eq|Nq]; [|lia].
      assert (r = 0) by nia. apply Hc0 in H. lia. }
    (* the exponent of the result is not positive *)
    assert (HdK : Zdigits2 q <= K + 1).
    { destruct (Z.eq_dec q 0) as [->|Hq0]; [cbn [Zdigits2]; lia|].
      destruct (Zdigits2_bounds q ltac:(lia)) as (Hdq & Hbq).
      destruct (Z_le_gt_dec (Zdigits2 q) (K + 1)); [assumption|].
      assert (2 ^ (K + 1) <= 2 ^ (Zdigits2 q - 1)) by (apply pow2_le; lia).
      rewrite pow2_succ in H by lia. lia. }
    assert (HE0 : E <= -23) by (subst E; rewrite fexp_eq; lia).
    assert (Hn : 0 <= E - e') by lia.
    assert (Hq2 : q2 <= 2 ^ (- E)).
    { subst q2.
      transitivity (rne (sticky (E - e') (4 * 2 ^ K))).
      - apply rne_mono, sticky_mono; lia.
      - replace (4 * 2 ^ K) with ((4 * 2 ^ (- E)) * 2 ^ (E - e')).
        + rewrite sticky_shift by lia. rewrite rne_exact. lia.
        + rewrite <- Z.mul_assoc, <- pow2_add by lia. do 2 f_equal.
          subst K. lia. }
    assert (q2 * 2 ^ (E + 149) <= 2 ^ (- E) * 2 ^ (E + 149)) by nia.
    rewrite <- pow2_add in H by lia.
    replace (- E + (E + 149)) with 149 in H by lia. lia.
  - intros HBA.
    destruct (Z_le_gt_dec E 0) as [HE0|HE0].
    + assert (He' : e' <= 0) by lia.
      set (K := - e'). assert (HK : 0 <= K) by (subst K; lia).
      pose proof (pow2_pos K HK) as HpK.
      pose proof (Hscale K HK eq_refl) as Hsc.
      assert (Hm2 : 2 ^ K * Zpos my <= m') by nia.
      assert (Hq1 : 2 ^ K <= q) by nia.
      assert (Hq2 : 2 ^ (- E) <= q2).
      { subst q2.
        transitivity (rne (sticky (E - e') (4 * 2 ^ K))).
        - replace (4 * 2 ^ K) with ((4 * 2 ^ (- E)) * 2 ^ (E - e')).
          + rewrite sticky_shift by lia. rewrite rne_exact. lia.
          + rewrite <- Z.mul_assoc, <- pow2_add by lia. do 2 f_equal.
            subst K. lia.
        - apply rne_mono, sticky_mono; [lia|].
          pose proof (pow2_pos K HK). lia. }
      assert (2 ^ (- E) * 2 ^ (E + 149) <= q2 * 2 ^ (E + 149)) by nia.
      rewrite <- pow2_add in H by lia.
      replace (- E + (E + 149)) with 149 in H by lia. lia.
    + destruct Hcan as [Hcan|Hcan]; [lia|].
      assert (2 ^ 149 <= 2 ^ (E + 149)) by (apply pow2_le; lia).
      assert (1 <= q2) by (pose proof (pow2_pos 23 ltac:(lia)); lia).
      nia.
Qed.

End Division.

Section BitPatterns.

(** Encoding a float of the format and decoding it gives it back. *)
Lemma to_of_spec (r : spec_float) :
  valid_binary prec emax r = true -> to_spec (of_spec r) = r.
Proof.
  intros Hv. destruct r as [s|s| |s m e].
  - apply to_of_spec_zero.
  - apply to_of_spec_infinity.
  - apply to_of_spec_nan.
  - destruct (valid_fits s m e Hv) as (((_ & _) & He & Hc) & Hm & He').
    apply valid_finite in Hv. destruct Hv as (Hd & _ & Hc').
    pose proof (digits_bounds m) as Hb.
    unfold of_spec.
    assert (Hsw : sign_word s = 0 \/ sign_word s = 2 ^ 31)
      by (destruct s; cbn [sign_word]; auto).
    destruct (Z.ltb_spec (Zpos m) (2 ^ 23)) as [Hlt|Hge].
    + assert (e = -149) by lia. subst e.
      unfold to_spec, sign_bit, biased_exp, fraction.
      assert (E1 : (sign_word s + Zpos m) mod 2 ^ 32 = sign_word s + Zpos m)
        by (apply Z.mod_small; lia).
      assert (E2 : ((sign_word s + Zpos m) / 2 ^ 23) mod 2 ^ 8 = 0)
        by (Z.div_mod_to_equations; lia).
      assert (E3 : (sign_word s + Zpos m) mod 2 ^ 23 = Zpos m)
        by (Z.div_mod_to_equations; lia).
      rewrite E1, E2, E3. cbn [Z.eqb].
      f_equal. destruct s; cbn [sign_word];
        [apply Z.leb_le|apply Z.leb_gt]; lia.
    + set (w := sign_word s + (e + 150) * 2 ^ 23 + (Zpos m - 2 ^ 23)).
      unfold to_spec, sign_bit, biased_exp, fraction.
      assert (E1 : w mod 2 ^ 32 = w)
        by (apply Z.mod_small; subst w; lia).
      assert (E2 : (w / 2 ^ 23) mod 2 ^ 8 = e + 150)
        by (subst w; Z.div_mod_to_equations; lia).
      assert (E3 : w mod 2 ^ 23 = Zpos m - 2 ^ 23)
        by (subst w; Z.div_mod_to_equations; lia).
      rewrite E1, E2, E3.
      destruct (Z.eqb_spec (e + 150) 0); [lia|].
      destruct (Z.eqb_spec (e + 150) 255); [lia|].
      replace (Zpos m - 2 ^ 23 + 2 ^ 23) with (Zpos m) by lia.
      f_equal; [|lia].
      subst w. destruct s; cbn [sign_word];
        [apply Z.leb_le|apply Z.leb_gt]; lia.
Qed.

Lemma of_spec_wf (r : spec_float) :
  valid_binary prec emax r = true -> wf (of_spec r).
Proof.
  intros Hv. unfold wf. destruct r as [s|s| |s m e]; unfold of_spec.
  - destruct s; cbn [sign_word]; lia.
  - destruct s; cbn [sign_word]; lia.
  - lia.
  - destruct (valid_fits s m e Hv) as (((_ & _) & He & Hc) & Hm & He').
    destruct (Z.ltb_spec (Zpos m) (2 ^ 23));
      destruct s; cbn [sign_word]; lia.
Qed.

(** Validity of the results of the operations. *)
Lemma SFadd_valid (x y : spec_float) :
  valid_binary prec emax x = true -> valid_binary prec emax y = true ->
  valid_binary prec emax (SFadd prec emax x y) = true.
Proof.
  intros Hx Hy.
  destruct (SF_finite x) eqn:Fx, (SF_finite y) eqn:Fy.
  - now apply SFadd_value.
  - destruct x as [sx|sx| |sx mx ex], y as [sy|sy| |sy my ey];
      try discriminate; try reflexivity.
  - destruct x as [sx|sx| |sx mx ex], y as [sy|sy| |sy my ey];
      try discriminate; try reflexivity.
  - destruct x as [sx|sx| |sx mx ex], y as [sy|sy| |sy my ey];
      try discriminate; try reflexivity; destruct sx, sy; reflexivity.
Qed.

Lemma SFsub_valid (x y : spec_float) :
  valid_binary prec emax x = true -> valid_binary prec emax y = true ->
  valid_binary prec emax (SFsub prec emax x y) = true.
Proof.
  intros Hx Hy.
  destruct (SF_finite x) eqn:Fx, (SF_finite y) eqn:Fy.
  - now apply SFsub_value.
  - destruct x as [sx|sx| |sx mx ex], y as [sy|sy| |sy my ey];
      try discriminate; try reflexivity.
  - destruct x as [sx|sx| |sx mx ex], y as [sy|sy| |sy my ey];
      try discriminate; try reflexivity.
  - destruct x as [sx|sx| |sx mx ex], y as [sy|sy| |sy my ey];
      try discriminate; try reflexivity; destruct sx, sy; reflexivity.
Qed.

Lemma SFdiv_valid (x y : spec_float) :
  valid_binary prec emax x = true -> valid_binary prec emax y = true ->
  valid_binary prec emax (SFdiv prec emax x y) = true.
Proof.
  intros Hx Hy.
  destruct x as [sx|sx| |sx mx ex], y as [sy|sy| |sy my ey];
    try reflexivity.
  destruct (SFdiv_finite sx sy mx my ex ey Hx Hy) as (Q & Hv & _).
  exact Hv.
Qed.

Lemma to_spec_fadd (x y : float) :
  to_spec (x + y)%f32 = SFadd prec emax (to_spec x) (to_spec y).
Proof. apply to_of_spec, SFadd_valid; apply to_spec_valid. Qed.

Lemma to_spec_fsub (x y : float) :
  to_spec (x - y)%f32 = SFsub prec emax (to_spec x) (to_spec y).
Proof. apply to_of_spec, SFsub_valid; apply to_spec_valid. Qed.

Lemma to_spec_fdiv (x y : float) :
  to_spec (x / y)%f32 = SFdiv prec emax (to_spec x) (to_spec y).
Proof. apply to_of_spec, SFdiv_valid; apply to_spec_valid. Qed.

Lemma to_spec_mul_one (x : float) :
  to_spec (of_int 1 * x)%f32 = to_spec x.
Proof.
  unfold fmul. rewrite to_spec_one. pose proof (to_spec_valid x) as Hv.
  destruct (to_spec x) as [s|s| |s m e] eqn:E.
  - apply to_of_spec_zero.
  - apply to_of_spec_infinity.
  - apply to_of_spec_nan.
  - rewrite SFmul_one_l by exact Hv. now apply to_of_spec.
Qed.

(** The product of the literal 0 and a float: a zero, or a NaN when the
    float is not finite. *)
Lemma to_spec_mul_zero (x : float) :
  (is_finite x = true /\ exists s, to_spec (of_int 0 * x)%f32 = S754_zero s)
  \/ (is_finite x = false /\ to_spec (of_int 0 * x)%f32 = S754_nan).
Proof.
  unfold fmul, is_finite. rewrite to_spec_zero.
  destruct (to_spec x) as [s|s| |s m e]; cbn [SFmul xorb].
  - left. split; [reflexivity|]. exists s. apply to_of_spec_zero.
  - right. split; [reflexivity|]. apply to_of_spec_nan.
  - right. split; [reflexivity|]. apply to_of_spec_nan.
  - left. split; [reflexivity|]. exists s. apply to_of_spec_zero.
Qed.

End BitPatterns.

Section Quotients.

Lemma val_bound (r : spec_float) (V : Z) : has_value r V -> - INF <= V <= INF.
Proof.
  intros (Hv & Hn & <-). pose proof INF_pos.
  destruct r as [s|s| |s m e]; try discriminate; cbn [xval].
  - lia.
  - destruct s; cbn [cond_Zopp]; lia.
  - pose proof (xval_finite_bound s m e Hv).
    destruct s; cbn [cond_Zopp]; lia.
Qed.

Lemma val_finite (r : spec_float) (V : Z) :
  has_value r V -> (SF_finite r = true <-> - INF < V < INF).
Proof.
  intros (Hv & Hn & <-). pose proof INF_pos.
  destruct r as [s|s| |s m e]; try discriminate; cbn [xval SF_finite].
  - split; [lia|reflexivity].
  - split; [discriminate|]. destruct s; cbn [cond_Zopp]; lia.
  - pose proof (xval_finite_bound s m e Hv).
    split; [|reflexivity]. destruct s; cbn [cond_Zopp]; lia.
Qed.

Lemma val_zero_inv (r : spec_float) :
  has_value r 0 -> exists s, r = S754_zero s.
Proof.
  intros (Hv & Hn & Hx). pose proof INF_pos.
  destruct r as [s|s| |s m e]; try discriminate; cbn [xval] in Hx.
  - eauto.
  - destruct s; cbn [cond_Zopp] in Hx; lia.
  - pose proof (xval_finite_bound s m e Hv).
    destruct s; cbn [cond_Zopp] in Hx; lia.
Qed.

Lemma val_zero (s : bool) : has_value (S754_zero s) 0.
Proof. repeat split. Qed.

Lemma val_opp (r : spec_float) (V : Z) : has_value r V -> has_value (SFopp r) (- V).
Proof.
  intros (Hv & Hn & <-).
  destruct r as [s|s| |s m e]; try discriminate; repeat split; try exact Hv;
    cbn [SFopp xval]; destruct s; cbn [negb cond_Zopp]; lia.
Qed.

Lemma val_add (r1 r2 : spec_float) (V1 V2 : Z) :
  has_value r1 V1 -> has_value r2 V2 -> - INF < V1 < INF -> - INF < V2 < INF ->
  has_value (SFadd prec emax r1 r2) (rnd (V1 + V2)).
Proof.
  intros H1 H2 B1 B2.
  pose proof (proj2 (val_finite r1 V1 H1) B1) as F1.
  pose proof (proj2 (val_finite r2 V2 H2) B2) as F2.
  destruct H1 as (Hv1 & _ & <-), H2 as (Hv2 & _ & <-).
  destruct (SFadd_value r1 r2 Hv1 Hv2 F1 F2) as (Hv & Hn & Hx).
  repeat split; assumption.
Qed.

Lemma val_sub (r1 r2 : spec_float) (V1 V2 : Z) :
  has_value r1 V1 -> has_value r2 V2 -> - INF < V1 < INF -> - INF < V2 < INF ->
  has_value (SFsub prec emax r1 r2) (rnd (V1 - V2)).
Proof.
  intros H1 H2 B1 B2.
  pose proof (proj2 (val_finite r1 V1 H1) B1) as F1.
  pose proof (proj2 (val_finite r2 V2 H2) B2) as F2.
  destruct H1 as (Hv1 & _ & <-), H2 as (Hv2 & _ & <-).
  destruct (SFsub_value r1 r2 Hv1 Hv2 F1 F2) as (Hv & Hn & Hx).
  repeat split; assumption.
Qed.

Lemma val_add_zero_r (r : spec_float) (V : Z) (s : bool) :
  has_value r V -> has_value (SFadd prec emax r (S754_zero s)) V.
Proof.
  intros (Hv & Hn & <-).
  destruct r as [s'|s'| |s' m e]; try discriminate; cbn [SFadd].
  - destruct s', s; repeat split.
  - repeat split.
  - repeat split. exact Hv.
Qed.

Lemma val_add_zero_l (r : spec_float) (V : Z) (s : bool) :
  has_value r V -> has_value (SFadd prec emax (S754_zero s) r) V.
Proof.
  intros (Hv & Hn & <-).
  destruct r as [s'|s'| |s' m e]; try discriminate; cbn [SFadd].
  - destruct s', s; repeat split.
  - repeat split.
  - repeat split. exact Hv.
Qed.

Lemma SFadd_nan_l (y : spec_float) : SFadd prec emax S754_nan y = S754_nan.
Proof. reflexivity. Qed.

Lemma SFadd_nan_r (x : spec_float) : SFadd prec emax x S754_nan = S754_nan.
Proof. destruct x; reflexivity. Qed.

Lemma SFdiv_nan_r (x : spec_float) : SFdiv prec emax x S754_nan = S754_nan.
Proof. destruct x; reflexivity. Qed.

Lemma xval_one : xval SF_one = 2 ^ 149.
Proof. reflexivity. Qed.

Lemma in_unit_nan : in_unit S754_nan = false.
Proof. reflexivity. Qed.

Lemma in_unit_val (r : spec_float) (V : Z) :
  has_value r V -> (in_unit r = true <-> 0 <= V < 2 ^ 149).
Proof.
  intros (Hv & Hn & <-). unfold in_unit, SFleb, SFltb.
  rewrite (SFcompare_value (S754_zero false) r) by (try assumption; reflexivity).
  rewrite (SFcompare_value r SF_one) by (try assumption; reflexivity).
  rewrite xval_one. change (xval (S754_zero false)) with 0.
  destruct (Z.compare_spec 0 (xval r)), (Z.compare_spec (xval r) (2 ^ 149));
    cbn [andb]; split; intros; try discriminate; try reflexivity; lia.
Qed.

Lemma is_one_val (r : spec_float) (V : Z) :
  has_value r V -> (SFeqb r SF_one = true <-> V = 2 ^ 149).
Proof.
  intros (Hv & Hn & <-). unfold SFeqb.
  rewrite (SFcompare_value r SF_one) by (try assumption; reflexivity).
  rewrite xval_one.
  destruct (Z.compare_spec (xval r) (2 ^ 149));
    split; intros; try discriminate; try reflexivity; lia.
Qed.

(** The quotient of two floats of the format, by cases. *)
Lemma quotient_val (N D : spec_float) (n d : Z) :
  has_value N n -> has_value D d ->
  (n = 0 /\ d <> 0 /\ exists s, SFdiv prec emax N D = S754_zero s)
  \/ (n <> 0 /\ Z.abs n < INF /\ Z.abs d = INF
      /\ exists s, SFdiv prec emax N D = S754_zero s)
  \/ ((d = 0 \/ Z.abs n = INF) /\ in_unit (SFdiv prec emax N D) = false)
  \/ (n <> 0 /\ d <> 0 /\ Z.abs n < INF /\ Z.abs d < INF
      /\ exists Q : Z,
           has_value (SFdiv prec emax N D) (if n * d <? 0 then - Q else Q)
           /\ 0 <= Q
           /\ (Z.abs n <= Z.abs d -> Q <= 2 ^ 149)
           /\ (Z.abs d <= Z.abs n -> 2 ^ 149 <= Q)).
Proof.
  intros (HvN & HnN & <-) (HvD & HnD & <-). pose proof INF_pos as HI.
  destruct N as [sx|sx| |sx mx ex]; try discriminate;
    destruct D as [sy|sy| |sy my ey]; try discriminate;
    try (pose proof (xval_finite_bound _ _ _ HvN) as Bx);
    try (pose proof (xval_finite_bound _ _ _ HvD) as By);
    cbn [xval SFdiv].
  - right; right; left. split; [left; reflexivity|reflexivity].
  - left. split; [reflexivity|]. split; [destruct sy; cbn [cond_Zopp]; lia|].
    eauto.
  - left. split; [reflexivity|]. split; [destruct sy; cbn [cond_Zopp]; lia|].
    eauto.
  - right; right; left. split; [left; reflexivity|].
    destruct sx, sy; reflexivity.
  - right; right; left. split; [right; destruct sx; cbn [cond_Zopp]; lia|].
    reflexivity.
  - right; right; left. split; [right; destruct sx; cbn [cond_Zopp]; lia|].
    destruct sx, sy; reflexivity.
  - right; right; left. split; [left; reflexivity|].
    destruct sx, sy; reflexivity.
  - right; left.
    split; [destruct sx; cbn [cond_Zopp]; lia|].
    split; [destruct sx; cbn [cond_Zopp]; lia|].
    split; [destruct sy; cbn [cond_Zopp]; lia|]. eauto.
  - right; right; right.
    destruct (SFdiv_finite sx sy mx my ex ey HvN HvD)
      as (Q & Hv & Hn & Hx & HQ & Hle & Hge).
    cbn [SFdiv] in Hv, Hn, Hx.
    split; [destruct sx; cbn [cond_Zopp]; lia|].
    split; [destruct sy; cbn [cond_Zopp]; lia|].
    split; [destruct sx; cbn [cond_Zopp]; lia|].
    split; [destruct sy; cbn [cond_Zopp]; lia|].
    exists Q. split; [|split; [exact HQ|]].
    + split; [exact Hv|]. split; [exact Hn|]. rewrite Hx.
      destruct sx, sy; cbn [cond_Zopp xorb];
        match goal with
        | |- context [?t <? 0] => destruct (Z.ltb_spec t 0)
        end; try reflexivity; nia.
    + split; intros H; [apply Hle|apply Hge];
        destruct sx, sy; cbn [cond_Zopp] in H; lia.
Qed.

(** An edge that ends where it starts in value: numerator and
    denominator are equal. *)
Lemma quotient_equal (N D : spec_float) (n : Z) :
  has_value N n -> has_value D n -> in_unit (SFdiv prec emax N D) = false.
Proof.
  intros HN HD.
  destruct (quotient_val N D n n HN HD)
    as [(H1 & H2 & _)|[(H1 & H2 & H3 & _)|[(_ & H)|(H1 & _ & _ & _ & Q & HQ & Q0 & _ & Hge)]]];
    try lia; try exact H.
  destruct (Z.ltb_spec (n * n) 0); [nia|].
  destruct (in_unit (SFdiv prec emax N D)) eqn:E; [|reflexivity].
  apply (in_unit_val _ Q HQ) in E. specialize (Hge ltac:(lia)). lia.
Qed.

Lemma quotient_zero (N D : spec_float) (d : Z) :
  has_value N 0 -> has_value D d -> d <> 0 ->
  exists s, SFdiv prec emax N D = S754_zero s.
Proof.
  intros HN HD Hd. pose proof INF_pos.
  destruct (quotient_val N D 0 d HN HD)
    as [(_ & _ & H1)|[(H1 & _)|[([H1|H1] & _)|(H1 & _)]]];
    try lia; try exact H1.
Qed.

Lemma quotient_outside (N D : spec_float) (n d : Z) :
  has_value N n -> has_value D d -> n <> 0 ->
  n * d <= 0 \/ Z.abs d <= Z.abs n ->
  in_unit (SFdiv prec emax N D) = true ->
  exists s, SFdiv prec emax N D = S754_zero s.
Proof.
  intros HN HD Hn Hc Hu.
  destruct (quotient_val N D n d HN HD)
    as [(H1 & _)|[(_ & _ & _ & H1)|[(_ & H1)
       |(_ & Hd & _ & _ & Q & HQ & Q0 & _ & Hge)]]];
    try lia; try exact H1; try congruence.
  apply (in_unit_val _ _ HQ) in Hu.
  destruct (Z.ltb_spec (n * d) 0).
  - assert (Q = 0) by lia. subst Q. now apply val_zero_inv.
  - destruct Hc as [Hc|Hc]; [nia|]. specialize (Hge Hc). lia.
Qed.

Lemma quotient_inside (N D : spec_float) (n d : Z) :
  has_value N n -> has_value D d -> 0 < n * d ->
  Z.abs n <= Z.abs d < INF ->
  SFeqb (SFdiv prec emax N D) SF_one = false ->
  in_unit (SFdiv prec emax N D) = true.
Proof.
  intros HN HD Hs Hb H1.
  destruct (quotient_val N D n d HN HD)
    as [(E & _)|[(_ & _ & E & _)|[([E|E] & _)
       |(_ & Hd & _ & _ & Q & HQ & Q0 & Hle & _)]]];
    try nia; try lia.
  destruct (Z.ltb_spec (n * d) 0); [lia|].
  apply (in_unit_val _ _ HQ). specialize (Hle ltac:(lia)).
  destruct (Z.eq_dec Q (2 ^ 149)) as [E|E]; [|lia].
  apply (is_one_val _ _ HQ) in E. congruence.
Qed.

End Quotients.

Section AxisPlanes.

Lemma slice_along_eq (k : axis) (ts : list STLPolygon) (h : float) :
  slice_along k ts h
  = slice_polygons_at ts (axis_a k) (axis_b k) (axis_c k) (- h)%f32.
Proof. destruct k; reflexivity. Qed.

Lemma val_to_spec (v : float) :
  is_finite v = true -> has_value (to_spec v) (fval v) /\ - INF < fval v < INF.
Proof.
  intros Hf.
  assert (Hv : has_value (to_spec v) (fval v)).
  { split; [apply to_spec_valid|]. split; [|reflexivity].
    unfold is_finite in Hf. destruct (to_spec v); try discriminate; reflexivity. }
  split; [exact Hv|]. apply (val_finite _ _ Hv). exact Hf.
Qed.

Lemma sum_x (T : spec_float) (s2 s3 : bool) (V : Z) :
  has_value T V ->
  has_value (SFadd prec emax (SFadd prec emax T (S754_zero s2)) (S754_zero s3)) V.
Proof. intros H. now apply val_add_zero_r, val_add_zero_r. Qed.

Lemma sum_y (T : spec_float) (s1 s3 : bool) (V : Z) :
  has_value T V ->
  has_value (SFadd prec emax (SFadd prec emax (S754_zero s1) T) (S754_zero s3)) V.
Proof. intros H. now apply val_add_zero_r, val_add_zero_l. Qed.

Lemma sum_z (T : spec_float) (s1 s2 : bool) (V : Z) :
  has_value T V ->
  has_value (SFadd prec emax (SFadd prec emax (S754_zero s1) (S754_zero s2)) T) V.
Proof.
  intros H.
  destruct (val_zero_inv _ (val_add_zero_l _ _ s1 (val_zero s2))) as [s ->].
  now apply val_add_zero_l.
Qed.

(** The plane expression of a point: its coordinate minus [h], rounded. *)
Lemma axis_plane_value (k : axis) (h : float) (v : STLVector) :
  is_finite h = true -> finite_vector v ->
  has_value (to_spec (plane_value v (axis_a k) (axis_b k) (axis_c k) (- h)%f32))
      (rnd (along k v - fval h)).
Proof.
  intros Hh (Fx & Fy & Fz). unfold along.
  destruct (val_to_spec h Hh) as (Vh & Bh).
  unfold plane_value. rewrite !to_spec_fadd, to_spec_fneg.
  replace (fval (coordinate k v) - fval h)
    with (fval (coordinate k v) + - fval h) by lia.
  destruct k; cbn [axis_a axis_b axis_c coordinate];
    rewrite to_spec_mul_one;
    repeat match goal with
           | |- context [to_spec (of_int 0 * ?t)%f32] =>
               destruct (to_spec_mul_zero t) as [(_ & ? & ->)|(? & _)];
               [|congruence]
           end.
  - destruct (val_to_spec _ Fx) as (V & B).
    apply val_add; [now apply sum_x|now apply val_opp|lia|lia].
  - destruct (val_to_spec _ Fy) as (V & B).
    apply val_add; [now apply sum_y|now apply val_opp|lia|lia].
  - destruct (val_to_spec _ Fz) as (V & B).
    apply val_add; [now apply sum_z|now apply val_opp|lia|lia].
Qed.

Lemma axis_span (c1 c2 : float) :
  is_finite c1 = true -> is_finite c2 = true ->
  has_value (to_spec (c2 - c1)%f32) (rnd (fval c2 - fval c1)).
Proof.
  intros F1 F2. rewrite to_spec_fsub.
  destruct (val_to_spec _ F1), (val_to_spec _ F2). now apply val_sub.
Qed.

Lemma is_finite_spec (v : float) : is_finite v = SF_finite (to_spec v).
Proof. reflexivity. Qed.

(** The denominator of an edge: a NaN when a difference along another
    axis overflows, otherwise the difference along the axis, rounded. *)
Lemma axis_denominator (k : axis) (e : STLSegment) :
  finite_vector (p e) -> finite_vector (q e) ->
  (to_spec (plane_denominator e (axis_a k) (axis_b k) (axis_c k)) = S754_nan
   \/ has_value (to_spec (plane_denominator e (axis_a k) (axis_b k) (axis_c k)))
        (rnd (along k (q e) - along k (p e))))
  /\ (span_finite e ->
      has_value (to_spec (plane_denominator e (axis_a k) (axis_b k) (axis_c k)))
        (rnd (along k (q e) - along k (p e)))
      /\ - INF < rnd (along k (q e) - along k (p e)) < INF).
Proof.
  intros (Fx1 & Fy1 & Fz1) (Fx2 & Fy2 & Fz2). unfold along.
  pose proof (axis_span _ _ Fx1 Fx2) as Sx.
  pose proof (axis_span _ _ Fy1 Fy2) as Sy.
  pose proof (axis_span _ _ Fz1 Fz2) as Sz.
  unfold plane_denominator, span_finite. rewrite !to_spec_fadd.
  destruct k; cbn [axis_a axis_b axis_c coordinate];
    rewrite to_spec_mul_one;
    repeat match goal with
           | |- context [to_spec (of_int 0 * ?t)%f32] =>
               let Hf := fresh "Hf" in
               destruct (to_spec_mul_zero t) as [(Hf & ? & ->)|(Hf & ->)]
           end;
    rewrite ?SFadd_nan_l, ?SFadd_nan_r;
    (split; [first [left; reflexivity|right]|intros (Gx & Gy & Gz)]);
    try congruence;
    try (split;
         [|first [apply (val_finite _ _ Sx), Gx|apply (val_finite _ _ Sy), Gy
                 |apply (val_finite _ _ Sz), Gz]]);
    first [now apply sum_x|now apply sum_y|now apply sum_z].
Qed.

Lemma to_spec_parameter (e : STLSegment) (a b c d : float) :
  to_spec (edge_parameter e a b c d)
  = SFdiv prec emax (SFopp (to_spec (plane_value (p e) a b c d)))
      (to_spec (plane_denominator e a b c)).
Proof. unfold edge_parameter. now rewrite to_spec_fdiv, to_spec_fneg. Qed.

Lemma crosses_in_unit (t : float) : crosses t = in_unit (to_spec t).
Proof. apply crosses_spec. Qed.

Section Edge.

Variable k : axis.
Variable h : float.
Variable e : STLSegment.
Hypothesis Hh : is_finite h = true.
Hypothesis Hp : finite_vector (p e).
Hypothesis Hq : finite_vector (q e).

Lemma to_spec_axis_parameter :
  to_spec (axis_parameter k h e)
  = SFdiv prec emax
      (SFopp (to_spec (plane_value (p e) (axis_a k) (axis_b k) (axis_c k)
                         (- h)%f32)))
      (to_spec (plane_denominator e (axis_a k) (axis_b k) (axis_c k))).
Proof.
  unfold axis_parameter.
  now rewrite segment_plane_intersection_eq, to_spec_parameter.
Qed.

Lemma numerator_val :
  has_value
    (SFopp (to_spec (plane_value (p e) (axis_a k) (axis_b k) (axis_c k)
                       (- h)%f32)))
    (- rnd (along k (p e) - fval h)).
Proof. apply val_opp, axis_plane_value; assumption. Qed.

Lemma denominator_val :
  to_spec (plane_denominator e (axis_a k) (axis_b k) (axis_c k)) = S754_nan
  \/ has_value
       (to_spec (plane_denominator e (axis_a k) (axis_b k) (axis_c k)))
       (rnd (along k (q e) - along k (p e))).
Proof. exact (proj1 (axis_denominator k e Hp Hq)). Qed.

Lemma denominator_finite :
  span_finite e ->
  has_value
    (to_spec (plane_denominator e (axis_a k) (axis_b k) (axis_c k)))
    (rnd (along k (q e) - along k (p e)))
  /\ - INF < rnd (along k (q e) - along k (p e)) < INF.
Proof. exact (proj2 (axis_denominator k e Hp Hq)). Qed.

Lemma rnd_neg (N : Z) : N < 0 -> rnd N < 0.
Proof.
  intros HN. replace N with (- - N) by lia. rewrite rnd_opp.
  pose proof (rnd_pos (- N) ltac:(lia)). lia.
Qed.

Lemma rnd_sub_opp (u v : Z) : rnd (u - v) = - rnd (v - u).
Proof. rewrite <- rnd_opp. f_equal. lia. Qed.

(** An edge that ends on the plane does not cross. *)
Lemma edge_entering :
  along k (q e) = fval h -> crosses (axis_parameter k h e) = false.
Proof.
  intros E. rewrite crosses_in_unit, to_spec_axis_parameter.
  destruct denominator_val as [->|HD].
  - now rewrite SFdiv_nan_r.
  - apply (quotient_equal _ _ _ numerator_val).
    rewrite E, rnd_sub_opp in HD. exact HD.
Qed.

(** An edge that starts on the plane and leaves it has parameter zero. *)
Lemma edge_leaving :
  along k (p e) = fval h -> along k (q e) <> fval h -> span_finite e ->
  is_zero (axis_parameter k h e) = true.
Proof.
  intros E Hne Hs. unfold is_zero. rewrite to_spec_axis_parameter.
  destruct (denominator_finite Hs) as (HD & _).
  pose proof numerator_val as HN.
  rewrite E, Z.sub_diag, rnd_0 in HN. cbn [Z.opp] in HN.
  destruct (quotient_zero _ _ _ HN HD) as [s ->]; [|reflexivity].
  rewrite E.
  destruct (Z.lt_trichotomy (along k (q e)) (fval h)) as [L|[L|L]]; [|lia|].
  - pose proof (rnd_neg (along k (q e) - fval h) ltac:(lia)). lia.
  - pose proof (rnd_pos (along k (q e) - fval h) ltac:(lia)). lia.
Qed.

(** Both ends strictly on the same side: the parameter is outside
    [0, 1), unless it is a zero. *)
Lemma edge_same_side :
  (fval h < along k (p e) /\ fval h < along k (q e))
  \/ (along k (p e) < fval h /\ along k (q e) < fval h) ->
  crosses (axis_parameter k h e) = true ->
  is_zero (axis_parameter k h e) = true.
Proof.
  intros Hside. unfold is_zero.
  rewrite crosses_in_unit, to_spec_axis_parameter.
  destruct denominator_val as [->|HD].
  - rewrite SFdiv_nan_r. discriminate.
  - intros Hu. pose proof numerator_val as HN.
    set (cp := along k (p e)) in *. set (cq := along k (q e)) in *.
    set (ch := fval h) in *.
    destruct (quotient_outside _ _ _ _ HN HD) as [s ->];
      [| |exact Hu|reflexivity].
    + destruct Hside as [(S1 & _)|(S1 & _)].
      * pose proof (rnd_pos (cp - ch) ltac:(lia)). lia.
      * pose proof (rnd_neg (cp - ch) ltac:(lia)). lia.
    + destruct Hside as [(S1 & S2)|(S1 & S2)].
      * pose proof (rnd_pos (cp - ch) ltac:(lia)) as P.
        destruct (Z_le_gt_dec cp cq) as [L|L].
        -- left. pose proof (rnd_nonneg (cq - cp) ltac:(lia)). nia.
        -- right. pose proof (rnd_neg (cq - cp) ltac:(lia)) as Q.
           pose proof (rnd_mono (cp - cq) (cp - ch) ltac:(lia)) as M.
           rewrite (rnd_sub_opp cp cq) in M. lia.
      * pose proof (rnd_neg (cp - ch) ltac:(lia)) as P.
        destruct (Z_le_gt_dec cq cp) as [L|L].
        -- left.
           assert (rnd (cq - cp) <= 0).
           { destruct (Z.eq_dec cq cp) as [->|];
               [rewrite Z.sub_diag, rnd_0; lia|].
             pose proof (rnd_neg (cq - cp) ltac:(lia)). lia. }
           nia.
        -- right. pose proof (rnd_pos (cq - cp) ltac:(lia)) as Q.
           pose proof (rnd_mono (cp - ch) (cp - cq) ltac:(lia)) as M.
           rewrite (rnd_sub_opp cp cq) in M. lia.
Qed.

(** The ends strictly on opposite sides, no overflow: the parameter is
    in [0, 1), unless it is rounded to 1. *)
Lemma edge_opposite_sides :
  (fval h < along k (p e) /\ along k (q e) < fval h)
  \/ (along k (p e) < fval h /\ fval h < along k (q e)) ->
  span_finite e ->
  feq (axis_parameter k h e) (of_int 1) = false ->
  crosses (axis_parameter k h e) = true.
Proof.
  intros Hside Hs. unfold feq.
  rewrite crosses_in_unit, to_spec_axis_parameter, to_spec_one.
  destruct (denominator_finite Hs) as (HD & HB).
  pose proof numerator_val as HN.
  set (cp := along k (p e)) in *. set (cq := along k (q e)) in *.
  set (ch := fval h) in *.
  apply (quotient_inside _ _ _ _ HN HD).
  - destruct Hside as [(S1 & S2)|(S1 & S2)].
    + pose proof (rnd_pos (cp - ch) ltac:(lia)).
      pose proof (rnd_neg (cq - cp) ltac:(lia)). nia.
    + pose proof (rnd_neg (cp - ch) ltac:(lia)).
      pose proof (rnd_pos (cq - cp) ltac:(lia)). nia.
  - destruct Hside as [(S1 & S2)|(S1 & S2)].
    + pose proof (rnd_pos (cp - ch) ltac:(lia)).
      pose proof (rnd_neg (cq - cp) ltac:(lia)).
      pose proof (rnd_mono (cp - ch) (cp - cq) ltac:(lia)) as M.
      rewrite (rnd_sub_opp cp cq) in M. lia.
    + pose proof (rnd_neg (cp - ch) ltac:(lia)).
      pose proof (rnd_pos (cq - cp) ltac:(lia)).
      pose proof (rnd_mono (cp - cq) (cp - ch) ltac:(lia)) as M.
      rewrite (rnd_sub_opp cp cq) in M. lia.
Qed.

End Edge.

(** Comparisons of finite coordinates, on values. *)
Lemma flt_fval (u v : float) :
  is_finite u = true -> is_finite v = true ->
  (flt u v = true <-> fval u < fval v).
Proof.
  intros Fu Fv. destruct (val_to_spec u Fu) as ((Vu & Nu & _) & _).
  destruct (val_to_spec v Fv) as ((Vv & Nv & _) & _).
  unfold flt, SFltb. rewrite SFcompare_value by assumption. fold (fval u) (fval v).
  destruct (Z.compare_spec (fval u) (fval v));
    split; intros; try discriminate; try reflexivity; lia.
Qed.

Lemma feq_fval (u v : float) :
  is_finite u = true -> is_finite v = true ->
  (feq u v = true <-> fval u = fval v).
Proof.
  intros Fu Fv. destruct (val_to_spec u Fu) as ((Vu & Nu & _) & _).
  destruct (val_to_spec v Fv) as ((Vv & Nv & _) & _).
  unfold feq, SFeqb. rewrite SFcompare_value by assumption. fold (fval u) (fval v).
  destruct (Z.compare_spec (fval u) (fval v));
    split; intros; try discriminate; try reflexivity; lia.
Qed.

End AxisPlanes.

(** ** A vertex on the plane *)

Section OnPlane.

Lemma vertex_finite (t : STLPolygon) (i : nat) :
  finite_vector (a t) -> finite_vector (b t) -> finite_vector (c t) ->
  finite_vector (vertex t i).
Proof. intros. destruct i as [|[|i]]; assumption. Qed.

(** When the edge entering vertex [i] does not cross, the triangle yields
    the segment of the edge leaving [i] and the opposite edge, or
    nothing. *)
Lemma on_plane_cases (a b c d : float) (t : STLPolygon) (i : nat) :
  (i < 3)%nat ->
  crosses (edge_parameter (edge t (S (S i) mod 3)) a b c d) = false ->
  triangle_segments a b c d t
  = if crosses (edge_parameter (edge t i) a b c d)
       && crosses (edge_parameter (edge t (S i mod 3)) a b c d)
    then [ {| p := interpolate (edge t i) (edge_parameter (edge t i) a b c d);
              q := interpolate (edge t (S i mod 3))
                     (edge_parameter (edge t (S i mod 3)) a b c d) |} ]
    else [].
Proof.
  intros Hi. rewrite triangle_segments_cases. cbv beta zeta.
  destruct i as [|[|[|i]]]; [| | |lia];
    cbn [Nat.modulo Nat.divmod fst snd Nat.sub]; intros ->;
    destruct (crosses (edge_parameter (edge t 0) a b c d));
    destruct (crosses (edge_parameter (edge t 1) a b c d));
    destruct (crosses (edge_parameter (edge t 2) a b c d));
    reflexivity.
Qed.

End OnPlane.

(** ** Results are floats *)

Section ResultsAreFloats.

Lemma fadd_wf (u v : float) : wf (u + v)%f32.
Proof. apply of_spec_wf, SFadd_valid; apply to_spec_valid. Qed.

Lemma fdiv_wf (u v : float) : wf (u / v)%f32.
Proof. apply of_spec_wf, SFdiv_valid; apply to_spec_valid. Qed.

Lemma interpolate_wf (e : STLSegment) (t : float) :
  wf_vector (interpolate e t).
Proof. unfold interpolate, wf_vector. cbn [x y z]. auto using fadd_wf. Qed.

Lemma triangle_segments_wf (a b c d : float) (t : STLPolygon) :
  Forall (fun s => wf_vector (p s) /\ wf_vector (q s))
         (triangle_segments a b c d t).
Proof.
  unfold triangle_segments.
  destruct (find _ _) as [[e1 e2]|]; constructor; [|constructor].
  cbn [p q]. split; apply interpolate_wf.
Qed.

Lemma slice_wf (ts : list STLPolygon) (a b c d : float) :
  Forall (fun s => wf_vector (p s) /\ wf_vector (q s)) (slice ts a b c d).
Proof.
  unfold slice. apply Forall_flat_map, Forall_forall.
  intros t _. apply triangle_segments_wf.
Qed.

End ResultsAreFloats.

(** * The properties of the specification *)

(** ** MeshParser *)

(** C1 as stated does not hold: a source with the 80-byte header, a
    declared count of 1 and only the 48 float bytes of the record (fewer
    than 50 x 1 bytes of records) is parsed without failure, into a valid
    object holding the triangle. *)
Lemma missing_attribute_bytes_accepted :
  (List.length Examples.without_attribute
   < 84 + 50 * declared_count Examples.without_attribute)%nat
  /\ STLReader_ctor
       (single_file Examples.file_name Examples.without_attribute)
       Examples.file_name
     = (EmptyString,
        Object {| header_ := Examples.header80;
                  polygons_ := [Examples.straddling];
                  valid := true |}).
Proof.
  split.
  - apply Nat.ltb_lt. vm_compute. reflexivity.
  - vm_compute. reflexivity.
Qed.

(** C1 (amended): for every byte source that ends inside the header or the
    count (fewer than 84 bytes), or before the twelve floats of some
    declared record are complete (fewer than 50 x N - 2 bytes of records
    after a declared count of N), the constructor throws, on every host:
    nothing is written to [std::cerr], no object is constructed, and so
    no decoded triangle reaches the caller.  The exception is
    [ios_base::failure] when the source has fewer than 84 bytes or
    [polygons_.resize(N)] obtains its storage; otherwise it is the
    exception of [resize]: [std::length_error] when N exceeds
    [max_size()], [std::bad_alloc] when the allocator refuses. *)
Theorem truncated_source_throws
    (h : host) (fs : filesystem) (path : string) (bytes : list Byte.byte) :
  fs path = Some bytes ->
  (List.length bytes < 84)%nat
  \/ (List.length bytes + 2 < 84 + 50 * declared_count bytes)%nat ->
  (exists e : exception,
      STLReader_ctor_in h fs path = (EmptyString, Exception e))
  /\ ((List.length bytes < 84)%nat
      \/ served h (Z.of_nat (declared_count bytes)) ->
      STLReader_ctor_in h fs path = (EmptyString, Exception ios_failure))
  /\ ((84 <= List.length bytes)%nat ->
      max_size h < Z.of_nat (declared_count bytes) ->
      STLReader_ctor_in h fs path = (EmptyString, Exception length_error))
  /\ ((84 <= List.length bytes)%nat ->
      Z.of_nat (declared_count bytes) <= max_size h ->
      allocates h (Z.of_nat (declared_count bytes)) = false ->
      STLReader_ctor_in h fs path = (EmptyString, Exception bad_alloc)).
Proof.
  intros Hfs Hlen. unfold served.
  destruct (constructor_in_cases h fs path bytes Hfs)
    as [(H1 & ->)|[(H1 & H2 & ->)|[(H1 & H2 & H3 & H4 & ->)
       |[(H1 & (H2 & H3) & H4 & ->)|(H1 & _ & H2 & _)]]]].
  - split; [eauto|]. split; [reflexivity|]. split; intros; lia.
  - split; [eauto|]. split; [intros [?|(? & ?)]; lia|].
    split; [reflexivity|]. intros; lia.
  - split; [eauto|]. split; [intros [?|(? & [?|?])]; [lia|lia|congruence]|].
    split; [intros; lia|reflexivity].
  - split; [eauto|]. split; [reflexivity|].
    split; [intros; lia|].
    intros _ _ Hf. destruct H3 as [H3|H3]; [lia|congruence].
  - lia.
Qed.

Lemma truncated_source_throws_witness :
  STLReader_ctor_in ample
    (single_file Examples.file_name Examples.cut_in_record)
    Examples.file_name
  = (EmptyString, Exception ios_failure)
  /\ STLReader_ctor_in Examples.modest
       (single_file Examples.file_name Examples.greedy) Examples.file_name
     = (EmptyString, Exception bad_alloc)
  /\ STLReader_ctor_in Examples.narrow
       (single_file Examples.file_name Examples.greedy) Examples.file_name
     = (EmptyString, Exception length_error).
Proof.
  assert (Hg : Z.of_nat (declared_count Examples.greedy) = 4294967295).
  { rewrite declared_count_Z. vm_compute. reflexivity. }
  assert (Hl : List.length Examples.greedy = 84%nat)
    by (vm_compute; reflexivity).
  assert (Ht : (List.length Examples.greedy + 2
                < 84 + 50 * declared_count Examples.greedy)%nat) by lia.
  split; [|split].
  - apply (truncated_source_throws ample _ _ Examples.cut_in_record).
    + reflexivity.
    + right. apply Nat.ltb_lt. vm_compute. reflexivity.
    + right. rewrite declared_count_Z. apply ample_serves.
  - apply (truncated_source_throws Examples.modest _ _ Examples.greedy).
    + reflexivity.
    + right. exact Ht.
    + lia.
    + rewrite Hg. vm_compute. discriminate.
    + rewrite Hg. reflexivity.
  - apply (truncated_source_throws Examples.narrow _ _ Examples.greedy).
    + reflexivity.
    + right. exact Ht.
    + lia.
    + rewrite Hg. reflexivity.
Defined.

(** C4: for every source with the 80 header bytes, the 4 count bytes and
    at least 50 x N further bytes, the constructor returns a valid object
    whose header is the first 80 bytes and whose polygons are the N
    records in file order, each the twelve little-endian floats at
    offsets 0..47 of its 50 bytes (the attribute bytes are skipped);
    consequently a serialized mesh is read back bit for bit. *)
Theorem well_formed_source_parses :
  (forall (fs : filesystem) (path : string) (bytes : list Byte.byte),
      fs path = Some bytes ->
      (84 + 50 * declared_count bytes <= List.length bytes)%nat ->
      STLReader_ctor fs path
      = (EmptyString,
         Object {| header_ := firstn 80 bytes;
                   polygons_ := records bytes;
                   valid := true |})
      /\ List.length (records bytes) = declared_count bytes)
  /\ (forall (fs : filesystem) (path : string) (header : list Byte.byte)
             (triangles : list (STLPolygon * Z)),
      List.length header = 80%nat ->
      Z.of_nat (List.length triangles) < 2 ^ 32 ->
      Forall (fun r => wf_polygon (fst r)) triangles ->
      fs path = Some (serialize header triangles) ->
      STLReader_ctor fs path
      = (EmptyString,
         Object {| header_ := header;
                   polygons_ := map fst triangles;
                   valid := true |})).
Proof.
  assert (H1 : forall fs path bytes,
             fs path = Some bytes ->
             (84 + 50 * declared_count bytes <= List.length bytes)%nat ->
             STLReader_ctor fs path
             = (EmptyString,
                Object {| header_ := firstn 80 bytes;
                          polygons_ := records bytes;
                          valid := true |})).
  { intros fs path bytes Hfs Hlen. unfold STLReader_ctor, STLReader_ctor_in.
  rewrite Hfs. fold parse.
    cbv zeta. rewrite parse_ok by exact Hlen. reflexivity. }
  split.
  - intros fs path bytes Hfs Hlen. split; [now apply H1|].
    unfold records. now rewrite length_map, length_seq.
  - intros fs path header triangles Hh Hc Hwf Hfs.
    rewrite (H1 fs path _ Hfs).
    + rewrite serialize_header, serialize_records by assumption. reflexivity.
    + rewrite serialize_count, serialize_length by assumption. lia.
Qed.

Lemma well_formed_source_parses_witness :
  STLReader_ctor
    (single_file Examples.file_name
       (serialize Examples.header80 Examples.two_triangles))
    Examples.file_name
  = (EmptyString,
     Object {| header_ := Examples.header80;
               polygons_ := [Examples.straddling; Examples.with_negative_zero];
               valid := true |})
  /\ List.length
       (records (serialize Examples.header80 Examples.two_triangles)) = 2%nat.
Proof.
  split.
  - apply (proj2 well_formed_source_parses
             _ _ Examples.header80 Examples.two_triangles).
    + reflexivity.
    + reflexivity.
    + repeat constructor; cbv; congruence.
    + reflexivity.
  - apply (proj1 well_formed_source_parses
             (single_file Examples.file_name
                (serialize Examples.header80 Examples.two_triangles))
             Examples.file_name).
    + reflexivity.
    + apply Nat.leb_le. vm_compute. reflexivity.
Defined.

(** C6: for every source that cannot be opened, the constructor reports
    the open failure on [std::cerr] and returns an object that is invalid:
    [operator bool] is false and the polygons are empty. *)
Theorem unopenable_source_invalid (fs : filesystem) (path : string) :
  fs path = None ->
  exists r : STLReader,
    STLReader_ctor fs path = (open_error path, Object r)
    /\ operator_bool r = false
    /\ polygons r = []
    /\ header r = [].
Proof.
  intros Hfs. unfold STLReader_ctor, STLReader_ctor_in.
  rewrite Hfs. fold parse.
  eexists. split; [reflexivity|]. repeat split.
Qed.

Lemma unopenable_source_invalid_witness :
  exists r : STLReader,
    STLReader_ctor (single_file Examples.file_name Examples.header80)
                   "missing.stl"
    = (open_error "missing.stl", Object r)
    /\ operator_bool r = false
    /\ polygons r = []
    /\ header r = [].
Proof.
  apply (unopenable_source_invalid
           (single_file Examples.file_name Examples.header80) "missing.stl").
  reflexivity.
Defined.

(** ** PlaneSlicer *)

(** C3: [slice_polygons_at] computes for each edge the parameter
    [-(a*x1 + b*y1 + c*z1 + d) / (a*(x2-x1) + b*(y2-y1) + c*(z2-z1))],
    takes the first of the pairs (p->q, q->r), (q->r, r->p), (r->p, p->q)
    whose two parameters lie in [0, 1), emits the segment of the two
    interpolated points [(1-t)*start + t*end], and nothing for a triangle
    without such a pair: at most one segment per triangle. *)
Theorem slice_follows_algorithm (ts : list STLPolygon) (a b c d : float) :
  (forall e : STLSegment,
      internal.segment_plane_intersection e a b c d
      = (- (a * x (p e) + b * y (p e) + c * z (p e) + d)
           / (a * (x (q e) - x (p e)) + b * (y (q e) - y (p e))
              + c * (z (q e) - z (p e))))%f32)
  /\ (forall (e : STLSegment) (t : float),
         internal.point_on_line e t
         = {| x := ((of_int 1 - t) * x (p e) + t * x (q e))%f32;
              y := ((of_int 1 - t) * y (p e) + t * y (q e))%f32;
              z := ((of_int 1 - t) * z (p e) + t * z (q e))%f32 |})
  /\ slice_polygons_at ts a b c d = slice ts a b c d
  /\ (forall t : STLPolygon,
         (List.length (slice_polygons_at [t] a b c d) <= 1)%nat).
Proof.
  split; [|split; [|split]].
  - intros e. rewrite segment_plane_intersection_eq.
    unfold edge_parameter, plane_value, plane_denominator. reflexivity.
  - intros e t. rewrite point_on_line_eq. unfold interpolate. reflexivity.
  - apply slice_polygons_at_slice.
  - intros t. rewrite slice_polygons_at_slice, slice_single.
    apply triangle_segments_length.
Qed.

(** C7: the three axis-aligned entry points are the general slicer at the
    coefficients (1, 0, 0, -x), (0, 1, 0, -y) and (0, 0, 1, -z), where 1
    and 0 are the [int] literals converted to [float], that is 1.0 and
    +0.0, and the minus flips the sign bit. *)
Theorem axis_slices_are_plane_slices (ts : list STLPolygon) (v : float) :
  slice_polygons_at_x ts v
  = slice_polygons_at ts (of_int 1) (of_int 0) (of_int 0) (- v)%f32
  /\ slice_polygons_at_y ts v
     = slice_polygons_at ts (of_int 0) (of_int 1) (of_int 0) (- v)%f32
  /\ slice_polygons_at_z ts v
     = slice_polygons_at ts (of_int 0) (of_int 0) (of_int 1) (- v)%f32
  /\ of_int 1 = 0x3F800000
  /\ of_int 0 = 0x00000000.
Proof.
  unfold slice_polygons_at_x, slice_polygons_at_y, slice_polygons_at_z.
  split; [|split; [|split; [|split]]]; try reflexivity.
Qed.

(** C8: [slice_polygons_at] is total over every list of polygons and
    every four bit patterns for the coefficients, NaNs, infinities and
    zero denominators included.  It returns a list of at most one segment
    per polygon, and every coordinate in it is a binary32 value; the
    parameter of every edge is a binary32 value, whatever the inputs; a
    zero (or NaN) denominator does not fail the division, it makes the
    parameter an infinity or a NaN; and a parameter that is a NaN or an
    infinity fails the test [0 <= t && t < 1]. *)
Theorem slice_polygons_at_total (ts : list STLPolygon) (a b c d : float) :
  (List.length (slice_polygons_at ts a b c d) <= List.length ts)%nat
  /\ Forall (fun s => wf_vector (p s) /\ wf_vector (q s))
            (slice_polygons_at ts a b c d)
  /\ (forall e : STLSegment,
         wf (internal.segment_plane_intersection e a b c d))
  /\ (forall e : STLSegment,
         zero_or_nan (plane_denominator e a b c) = true ->
         is_finite (internal.segment_plane_intersection e a b c d) = false)
  /\ (forall t : float, is_finite t = false -> crosses t = false).
Proof.
  rewrite slice_polygons_at_slice.
  split; [apply slice_length|]. split; [apply slice_wf|].
  split; [|split].
  - intros e. rewrite segment_plane_intersection_eq. apply fdiv_wf.
  - intros e H. rewrite segment_plane_intersection_eq.
    unfold edge_parameter. now apply fdiv_degenerate.
  - apply crosses_nonfinite.
Qed.

Lemma slice_polygons_at_total_witness :
  is_finite
    (internal.segment_plane_intersection (edge Examples.flat 0)
       Examples.f_zero Examples.f_zero Examples.f_one Examples.f_zero)
  = false
  /\ crosses Examples.f_nan = false
  /\ crosses Examples.f_inf = false.
Proof.
  destruct (slice_polygons_at_total [Examples.flat]
              Examples.f_zero Examples.f_zero Examples.f_one Examples.f_zero)
    as (_ & _ & _ & Hz & Hn).
  split; [|split].
  - apply Hz. vm_compute. reflexivity.
  - apply Hn. vm_compute. reflexivity.
  - apply Hn. vm_compute. reflexivity.
Defined.

(** Non-finite inputs: a triangle of NaNs and infinities against a plane
    of NaN and infinite coefficients yields the empty list. *)
Example slice_of_wild_inputs :
  slice_polygons_at [Examples.wild; Examples.flat]
    Examples.f_nan Examples.f_inf Examples.f_zero Examples.f_nan = [].
Proof. vm_compute. reflexivity. Qed.

(** C9: the output does not depend on the normals: two lists whose
    polygons agree, position by position, on the vertices a, b, c give
    the same segments for every plane. *)
Theorem slice_ignores_normals
    (ts ts' : list STLPolygon) (a b c d : float) :
  Forall2 same_vertices ts ts' ->
  slice_polygons_at ts a b c d = slice_polygons_at ts' a b c d.
Proof.
  intros H. rewrite !slice_polygons_at_slice. unfold slice.
  induction H as [|t t' ts ts' Ht _ IH]; [reflexivity|].
  cbn [flat_map]. rewrite IH. f_equal. now apply triangle_segments_normal.
Qed.

Lemma slice_ignores_normals_witness :
  slice_polygons_at [Examples.straddling]
    Examples.f_zero Examples.f_zero Examples.f_one Examples.f_zero
  = slice_polygons_at
      [ {| normal := Examples.vec Examples.f_nan Examples.f_one Examples.f_two;
           a := a Examples.straddling;
           b := b Examples.straddling;
           c := c Examples.straddling |} ]
      Examples.f_zero Examples.f_zero Examples.f_one Examples.f_zero.
Proof.
  apply slice_ignores_normals.
  constructor; [|constructor]. repeat split.
Defined.

(** C10: the returned list is the concatenation, in input order, of what
    each triangle yields alone, each triangle yields at most one segment,
    the output is no longer than the input, and the loop only appends to
    the vector it is given: the result is a function of the arguments. *)
Theorem slice_in_triangle_order (ts : list STLPolygon) (a b c d : float) :
  slice_polygons_at ts a b c d
  = List.concat (map (fun t => slice_polygons_at [t] a b c d) ts)
  /\ (forall t : STLPolygon,
         (List.length (slice_polygons_at [t] a b c d) <= 1)%nat)
  /\ (List.length (slice_polygons_at ts a b c d) <= List.length ts)%nat
  /\ (forall ts1 ts2 : list STLPolygon,
         slice_polygons_at (ts1 ++ ts2) a b c d
         = slice_polygons_at ts1 a b c d ++ slice_polygons_at ts2 a b c d)
  /\ (forall res : list STLSegment,
         fold_left (slice_body a b c d) ts res
         = res ++ slice_polygons_at ts a b c d).
Proof.
  split; [|split; [|split; [|split]]].
  - rewrite slice_polygons_at_slice. unfold slice.
    rewrite flat_map_concat_map. f_equal. apply map_ext.
    intros t. now rewrite slice_polygons_at_slice, slice_single.
  - intros t. rewrite slice_polygons_at_slice, slice_single.
    apply triangle_segments_length.
  - rewrite slice_polygons_at_slice. apply slice_length.
  - intros ts1 ts2. rewrite !slice_polygons_at_slice. apply slice_app.
  - intros res. rewrite slice_polygons_at_slice. apply fold_slice_body.
Qed.

(** C5 as stated does not hold: a triangle can lie entirely in an oblique
    slicing plane, in exact arithmetic and with the plane expression
    evaluating to zero at its three vertices, while rounding leaves
    non-zero denominators on two edges; their parameters are zeros and a
    segment is emitted. *)
Lemma coplanar_triangle_emits_segment :
  exact_plane_value (a Examples.oblique)
    Examples.f_slope Examples.f_minus_one Examples.f_minus_one
    Examples.f_zero = Some 0
  /\ exact_plane_value (b Examples.oblique)
       Examples.f_slope Examples.f_minus_one Examples.f_minus_one
       Examples.f_zero = Some 0
  /\ exact_plane_value (c Examples.oblique)
       Examples.f_slope Examples.f_minus_one Examples.f_minus_one
       Examples.f_zero = Some 0
  /\ is_zero (plane_value (a Examples.oblique)
                Examples.f_slope Examples.f_minus_one Examples.f_minus_one
                Examples.f_zero) = true
  /\ is_zero (plane_value (b Examples.oblique)
                Examples.f_slope Examples.f_minus_one Examples.f_minus_one
                Examples.f_zero) = true
  /\ is_zero (plane_value (c Examples.oblique)
                Examples.f_slope Examples.f_minus_one Examples.f_minus_one
                Examples.f_zero) = true
  /\ finite_nonzero (plane_denominator (edge Examples.oblique 0)
                       Examples.f_slope Examples.f_minus_one
                       Examples.f_minus_one) = true
  /\ finite_nonzero (plane_denominator (edge Examples.oblique 1)
                       Examples.f_slope Examples.f_minus_one
                       Examples.f_minus_one) = true
  /\ slice_polygons_at [Examples.oblique]
       Examples.f_slope Examples.f_minus_one Examples.f_minus_one
       Examples.f_zero
     = [ {| p := a Examples.oblique; q := b Examples.oblique |} ].
Proof. vm_compute. repeat split. Qed.

(** C5 (amended): a triangle whose three edge denominators evaluate to
    zero has three parameters that are NaN or infinite, none in [0, 1),
    and yields no segment.  This is the case of every triangle that lies
    in an axis-aligned slicing plane (its three vertices have equal x,
    y or z and it is sliced along that axis); in particular a triangle
    with its three vertices at z = 0, sliced at a height z0 (z0 = 0
    included), yields no segment and no error. *)
Theorem coplanar_triangle_no_segment :
  (forall (t : STLPolygon) (a b c d : float),
      is_zero (plane_denominator (edge t 0) a b c) = true ->
      is_zero (plane_denominator (edge t 1) a b c) = true ->
      is_zero (plane_denominator (edge t 2) a b c) = true ->
      (forall i : nat, (i < 3)%nat ->
         is_finite (edge_parameter (edge t i) a b c d) = false)
      /\ slice_polygons_at [t] a b c d = [])
  /\ (forall (t : STLPolygon) (z0 : float),
      is_zero (z (a t)) = true ->
      is_zero (z (b t)) = true ->
      is_zero (z (c t)) = true ->
      slice_polygons_at_z [t] z0 = [])
  /\ (forall (t : STLPolygon) (v : float),
      (level x t -> slice_polygons_at_x [t] v = [])
      /\ (level y t -> slice_polygons_at_y [t] v = [])
      /\ (level z t -> slice_polygons_at_z [t] v = [])).
Proof.
  split; [|split].
  - intros t a b c d H0 H1 H2.
    assert (Hd : forall i : nat, (i < 3)%nat ->
              zero_or_nan (plane_denominator (edge t i) a b c) = true).
    { intros i Hi. apply is_zero_zero_or_nan.
      destruct i as [|[|[|i]]]; [assumption..|lia]. }
    split.
    + intros i Hi. unfold edge_parameter. apply fdiv_degenerate, Hd, Hi.
    + rewrite slice_polygons_at_slice, slice_single.
      apply no_crossing_no_segment. intros i Hi.
      apply edge_parameter_degenerate, Hd, Hi.
  - intros t z0 Ha Hb Hc. unfold slice_polygons_at_z.
    rewrite slice_polygons_at_slice, slice_single.
    apply no_crossing_no_segment. intros i Hi.
    apply edge_parameter_degenerate, flat_edge_denominator;
      destruct i as [|[|[|i]]]; try lia; assumption.
  - intros t v. split; [|split]; intros Hl;
      unfold slice_polygons_at_x, slice_polygons_at_y, slice_polygons_at_z;
      rewrite slice_polygons_at_slice, slice_single;
      apply no_crossing_no_segment; intros i Hi;
      apply edge_parameter_degenerate.
    + now apply level_edge_denominator_x, level_edges.
    + now apply level_edge_denominator_y, level_edges.
    + now apply level_edge_denominator_z, level_edges.
Qed.

Lemma coplanar_triangle_no_segment_witness :
  slice_polygons_at [Examples.flat]
    Examples.f_zero Examples.f_zero Examples.f_one Examples.f_zero = []
  /\ slice_polygons_at_z [Examples.flat] Examples.f_zero = []
  /\ slice_polygons_at_x [Examples.upright] Examples.f_one = []
  /\ slice_polygons_at_y [Examples.upright] Examples.f_half = []
  /\ slice_polygons_at_z [Examples.flat] Examples.f_two = [].
Proof.
  destruct coplanar_triangle_no_segment as (Hden & Hzero & Hlevel).
  split; [|split; [|split; [|split]]].
  - apply (Hden Examples.flat); vm_compute; reflexivity.
  - apply (Hzero Examples.flat); vm_compute; reflexivity.
  - apply (proj1 (Hlevel Examples.upright Examples.f_one)).
    repeat split.
  - apply (proj1 (proj2 (Hlevel Examples.upright Examples.f_half))).
    repeat split.
  - apply (proj2 (proj2 (Hlevel Examples.flat Examples.f_two))).
    repeat split.
Defined.

(** C2 as stated does not hold: with p on the plane z = 0, q strictly
    above it (height 1) and r strictly below it (height -2^-30), the
    parameter of q->r rounds to 1 and no segment is emitted. *)
Lemma rounding_loses_crossing :
  is_zero (plane_value (a Examples.nearly_touching)
             Examples.f_zero Examples.f_zero Examples.f_one Examples.f_zero)
  = true
  /\ (Examples.f_zero
      <? plane_value (b Examples.nearly_touching)
           Examples.f_zero Examples.f_zero Examples.f_one Examples.f_zero)%f32
     = true
  /\ (plane_value (c Examples.nearly_touching)
        Examples.f_zero Examples.f_zero Examples.f_one Examples.f_zero
      <? Examples.f_zero)%f32
     = true
  /\ slice_polygons_at [Examples.nearly_touching]
       Examples.f_zero Examples.f_zero Examples.f_one Examples.f_zero
     = [].
Proof. vm_compute. repeat split. Qed.

(** The other half fails too: with p on the plane z = 0 and q, r strictly
    above it (heights 2^-100 and 2^100), the parameter of q->r underflows
    to -0 and a segment is emitted. *)
Example underflow_invents_crossing :
  is_zero (plane_value (a Examples.far_apart)
             Examples.f_zero Examples.f_zero Examples.f_one Examples.f_zero)
  = true
  /\ (Examples.f_zero
      <? plane_value (b Examples.far_apart)
           Examples.f_zero Examples.f_zero Examples.f_one Examples.f_zero)%f32
     = true
  /\ (Examples.f_zero
      <? plane_value (c Examples.far_apart)
           Examples.f_zero Examples.f_zero Examples.f_one Examples.f_zero)%f32
     = true
  /\ slice_polygons_at [Examples.far_apart]
       Examples.f_zero Examples.f_zero Examples.f_one Examples.f_zero
     = [ {| p := a Examples.far_apart; q := b Examples.far_apart |} ].
Proof. vm_compute. repeat split. Qed.

(** And the endpoint need not be the vertex bit for bit: a coordinate
    -0.0 of the vertex on the plane comes out as +0.0. *)
Example negative_zero_not_preserved :
  slice_polygons_at [Examples.with_negative_zero]
    Examples.f_zero Examples.f_zero Examples.f_one Examples.f_zero
  = [ {| p := Examples.vec Examples.f_zero Examples.f_zero Examples.f_zero;
         q := Examples.vec Examples.f_half Examples.f_half Examples.f_zero |} ]
  /\ x (a Examples.with_negative_zero) = neg_zero.
Proof. vm_compute. repeat split. Qed.

(** Nor does it hold of every plane, even where the arithmetic is exact
    at the vertex: on the plane x - y = 0, with p = (1, 1, 0) on it and
    q, r strictly on the side x > y, the parameter computed for the edge
    entering p is 0.75, not 1, and a segment is emitted. *)
Example oblique_plane_enters_early :
  is_zero (plane_value (a Examples.leaning)
             Examples.f_one Examples.f_minus_one Examples.f_zero
             Examples.f_zero)
  = true
  /\ (Examples.f_zero
      <? plane_value (b Examples.leaning)
           Examples.f_one Examples.f_minus_one Examples.f_zero
           Examples.f_zero)%f32
     = true
  /\ (Examples.f_zero
      <? plane_value (c Examples.leaning)
           Examples.f_one Examples.f_minus_one Examples.f_zero
           Examples.f_zero)%f32
     = true
  /\ internal.segment_plane_intersection (edge Examples.leaning 2)
       Examples.f_one Examples.f_minus_one Examples.f_zero Examples.f_zero
     = 0x3F400000
  /\ List.length
       (slice_polygons_at [Examples.leaning]
          Examples.f_one Examples.f_minus_one Examples.f_zero
          Examples.f_zero)
     = 1%nat.
Proof. vm_compute. repeat split. Qed.

(** And an overflow loses a crossing: with p on the plane z = 0, q at
    height 1 and r at height -1, but q and r at the two ends of the y
    axis, the difference of their y coordinates is infinite, its product
    with the coefficient 0 is a NaN, and no segment is emitted. *)
Example overflow_loses_crossing :
  feq (z (a Examples.wide)) Examples.f_zero = true
  /\ (Examples.f_zero <? z (b Examples.wide))%f32 = true
  /\ (z (c Examples.wide) <? Examples.f_zero)%f32 = true
  /\ is_nan (axis_parameter z_axis Examples.f_zero (edge Examples.wide 1))
     = true
  /\ slice_polygons_at_z [Examples.wide] Examples.f_zero = [].
Proof. vm_compute. repeat split. Qed.

(** C2 (amended): for the slices perpendicular to an axis
    ([slice_polygons_at_x], [_y], [_z] at the coordinate h) and a
    triangle with finite coordinates, let v be a vertex whose coordinate
    along the axis equals h.  The edge entering v never crosses (its
    parameter is 1, or a NaN).  If the other two vertices lie strictly on
    the same side of the plane, the triangle yields no segment, unless
    the parameter of the edge between them underflows to a zero.  If they
    lie strictly on opposite sides and no coordinate difference along the
    edge leaving v and the edge between them overflows, the triangle
    yields exactly one segment, unless the parameter of the edge between
    them rounds to 1; the first end of that segment is the point of the
    edge leaving v at its parameter, a zero, which is v bit for bit when
    no coordinate of v is -0.0. *)
Theorem on_plane_vertex_segment
    (k : axis) (h : float) (t : STLPolygon) (i : nat) :
  (i < 3)%nat ->
  is_finite h = true ->
  finite_vector (a t) -> finite_vector (b t) -> finite_vector (c t) ->
  feq (coordinate k (vertex t i)) h = true ->
  is_zero (plane_value (vertex t i) (axis_a k) (axis_b k) (axis_c k)
             (- h)%f32) = true
  /\ crosses (axis_parameter k h (edge t (S (S i) mod 3))) = false
  /\ (((h <? coordinate k (vertex t (S i mod 3)))%f32 = true
       /\ (h <? coordinate k (vertex t (S (S i) mod 3)))%f32 = true)
      \/ ((coordinate k (vertex t (S i mod 3)) <? h)%f32 = true
          /\ (coordinate k (vertex t (S (S i) mod 3)) <? h)%f32 = true) ->
      is_zero (axis_parameter k h (edge t (S i mod 3))) = false ->
      slice_along k [t] h = [])
  /\ (((h <? coordinate k (vertex t (S i mod 3)))%f32 = true
       /\ (coordinate k (vertex t (S (S i) mod 3)) <? h)%f32 = true)
      \/ ((coordinate k (vertex t (S i mod 3)) <? h)%f32 = true
          /\ (h <? coordinate k (vertex t (S (S i) mod 3)))%f32 = true) ->
      span_finite (edge t i) -> span_finite (edge t (S i mod 3)) ->
      feq (axis_parameter k h (edge t (S i mod 3))) (of_int 1) = false ->
      exists seg : STLSegment,
        slice_along k [t] h = [seg]
        /\ is_zero (axis_parameter k h (edge t i)) = true
        /\ p seg
           = internal.point_on_line (edge t i) (axis_parameter k h (edge t i))
        /\ q seg
           = internal.point_on_line (edge t (S i mod 3))
               (axis_parameter k h (edge t (S i mod 3)))
        /\ (plain_vector (vertex t i) -> p seg = vertex t i)).
Proof.
  intros Hi Hh Fa Fb Fc Hon.
  assert (Fv : forall j, finite_vector (vertex t j))
    by (intros j; now apply vertex_finite).
  assert (Fc' : forall j, is_finite (coordinate k (vertex t j)) = true).
  { intros j. destruct (Fv j) as (? & ? & ?). destruct k; assumption. }
  apply feq_fval in Hon; [|apply Fc'|exact Hh].
  split.
  { pose proof (axis_plane_value k h (vertex t i) Hh (Fv i)) as Hv.
    unfold along in Hv. rewrite Hon, Z.sub_diag, rnd_0 in Hv.
    destruct (val_zero_inv _ Hv) as [s Hs]. unfold is_zero. now rewrite Hs. }
  assert (Henter : crosses (axis_parameter k h (edge t (S (S i) mod 3)))
                   = false).
  { apply edge_entering; try exact Hh; try apply Fv.
    destruct i as [|[|[|i]]]; [| | |lia]; exact Hon. }
  split; [exact Henter|].
  rewrite slice_along_eq, slice_polygons_at_slice, slice_single.
  assert (Hcases := on_plane_cases (axis_a k) (axis_b k) (axis_c k) (- h)%f32
                      t i Hi).
  rewrite <- !segment_plane_intersection_eq in Hcases.
  fold (axis_parameter k h (edge t (S (S i) mod 3))) in Hcases.
  fold (axis_parameter k h (edge t (S i mod 3))) in Hcases.
  fold (axis_parameter k h (edge t i)) in Hcases.
  rewrite (Hcases Henter). clear Hcases.
  assert (Es : along k (p (edge t (S i mod 3)))
               = fval (coordinate k (vertex t (S i mod 3)))) by reflexivity.
  assert (Eq : along k (q (edge t (S i mod 3)))
               = fval (coordinate k (vertex t (S (S i) mod 3)))).
  { destruct i as [|[|[|i]]]; [| | |lia]; reflexivity. }
  split.
  - intros Hside Hnz.
    destruct (crosses (axis_parameter k h (edge t (S i mod 3)))) eqn:Ec;
      [|now rewrite andb_false_r].
    exfalso.
    rewrite (edge_same_side k h (edge t (S i mod 3)) Hh (Fv _) (Fv _)) in Hnz;
      [discriminate| |exact Ec].
    rewrite Es, Eq.
    destruct Hside as [(S1 & S2)|(S1 & S2)]; [left|right];
      apply flt_fval in S1, S2; auto.
  - intros Hside Hs0 Hs1 Hone.
    assert (Hz : is_zero (axis_parameter k h (edge t i)) = true).
    { apply edge_leaving; try exact Hh; try apply Fv; try exact Hs0.
      - exact Hon.
      - change (fval (coordinate k (vertex t (S i mod 3))) <> fval h).
        destruct Hside as [(S1 & _)|(S1 & _)];
          apply flt_fval in S1; auto; lia. }
    rewrite (crosses_zero _ Hz).
    rewrite (edge_opposite_sides k h (edge t (S i mod 3)) Hh (Fv _) (Fv _));
      [| |exact Hs1|exact Hone].
    + cbn [andb]. eexists. split; [reflexivity|]. cbn [p q].
      split; [exact Hz|].
      rewrite !point_on_line_eq. split; [reflexivity|].
      split; [reflexivity|].
      intros Hpl. apply interpolate_zero; [exact Hz|exact Hpl|apply Fv].
    + rewrite Es, Eq.
      destruct Hside as [(S1 & S2)|(S1 & S2)]; [left|right];
        apply flt_fval in S1, S2; auto.
Qed.

Lemma on_plane_vertex_segment_witness :
  slice_along z_axis [Examples.touching] Examples.f_zero = []
  /\ exists seg : STLSegment,
       slice_along z_axis [Examples.straddling] Examples.f_zero = [seg]
       /\ p seg = a Examples.straddling.
Proof.
  assert (Ft : finite_vector (a Examples.touching)
               /\ finite_vector (b Examples.touching)
               /\ finite_vector (c Examples.touching))
    by (vm_compute; repeat split).
  assert (Fs : finite_vector (a Examples.straddling)
               /\ finite_vector (b Examples.straddling)
               /\ finite_vector (c Examples.straddling))
    by (vm_compute; repeat split).
  destruct Ft as (Ft1 & Ft2 & Ft3), Fs as (Fs1 & Fs2 & Fs3).
  split.
  - apply (proj1 (proj2 (proj2
             (on_plane_vertex_segment z_axis Examples.f_zero
                Examples.touching 0 ltac:(lia) eq_refl Ft1 Ft2 Ft3 eq_refl)))).
    + left. split; vm_compute; reflexivity.
    + vm_compute. reflexivity.
  - destruct (proj2 (proj2 (proj2
               (on_plane_vertex_segment z_axis Examples.f_zero
                  Examples.straddling 0 ltac:(lia) eq_refl Fs1 Fs2 Fs3
                  eq_refl))))
      as (seg & Hs & _ & _ & _ & Hp).
    + left. split; vm_compute; reflexivity.
    + vm_compute. repeat split.
    + vm_compute. repeat split.
    + vm_compute. reflexivity.
    + exists seg. split; [exact Hs|]. apply Hp.
      repeat split; vm_compute; congruence.
Defined.


(** * Further properties of the code *)

(** ** STLReader *)

(** On a file that opens, on every host, the constructor ends in one of
    four ways, each exactly under its condition: [ios_base::failure] when
    the file has fewer than 84 bytes, or [resize] is served and the file
    ends before the twelve floats of the last declared record;
    [std::length_error] when the declared count exceeds [max_size()];
    [std::bad_alloc] when the allocator refuses the declared count; and
    otherwise a valid object whose header is the first 80 bytes and whose
    polygons are the N records.  The two attribute bytes of the last
    record may be missing. *)
Theorem constructor_outcome (h : host) (fs : filesystem) (path : string)
    (bytes : list Byte.byte) :
  fs path = Some bytes ->
  (STLReader_ctor_in h fs path = (EmptyString, Exception ios_failure)
   <-> (List.length bytes < 84)%nat
       \/ (served h (Z.of_nat (declared_count bytes))
           /\ (List.length bytes + 2 < 84 + 50 * declared_count bytes)%nat))
  /\ (STLReader_ctor_in h fs path = (EmptyString, Exception length_error)
      <-> (84 <= List.length bytes)%nat
          /\ max_size h < Z.of_nat (declared_count bytes))
  /\ (STLReader_ctor_in h fs path = (EmptyString, Exception bad_alloc)
      <-> (84 <= List.length bytes)%nat
          /\ Z.of_nat (declared_count bytes) <= max_size h
          /\ declared_count bytes <> 0%nat
          /\ allocates h (Z.of_nat (declared_count bytes)) = false)
  /\ (STLReader_ctor_in h fs path
      = (EmptyString,
         Object {| header_ := firstn 80 bytes;
                   polygons_ := records bytes;
                   valid := true |})
      <-> (84 <= List.length bytes)%nat
          /\ served h (Z.of_nat (declared_count bytes))
          /\ (84 + 50 * declared_count bytes <= List.length bytes + 2)%nat).
Proof.
  intros Hfs. unfold served.
  destruct (constructor_in_cases h fs path bytes Hfs)
    as [(H1 & ->)|[(H1 & H2 & ->)|[(H1 & H2 & H3 & H4 & ->)
       |[(H1 & (H2 & H3) & H4 & ->)|(H1 & (H2 & H3) & H4 & ->)]]]];
    (split; [|split; [|split]]); split; intros H;
    try discriminate H; try reflexivity;
    repeat match goal with
           | H : _ /\ _ |- _ => destruct H
           | H : _ \/ _ |- _ => destruct H
           end;
    try lia; try congruence;
    try (left; lia);
    try (right; repeat split; auto; lia);
    try (repeat split; auto; lia).
Qed.

Lemma constructor_outcome_witness :
  STLReader_ctor_in Examples.modest
    (single_file Examples.file_name Examples.without_attribute)
    Examples.file_name
  = (EmptyString,
     Object {| header_ := firstn 80 Examples.without_attribute;
               polygons_ := records Examples.without_attribute;
               valid := true |})
  /\ STLReader_ctor_in Examples.modest
       (single_file Examples.file_name Examples.greedy) Examples.file_name
     = (EmptyString, Exception bad_alloc).
Proof.
  assert (Hg : Z.of_nat (declared_count Examples.greedy) = 4294967295).
  { rewrite declared_count_Z. vm_compute. reflexivity. }
  assert (Hl : List.length Examples.greedy = 84%nat)
    by (vm_compute; reflexivity).
  split.
  - apply (proj2 (proj2 (proj2 (proj2
             (constructor_outcome Examples.modest _ Examples.file_name
                Examples.without_attribute eq_refl))))).
    split; [apply Nat.leb_le; vm_compute; reflexivity|].
    split; [|apply Nat.leb_le; vm_compute; reflexivity].
    unfold served. rewrite declared_count_Z. vm_compute.
    split; [discriminate|right; reflexivity].
  - apply (proj2 (proj1 (proj2 (proj2
             (constructor_outcome Examples.modest _ Examples.file_name
                Examples.greedy eq_refl))))).
    split; [lia|]. rewrite Hg.
    split; [vm_compute; discriminate|]. split; [lia|reflexivity].
Defined.

(** Whatever the file system and the path, an object the constructor
    returns is invalid exactly when the file could not be opened, and
    then it is empty and the error was reported; a valid object has an
    80-byte header, fewer than 2^32 polygons whose floats are 32-bit
    patterns, no more polygons than the file has room for, and nothing
    was written to [std::cerr]. *)
Theorem constructed_object_invariants
    (fs : filesystem) (path out : string) (r : STLReader) :
  STLReader_ctor fs path = (out, Object r) ->
  (operator_bool r = false <-> fs path = None)
  /\ (operator_bool r = false ->
      header r = [] /\ polygons r = [] /\ out = open_error path)
  /\ (operator_bool r = true ->
      out = EmptyString
      /\ List.length (header r) = 80%nat
      /\ Forall wf_polygon (polygons r)
      /\ Z.of_nat (List.length (polygons r)) < 2 ^ 32
      /\ exists bytes : list Byte.byte,
           fs path = Some bytes
           /\ header r = firstn 80 bytes
           /\ (84 + 50 * List.length (polygons r)
               <= List.length bytes + 2)%nat).
Proof.
  intros Hc. destruct (fs path) as [bytes|] eqn:Hfs.
  - destruct (constructor_cases fs path bytes Hfs) as [[_ He]|[[H84 Hn] Ho]];
      [congruence|].
    assert (Hout : out = EmptyString) by congruence.
    assert (Hr : r = {| header_ := firstn 80 bytes;
                        polygons_ := records bytes;
                        valid := true |}) by congruence.
    subst out r. unfold operator_bool, header, polygons.
    cbn [valid header_ polygons_].
    split; [split; discriminate|]. split; [discriminate|]. intros _.
    split; [reflexivity|]. split.
    { rewrite length_firstn. apply Nat.min_l. lia. }
    split; [apply records_wf|]. rewrite records_length.
    split; [apply declared_count_bound|].
    exists bytes. auto.
  - unfold STLReader_ctor, STLReader_ctor_in in Hc. rewrite Hfs in Hc.
    assert (Hout : out = open_error path) by congruence.
    assert (Hr : r = {| header_ := []; polygons_ := []; valid := false |})
      by congruence.
    subst out r. unfold operator_bool, header, polygons.
    cbn [valid header_ polygons_].
    split; [split; reflexivity|]. split; [auto|discriminate].
Qed.

Lemma constructed_object_invariants_witness :
  (operator_bool {| header_ := Examples.header80;
                    polygons_ := [Examples.straddling];
                    valid := true |} = false
   <-> single_file Examples.file_name Examples.without_attribute
         Examples.file_name = None)
  /\ (operator_bool {| header_ := []; polygons_ := []; valid := false |}
      = false
      <-> single_file Examples.file_name Examples.without_attribute
            "missing.stl"%string = None).
Proof.
  split.
  - apply (constructed_object_invariants
             (single_file Examples.file_name Examples.without_attribute)
             Examples.file_name EmptyString).
    vm_compute. reflexivity.
  - apply (constructed_object_invariants
             (single_file Examples.file_name Examples.without_attribute)
             "missing.stl"%string (open_error "missing.stl"%string)).
    reflexivity.
Defined.

(** Bytes behind the last record are never read: appending any bytes to
    a file the constructor accepts changes nothing of what it returns. *)
Theorem trailing_bytes_ignored
    (fs fs' : filesystem) (path path' : string)
    (bytes extra : list Byte.byte) :
  fs path = Some bytes ->
  fs' path' = Some (bytes ++ extra) ->
  (84 <= List.length bytes)%nat ->
  (84 + 50 * declared_count bytes <= List.length bytes + 2)%nat ->
  STLReader_ctor fs' path' = STLReader_ctor fs path.
Proof.
  intros Hfs Hfs' H84 Hn.
  destruct (constructor_cases fs path bytes Hfs) as [[Hc _]|[_ ->]]; [lia|].
  destruct (constructor_cases fs' path' _ Hfs') as [[Hc _]|[_ ->]].
  - rewrite declared_count_app, length_app in Hc by exact H84. lia.
  - rewrite records_app by assumption.
    rewrite firstn_app.
    replace (80 - List.length bytes)%nat with 0%nat by lia.
    now rewrite firstn_O, app_nil_r.
Qed.

Lemma trailing_bytes_ignored_witness :
  STLReader_ctor
    (single_file Examples.file_name
       (serialize Examples.header80 Examples.two_triangles ++ Examples.trailer))
    Examples.file_name
  = STLReader_ctor
      (single_file Examples.file_name
         (serialize Examples.header80 Examples.two_triangles))
      Examples.file_name.
Proof.
  apply (trailing_bytes_ignored _ _ _ _
           (serialize Examples.header80 Examples.two_triangles)
           Examples.trailer).
  - reflexivity.
  - reflexivity.
  - apply Nat.leb_le. vm_compute. reflexivity.
  - apply Nat.leb_le. vm_compute. reflexivity.
Defined.

(** The header is not interpreted: two files with the same bytes behind
    different 80-byte headers are both rejected, or both accepted with
    the same polygons, each object holding its own header. *)
Theorem header_is_opaque
    (fs fs' : filesystem) (path path' : string)
    (h h' body : list Byte.byte) :
  List.length h = 80%nat ->
  List.length h' = 80%nat ->
  fs path = Some (h ++ body) ->
  fs' path' = Some (h' ++ body) ->
  match snd (STLReader_ctor fs path), snd (STLReader_ctor fs' path') with
  | Object r, Object r' =>
      header r = h /\ header r' = h'
      /\ polygons r = polygons r'
      /\ operator_bool r = operator_bool r'
  | Exception e, Exception e' => e = e'
  | _, _ => False
  end.
Proof.
  intros Hh Hh' Hfs Hfs'.
  assert (Hf : forall g : list Byte.byte,
            List.length g = 80%nat -> firstn 80 (g ++ body) = g).
  { intros g Hg. rewrite firstn_app, Hg, Nat.sub_diag, firstn_O, app_nil_r.
    apply firstn_all2. lia. }
  destruct (constructor_cases fs path _ Hfs) as [[Hc ->]|[[H84 Hn] ->]];
    destruct (constructor_cases fs' path' _ Hfs') as [[Hc' ->]|[[H84' Hn'] ->]];
    cbn [snd];
    rewrite ?declared_count_header, ?length_app, ?Hh, ?Hh' in * by assumption;
    try lia; try reflexivity.
  unfold header, polygons, operator_bool. cbn [header_ polygons_ valid].
  rewrite !Hf, !records_header by assumption. auto.
Qed.

Lemma header_is_opaque_witness :
  match
    snd (STLReader_ctor
           (single_file Examples.file_name
              (Examples.header80
                 ++ skipn 80 (serialize Examples.header80
                                Examples.two_triangles)))
           Examples.file_name),
    snd (STLReader_ctor
           (single_file Examples.file_name
              (Examples.header_A
                 ++ skipn 80 (serialize Examples.header80
                                Examples.two_triangles)))
           Examples.file_name)
  with
  | Object r, Object r' =>
      header r = Examples.header80 /\ header r' = Examples.header_A
      /\ polygons r = polygons r'
      /\ operator_bool r = operator_bool r'
  | Exception e, Exception e' => e = e'
  | _, _ => False
  end.
Proof.
  apply (header_is_opaque _ _ _ _ Examples.header80 Examples.header_A
           (skipn 80 (serialize Examples.header80 Examples.two_triangles)));
    reflexivity.
Defined.

(** Nothing but the attribute fields is lost: for a file of exactly
    84 + 50 x N bytes, writing the header and the polygons of the object
    read from it, with the attribute fields of the file, gives the file
    back byte for byte. *)
Theorem object_determines_file
    (fs : filesystem) (path : string) (bytes : list Byte.byte) :
  fs path = Some bytes ->
  List.length bytes = (84 + 50 * declared_count bytes)%nat ->
  exists r : STLReader,
    STLReader_ctor fs path = (EmptyString, Object r)
    /\ operator_bool r = true
    /\ serialize (header r) (combine (polygons r) (attributes bytes)) = bytes.
Proof.
  intros Hfs Hlen.
  destruct (constructor_cases fs path bytes Hfs) as [[Hc _]|[_ ->]]; [lia|].
  eexists. split; [reflexivity|]. split; [reflexivity|].
  unfold header, polygons. cbn [header_ polygons_].
  now apply reencode.
Qed.

Lemma object_determines_file_witness :
  exists r : STLReader,
    STLReader_ctor
      (single_file Examples.file_name
         (serialize Examples.header_A Examples.two_triangles))
      Examples.file_name
    = (EmptyString, Object r)
    /\ operator_bool r = true
    /\ serialize (header r)
         (combine (polygons r)
            (attributes (serialize Examples.header_A Examples.two_triangles)))
       = serialize Examples.header_A Examples.two_triangles.
Proof.
  apply (object_determines_file _ Examples.file_name).
  - reflexivity.
  - vm_compute. reflexivity.
Defined.

(** ** slice_polygons_at *)

(** A triangle yields its segment exactly when at least two of its three
    edges cross: one crossing edge alone gives nothing. *)
Theorem segment_iff_two_edges_cross (t : STLPolygon) (a b c d : float) :
  (slice_polygons_at [t] a b c d = []
   <-> (crossing_count a b c d t <= 1)%nat)
  /\ (List.length (slice_polygons_at [t] a b c d) = 1%nat
      <-> (2 <= crossing_count a b c d t)%nat).
Proof.
  rewrite slice_polygons_at_slice, slice_single, triangle_segments_cases.
  unfold crossing_count. cbv beta zeta. cbn [filter].
  rewrite !segment_plane_intersection_eq.
  destruct (crosses (edge_parameter (edge t 0) a b c d));
    destruct (crosses (edge_parameter (edge t 1) a b c d));
    destruct (crosses (edge_parameter (edge t 2) a b c d));
    cbn [andb List.length]; repeat split; intros; try lia; try discriminate.
Qed.

Lemma segment_origin
    (ts : list STLPolygon) (a b c d : float) (seg : STLSegment) :
  In seg (slice_polygons_at ts a b c d) ->
  exists (t : STLPolygon) (i : nat),
    In t ts /\ (i < 3)%nat
    /\ crosses (edge_parameter (edge t i) a b c d) = true
    /\ crosses (edge_parameter (edge t (S i mod 3)) a b c d) = true
    /\ is_finite (edge_parameter (edge t i) a b c d) = true
    /\ is_finite (edge_parameter (edge t (S i mod 3)) a b c d) = true
    /\ seg = {| p := interpolate (edge t i)
                       (edge_parameter (edge t i) a b c d);
                q := interpolate (edge t (S i mod 3))
                       (edge_parameter (edge t (S i mod 3)) a b c d) |}.
Proof.
  rewrite slice_polygons_at_slice. unfold slice. intros H.
  apply in_flat_map in H. destruct H as (t & Ht & Hs).
  rewrite triangle_segments_cases in Hs. cbv beta zeta in Hs.
  exists t.
  destruct (crosses (edge_parameter (edge t 0) a b c d)) eqn:H0;
    destruct (crosses (edge_parameter (edge t 1) a b c d)) eqn:H1;
    destruct (crosses (edge_parameter (edge t 2) a b c d)) eqn:H2;
    cbn [andb In] in Hs; try contradiction;
    destruct Hs as [Hs|Hs]; try contradiction; subst seg;
    first
      [ exists 0%nat; cbn [Nat.modulo Nat.divmod fst snd Nat.sub];
        solve [repeat split; auto using crosses_finite; congruence]
      | exists 1%nat; cbn [Nat.modulo Nat.divmod fst snd Nat.sub];
        solve [repeat split; auto using crosses_finite; congruence]
      | exists 2%nat; cbn [Nat.modulo Nat.divmod fst snd Nat.sub];
        solve [repeat split; auto using crosses_finite; congruence] ].
Qed.

(** Every segment of the output joins the crossing points of two
    consecutive edges of one input triangle: edge i (p->q, q->r or r->p)
    and the edge after it, both with a finite parameter in [0, 1). *)
Theorem segments_come_from_triangles
    (ts : list STLPolygon) (a b c d : float) (seg : STLSegment) :
  In seg (slice_polygons_at ts a b c d) ->
  exists (t : STLPolygon) (i : nat),
    In t ts /\ (i < 3)%nat
    /\ crosses (internal.segment_plane_intersection (edge t i) a b c d) = true
    /\ crosses (internal.segment_plane_intersection (edge t (S i mod 3)) a b c d) = true
    /\ is_finite (internal.segment_plane_intersection (edge t i) a b c d) = true
    /\ is_finite (internal.segment_plane_intersection (edge t (S i mod 3)) a b c d) = true
    /\ seg = {| p := internal.point_on_line (edge t i)
                       (internal.segment_plane_intersection (edge t i) a b c d);
                q := internal.point_on_line (edge t (S i mod 3))
                       (internal.segment_plane_intersection (edge t (S i mod 3)) a b c d) |}.
Proof.
  intros H. destruct (segment_origin ts a b c d seg H)
    as (t & i & Ht & Hi & H1 & H2 & F1 & F2 & Hseg).
  exists t, i. rewrite !segment_plane_intersection_eq, !point_on_line_eq.
  auto 10.
Qed.

Lemma segments_come_from_triangles_witness :
  exists (t : STLPolygon) (i : nat),
    In t [Examples.flat; Examples.straddling] /\ (i < 3)%nat
    /\ crosses (internal.segment_plane_intersection (edge t i)
                  Examples.f_zero Examples.f_zero Examples.f_one
                  Examples.f_zero) = true
    /\ crosses (internal.segment_plane_intersection (edge t (S i mod 3))
                  Examples.f_zero Examples.f_zero Examples.f_one
                  Examples.f_zero) = true
    /\ is_finite (internal.segment_plane_intersection (edge t i)
                    Examples.f_zero Examples.f_zero Examples.f_one
                    Examples.f_zero) = true
    /\ is_finite (internal.segment_plane_intersection (edge t (S i mod 3))
                    Examples.f_zero Examples.f_zero Examples.f_one
                    Examples.f_zero) = true
    /\ {| p := a Examples.straddling;
          q := Examples.vec Examples.f_half Examples.f_half Examples.f_zero |}
       = {| p := internal.point_on_line (edge t i)
                   (internal.segment_plane_intersection (edge t i)
                      Examples.f_zero Examples.f_zero Examples.f_one
                      Examples.f_zero);
            q := internal.point_on_line (edge t (S i mod 3))
                   (internal.segment_plane_intersection (edge t (S i mod 3))
                      Examples.f_zero Examples.f_zero Examples.f_one
                      Examples.f_zero) |}.
Proof.
  apply (segments_come_from_triangles
           [Examples.flat; Examples.straddling]).
  vm_compute. left. reflexivity.
Defined.

(** A plane with a NaN among its coefficients, or with a constant [d]
    that is a NaN or an infinity, cuts nothing; so slicing along an axis
    at a NaN or infinite coordinate returns the empty list. *)
Theorem degenerate_plane_cuts_nothing
    (ts : list STLPolygon) (a b c d : float) :
  (is_nan a = true \/ is_nan b = true \/ is_nan c = true
   \/ is_finite d = false ->
   slice_polygons_at ts a b c d = [])
  /\ (is_finite d = false ->
      slice_polygons_at_x ts d = []
      /\ slice_polygons_at_y ts d = []
      /\ slice_polygons_at_z ts d = []).
Proof.
  assert (H : forall a' b' c' d' : float,
            is_nan a' = true \/ is_nan b' = true \/ is_nan c' = true
            \/ is_finite d' = false ->
            slice_polygons_at ts a' b' c' d' = []).
  { intros a' b' c' d' Hd. rewrite slice_polygons_at_slice.
    apply slice_nothing. intros e.
    destruct Hd as [Hd|[Hd|[Hd|Hd]]].
    - apply nan_coefficient. auto.
    - apply nan_coefficient. auto.
    - apply nan_coefficient. auto.
    - apply nonfinite_constant. exact Hd. }
  split; [apply H|].
  intros Hd.
  unfold slice_polygons_at_x, slice_polygons_at_y, slice_polygons_at_z.
  split; [|split]; apply H; right; right; right;
    apply nonfinite_fneg; exact Hd.
Qed.

Lemma degenerate_plane_cuts_nothing_witness :
  slice_polygons_at [Examples.straddling; Examples.flat]
    Examples.f_one Examples.f_nan Examples.f_zero Examples.f_half = []
  /\ slice_polygons_at_z [Examples.straddling; Examples.flat]
       Examples.f_inf = [].
Proof.
  split.
  - apply (proj1 (degenerate_plane_cuts_nothing _ _ Examples.f_nan _ _)).
    right. left. reflexivity.
  - apply (proj2 (degenerate_plane_cuts_nothing
                    [Examples.straddling; Examples.flat]
                    Examples.f_zero Examples.f_zero Examples.f_zero
                    Examples.f_inf)).
    reflexivity.
Defined.

(** A triangle with a NaN among the coordinates of its vertices yields no
    segment, whatever the plane: the output is that of the list without
    such triangles, and no NaN of the input reaches it. *)
Theorem nan_triangles_dropped (ts : list STLPolygon) (a b c d : float) :
  slice_polygons_at ts a b c d
  = slice_polygons_at (filter (fun t => negb (polygon_has_nan t)) ts) a b c d.
Proof.
  rewrite !slice_polygons_at_slice.
  induction ts as [|t ts IH]; [reflexivity|].
  cbn [filter]. rewrite slice_cons, IH.
  destruct (polygon_has_nan t) eqn:Hn; cbn [negb].
  - now rewrite nan_vertex_no_segment.
  - now rewrite slice_cons.
Qed.

(** An edge whose two ends compare equal does not cross, whatever the
    plane; a triangle whose three vertices compare equal yields no
    segment. *)
Theorem coincident_vertices_do_not_cross (a b c d : float) :
  (forall e : STLSegment,
      coincide (p e) (q e) ->
      crosses (internal.segment_plane_intersection e a b c d) = false)
  /\ (forall t : STLPolygon,
      coincide (stlutil.a t) (stlutil.b t) ->
      coincide (stlutil.b t) (stlutil.c t) ->
      coincide (stlutil.c t) (stlutil.a t) ->
      slice_polygons_at [t] a b c d = []).
Proof.
  assert (H : forall e : STLSegment,
            coincide (p e) (q e) ->
            crosses (edge_parameter e a b c d) = false).
  { intros e He.
    apply edge_parameter_degenerate, coincident_ends_denominator, He. }
  split; [intros e He; rewrite segment_plane_intersection_eq; auto|].
  intros t Hab Hbc Hca. rewrite slice_polygons_at_slice, slice_single.
  apply no_crossing_no_segment. intros i Hi. apply H.
  destruct i as [|[|[|i]]]; [assumption..|lia].
Qed.

Lemma coincident_vertices_do_not_cross_witness :
  crosses (internal.segment_plane_intersection (edge Examples.point_like 0)
             Examples.f_one Examples.f_two Examples.f_half
             Examples.f_minus_one) = false
  /\ slice_polygons_at [Examples.point_like]
       Examples.f_one Examples.f_two Examples.f_half Examples.f_minus_one
     = [].
Proof.
  destruct (coincident_vertices_do_not_cross
              Examples.f_one Examples.f_two Examples.f_half
              Examples.f_minus_one) as (Hedge & Htri).
  split.
  - apply Hedge. repeat split.
  - apply Htri; repeat split.
Defined.

(** Reversing the input reverses the output. *)
Theorem slice_of_reversed (ts : list STLPolygon) (a b c d : float) :
  slice_polygons_at (rev ts) a b c d = rev (slice_polygons_at ts a b c d).
Proof. rewrite !slice_polygons_at_slice. apply slice_rev. Qed.

(** ** point_on_line *)

(** At the parameter 0 [point_on_line] returns the start of the segment
    and at the parameter 1 its end, bit for bit, provided the point
    returned has no coordinate -0.0 and the other end is finite. *)
Theorem point_on_line_endpoints (segment : STLSegment) :
  (plain_vector (p segment) -> finite_vector (q segment) ->
   internal.point_on_line segment (of_int 0) = p segment)
  /\ (finite_vector (p segment) -> plain_vector (q segment) ->
      internal.point_on_line segment (of_int 1) = q segment).
Proof.
  rewrite !point_on_line_eq. split.
  - intros Hp Hq. apply interpolate_zero; auto using is_zero_of_int_0.
  - intros (Fx & Fy & Fz) (Hx & Hy & Hz). unfold interpolate.
    rewrite !interpolate_coordinate_one by assumption.
    destruct segment as [v1 [x2 y2 z2]]. reflexivity.
Qed.

Lemma point_on_line_endpoints_witness :
  internal.point_on_line
    {| p := a Examples.straddling; q := b Examples.straddling |} (of_int 0)
  = a Examples.straddling
  /\ internal.point_on_line
       {| p := a Examples.straddling; q := b Examples.straddling |} (of_int 1)
     = b Examples.straddling.
Proof.
  destruct (point_on_line_endpoints
              {| p := a Examples.straddling; q := b Examples.straddling |})
    as (H0 & H1).
  split.
  - apply H0.
    + repeat split; vm_compute; congruence.
    + repeat split.
  - apply H1.
    + repeat split.
    + repeat split; vm_compute; congruence.
Defined.
